(** * SeeAgain server: the payment authorization reconciliation engine

    A shallow embedding of the payment part of the SeeAgain server
    (persistent payment storage, Stripe capture / cancel logic, the
    Stripe webhook endpoint and the stuck-authorization sweep) and the
    properties of it that the specification states.

    Modelling choices, all visible in the definitions below:

    - [paymentsStore] is a JavaScript object used as a dictionary from
      jobId to record: a [gmap string PaymentRecord], which holds its
      own properties.  [paymentsStore[jobId]] also finds what the
      object inherits from [Object.prototype]; the engine below is the
      code for the jobIds that name no inherited member ([own_name]),
      and [Inherited] is the code at a jobId that names an inherited
      method.  [Object.entries] and [JSON.stringify] take the entries
      of the ledger in an order that the [gmap] does not keep; the
      model takes them in the order of [map_to_list], or in an order
      given as a parameter where a statement depends on it.
    - a JavaScript function is a computation [JS A] over the [World]
      (the ledger in memory, payments.json on disk, the calls issued to
      Stripe so far, the clock) that completes normally or throws;
      [try]/[catch] is [try_catch].  An [await] is sequential: handlers
      run one after another, never interleaved.
    - what the platform decides is a parameter ([Platform]): the JSON
      codec of the runtime and the answer of Stripe to each call, which
      may depend on every call issued before.  [node] is the platform
      with the codec written out ([JSON.stringify] on a ledger,
      [JSON.parse] on a text); what does not depend on the codec is
      proved for every platform.
    - a request to the webhook is a request that is refused, an event
      with the fields the handler reads, or a [malformed_event] that
      the handler cannot take apart.
    - [console.log] and the HTTP response bodies are left out.
    - the prompt helpers ([cleanSuggestionLine], the handler of
      POST /suggest-prompts, [ensureVisibleMotion],
      [enforceVisibleMotionNoSpeech]) are pure functions on strings,
      modelled as lists of characters; their regular expressions are
      written out as the scans they perform.
    - [cleanupOldOutputs] runs over a [Folder]: what [fs] shows of the
      outputs folder. *)

From Stdlib Require Import ZArith Ascii Qcanon.
From Stdlib Require DecimalFacts DecimalPos.
From stdpp Require Import base strings pretty gmap list fin_maps.

(** ** Data model *)

(** The values the code stores in [record.status]. *)
Inductive Status :=
| authorized
| render_succeeded
| render_failed
| captured
| canceled
| capture_failed
| cancel_failed
| payment_failed.

#[global] Instance Status_eq_dec : EqDecision Status.
Proof. solve_decision. Defined.

(** One entry of payments.json.  [None] in [paymentIntentId] and
    [sessionId] is JavaScript's [null] (or an absent property);
    [updatedAt] is absent until the first [markJobStatus]. *)
Record PaymentRecord := {
  paymentIntentId : option string;
  sessionId : option string;
  status : Status;
  createdAt : Z;
  updatedAt : option Z
}.

#[global] Instance PaymentRecord_eq_dec : EqDecision PaymentRecord.
Proof. solve_decision. Defined.

(** [record.status = status; record.updatedAt = Date.now()] *)
Definition touched (record : PaymentRecord) (st : Status) (now : Z)
  : PaymentRecord :=
  {| paymentIntentId := paymentIntentId record;
     sessionId := sessionId record;
     status := st;
     createdAt := createdAt record;
     updatedAt := Some now |}.

(** [record.paymentIntentId = pi; record.sessionId = sess] *)
Definition attached (record : PaymentRecord) (pi sess : option string)
  : PaymentRecord :=
  {| paymentIntentId := pi;
     sessionId := sess;
     status := status record;
     createdAt := createdAt record;
     updatedAt := updatedAt record |}.

(** The two operations consumed from the Stripe SDK, each on a
    PaymentIntent id. *)
Inductive StripeCall :=
| capture (pi : string)
| cancel (pi : string).

#[global] Instance StripeCall_eq_dec : EqDecision StripeCall.
Proof. solve_decision. Defined.

(** The state the payment code reads and writes.  [payments_json] is
    the text of payments.json ([None] when the file does not exist);
    [fs_readable] and [fs_writable] say whether reading and writing it
    succeed; [clock] is what [Date.now()] returns.  These three are set
    by the environment between two handlers and stay as they are while
    one runs.  [stripe_log] lists the calls issued to Stripe, oldest
    first, each tagged with the jobId on whose behalf it was issued
    (the tag is bookkeeping of the model; Stripe only sees the call). *)
Record World := {
  paymentsStore : gmap string PaymentRecord;
  payments_json : option string;
  fs_readable : bool;
  fs_writable : bool;
  stripe_log : list (string * StripeCall);
  clock : Z
}.

Definition with_store (s : gmap string PaymentRecord) (w : World) : World :=
  {| paymentsStore := s;
     payments_json := payments_json w;
     fs_readable := fs_readable w;
     fs_writable := fs_writable w;
     stripe_log := stripe_log w;
     clock := clock w |}.

Definition with_file (data : string) (w : World) : World :=
  {| paymentsStore := paymentsStore w;
     payments_json := Some data;
     fs_readable := fs_readable w;
     fs_writable := fs_writable w;
     stripe_log := stripe_log w;
     clock := clock w |}.

Definition logged (jobId : string) (c : StripeCall) (w : World) : World :=
  {| paymentsStore := paymentsStore w;
     payments_json := payments_json w;
     fs_readable := fs_readable w;
     fs_writable := fs_writable w;
     stripe_log := stripe_log w ++ [(jobId, c)];
     clock := clock w |}.

(** What lines 90-91 of the server, [paymentsStore = JSON.parse(data)]
    and [Object.keys(paymentsStore)], make of a text:
    - [parsed_ledger s]: the text denotes an object whose members are
      records; it becomes the ledger;
    - [parsed_other]: the text denotes another JSON value (a number, an
      array, an object with a member that is not a record as the code
      writes them); neither line throws, and the value becomes
      [paymentsStore];
    - [parse_throws]: the text is not JSON ([SyntaxError]), or it is
      [null] ([Object.keys] throws). *)
Inductive Parsed :=
| parsed_ledger (s : gmap string PaymentRecord)
| parsed_other
| parse_throws.

(** What the platform provides: the JSON codec of the runtime, as far
    as ledgers go, and the answer of Stripe to a call, given the calls
    before it. *)
Class Platform := {
  JSON_stringify : gmap string PaymentRecord → string;
  JSON_parse : string → Parsed;
  stripe_accepts : list StripeCall → StripeCall → bool
}.

(** ** Computations that may throw *)

(** How a computation ends.  [Foreign data] is the one end that is
    neither a result nor an exception: the code has made
    [JSON.parse(data)], a value that the ledger type does not hold,
    its [paymentsStore] and goes on with it.  A [World] has no such
    store, so the model follows the code no further; nothing catches
    it. *)
Inductive Completion (A : Type) :=
| Normal (a : A)
| Throw (err : string)
| Foreign (data : string).
Arguments Normal {A} a.
Arguments Throw {A} err.
Arguments Foreign {A} data.

Definition JS (A : Type) : Type := World → Completion A * World.

#[global] Instance JS_ret : MRet JS := λ A a w, (Normal a, w).

#[global] Instance JS_bind : MBind JS := λ A B k m w,
  match m w with
  | (Normal a, w') => k a w'
  | (Throw e, w') => (Throw e, w')
  | (Foreign data, w') => (Foreign data, w')
  end.

Definition throw {A} (err : string) : JS A := λ w, (Throw err, w).

Definition foreign {A} (data : string) : JS A := λ w, (Foreign data, w).

Definition try_catch {A} (body : JS A) (handler : string → JS A) : JS A :=
  λ w, match body w with
       | (Normal a, w') => (Normal a, w')
       | (Throw e, w') => handler e w'
       | (Foreign data, w') => (Foreign data, w')
       end.

(** The world a computation leaves behind. *)
Definition run {A} (m : JS A) (w : World) : World := (m w).2.

Definition get_store : JS (gmap string PaymentRecord) :=
  λ w, (Normal (paymentsStore w), w).

Definition set_store (s : gmap string PaymentRecord) : JS unit :=
  λ w, (Normal tt, with_store s w).

Definition Date_now : JS Z := λ w, (Normal (clock w), w).

(** The file system, as far as payments.json goes. *)
Definition fs_existsSync : JS bool :=
  λ w, (Normal (bool_decide (is_Some (payments_json w))), w).

Definition fs_readFileSync : JS string :=
  λ w, match payments_json w with
       | Some data =>
           if fs_readable w then (Normal data, w) else (Throw "EACCES", w)
       | None => (Throw "ENOENT", w)
       end.

Definition fs_writeFileSync (data : string) : JS unit :=
  λ w, if fs_writable w
       then (Normal tt, with_file data w)
       else (Throw "EACCES", w).

(** JavaScript truthiness of a string-or-null and of a string. *)
Definition truthy (o : option string) : bool :=
  match o with
  | Some s => bool_decide (s ≠ "")
  | None => false
  end.

Definition nonempty (s : string) : bool := bool_decide (s ≠ "").

Section Engine.
Context `{Platform}.

(** [stripe.paymentIntents.capture] / [.cancel]: the call is issued and
    logged; the promise rejects when Stripe refuses. *)
Definition stripe_paymentIntents (jobId : string) (c : StripeCall) : JS unit :=
  λ w, if stripe_accepts (snd <$> stripe_log w) c
       then (Normal tt, logged jobId c w)
       else (Throw "StripeError", logged jobId c w).

(** ** Persistent payment storage

    In the functions below [s !! jobId] stands for [paymentsStore[jobId]]:
    they are the code for the jobIds that are own names, and for every
    jobId that has an entry of its own in the ledger. *)

Definition loadPayments : JS unit :=
  try_catch
    (present ← fs_existsSync;
     if present : bool then
       data ← fs_readFileSync;
       match JSON_parse data with
       | parsed_ledger s => set_store s
       | parsed_other => foreign data
       | parse_throws => throw "SyntaxError"
       end
     else mret tt)
    (λ _, set_store ∅).

Definition savePayments : JS unit :=
  try_catch
    (s ← get_store;
     fs_writeFileSync (JSON_stringify s))
    (λ _, mret tt).

Definition recordPayment (jobId : string) (pi sess : option string)
  : JS (option PaymentRecord) :=
  if negb (nonempty jobId) then mret None
  else
    s ← get_store;
    match s !! jobId with
    | Some existing => mret (Some existing)
    | None =>
        now ← Date_now;
        let record := {| paymentIntentId := pi;
                         sessionId := sess;
                         status := authorized;
                         createdAt := now;
                         updatedAt := None |} in
        set_store (<[jobId := record]> s);;
        savePayments;;
        mret (Some record)
    end.

Definition markJobStatus (jobId : string) (st : Status)
  : JS (option PaymentRecord) :=
  if negb (nonempty jobId) then mret None
  else
    s ← get_store;
    match s !! jobId with
    | None => mret None
    | Some record =>
        now ← Date_now;
        let record' := touched record st now in
        set_store (<[jobId := record']> s);;
        savePayments;;
        mret (Some record')
    end.

Definition getPayment (jobId : string) : JS (option PaymentRecord) :=
  s ← get_store; mret (s !! jobId).

Definition getPendingJobStatus (jobId : string) : JS (option Status) :=
  s ← get_store;
  match s !! jobId with
  | None => mret None
  | Some record =>
      if bool_decide (status record = render_succeeded ∨ status record = render_failed)
      then mret (Some (status record))
      else mret None
  end.

Definition recordJobCompletion (jobId : string) (renderStatus : Status)
  : JS (option PaymentRecord) :=
  s ← get_store;
  match s !! jobId with
  | None =>
      now ← Date_now;
      let placeholder := {| paymentIntentId := None;
                            sessionId := None;
                            status := renderStatus;
                            createdAt := now;
                            updatedAt := None |} in
      set_store (<[jobId := placeholder]> s);;
      savePayments;;
      mret (Some placeholder)
  | Some _ => markJobStatus jobId renderStatus
  end.

(** ** Stripe capture / cancel logic *)

Definition capturePayment (jobId : string) : JS bool :=
  found ← getPayment jobId;
  match found with
  | None => mret false
  | Some record =>
      match paymentIntentId record with
      | None => mret false
      | Some pi =>
          if negb (nonempty pi) then mret false
          else if bool_decide (status record = captured) then mret true
          else if bool_decide (status record ≠ authorized ∧
                               status record ≠ render_succeeded)
          then mret false
          else
            try_catch
              (stripe_paymentIntents jobId (capture pi);;
               markJobStatus jobId captured;;
               mret true)
              (λ _, markJobStatus jobId capture_failed;; mret false)
      end
  end.

Definition cancelPayment (jobId : string) : JS bool :=
  found ← getPayment jobId;
  match found with
  | None => mret false
  | Some record =>
      match paymentIntentId record with
      | None => mret false
      | Some pi =>
          if negb (nonempty pi) then mret false
          else if bool_decide (status record = canceled) then mret true
          else if bool_decide (status record ≠ authorized ∧
                               status record ≠ render_failed)
          then mret false
          else
            try_catch
              (stripe_paymentIntents jobId (cancel pi);;
               markJobStatus jobId canceled;;
               mret true)
              (λ _, markJobStatus jobId cancel_failed;; mret false)
      end
  end.

Definition handleJobCompletion (jobId : string) (success : bool) : JS unit :=
  let renderStatus := if success then render_succeeded else render_failed in
  found ← getPayment jobId;
  if negb (truthy (found ≫= paymentIntentId)) then
    recordJobCompletion jobId renderStatus;;
    mret tt
  else
    markJobStatus jobId renderStatus;;
    if success then capturePayment jobId;; mret tt
    else cancelPayment jobId;; mret tt.

(** ** Stripe webhook endpoint *)

(** The fields of [event.data.object] that the handler reads:
    [session.id], [session.metadata?.jobId], [session.payment_intent]. *)
Record Session := {
  session_id : option string;
  metadata_jobId : option string;
  payment_intent : option string
}.

(** What the handler makes of [event].  With STRIPE_WEBHOOK_SECRET the
    event is one that Stripe signed; without it the event is whatever
    [JSON.parse] reads in the body.  [unhandled_event] is any value
    whose [type] is none of the three that the handler knows (a value
    without [type] included).  [malformed_event] is a value that the
    handler cannot take apart: [null], on which [event.type] cannot be
    read, or an event of one of the three types whose [data] or
    [data.object] is missing or [null]. *)
Inductive StripeEvent :=
| checkout_session_completed (session : Session)
| checkout_session_async_payment_succeeded (session : Session)
| checkout_session_async_payment_failed (session : Session)
| unhandled_event
| malformed_event.

(** The handler of POST /stripe/webhook.  [None] is a request whose
    event could not be constructed (bad signature, or a body that
    [JSON.parse] rejects); the result is the HTTP status of the
    response.  The reads of [event.type], [event.data.object] and
    [session.metadata] are outside the [try] of the handler: on a
    malformed event it throws and sends no response. *)
Definition stripe_webhook (request : option StripeEvent) : JS nat :=
  match request with
  | None => mret 400
  | Some event =>
      match event with
      | checkout_session_completed session =>
          match metadata_jobId session, payment_intent session with
          | Some jobId, Some pi =>
              if nonempty jobId && nonempty pi then
                pendingStatus ← getPendingJobStatus jobId;
                match pendingStatus with
                | Some pending =>
                    s ← get_store;
                    match s !! jobId with
                    | None => throw "TypeError"
                    | Some record =>
                        set_store
                          (<[jobId := attached record (Some pi)
                                               (session_id session)]> s)
                    end;;
                    savePayments;;
                    if bool_decide (pending = render_succeeded)
                    then capturePayment jobId;; mret tt
                    else if bool_decide (pending = render_failed)
                    then cancelPayment jobId;; mret tt
                    else mret tt
                | None =>
                    recordPayment jobId (Some pi) (session_id session);;
                    mret tt
                end
              else mret tt
          | _, _ => mret tt
          end
      | checkout_session_async_payment_succeeded _ => mret tt
      | checkout_session_async_payment_failed session =>
          match metadata_jobId session with
          | Some jobId =>
              if nonempty jobId then markJobStatus jobId payment_failed;; mret tt
              else mret tt
          | None => mret tt
          end
      | unhandled_event => mret tt
      | malformed_event => throw "TypeError"
      end;;
      mret 200
  end.

(** ** Safety timeout: cancel stuck authorizations *)

Definition AUTHORIZATION_TIMEOUT_MS : Z := 2 * 60 * 60 * 1000.
Definition CLEANUP_INTERVAL_MS : Z := 30 * 60 * 1000.

(** The body of the [for ... of Object.entries(paymentsStore)] loop.
    [record] in the source is the live object of the ledger, so its
    fields are read from the ledger as it is when the entry is
    reached. *)
Fixpoint cleanup_loop (now : Z) (entries : list (string * PaymentRecord))
    (cleanedCount : nat) : JS nat :=
  match entries with
  | [] => mret cleanedCount
  | (jobId, _) :: rest =>
      s ← get_store;
      match s !! jobId with
      | None => cleanup_loop now rest cleanedCount
      | Some record =>
          if bool_decide (status record ≠ authorized)
          then cleanup_loop now rest cleanedCount
          else if bool_decide (now - createdAt record > AUTHORIZATION_TIMEOUT_MS)%Z
          then
            n ← try_catch (cancelPayment jobId;; mret (S cleanedCount))
                          (λ _, mret cleanedCount);
            cleanup_loop now rest n
          else cleanup_loop now rest cleanedCount
      end
  end.

Definition cleanupStuckAuthorizations : JS unit :=
  now ← Date_now;
  s ← get_store;
  cleanup_loop now (map_to_list s) 0;;
  mret tt.

(** ** The inbound interface of the specification *)

Inductive Notice :=
| notifyAuthorization (jobId paymentIntentRef sessionRef : string)
| notifyOutcome (jobId : string) (succeeded : bool)
| notifyAsyncPaymentFailure (jobId : string).

Definition deliver (n : Notice) : JS unit :=
  match n with
  | notifyAuthorization jobId ref sess =>
      stripe_webhook
        (Some (checkout_session_completed
                 {| session_id := Some sess;
                    metadata_jobId := Some jobId;
                    payment_intent := Some ref |}));;
      mret tt
  | notifyOutcome jobId succeeded => handleJobCompletion jobId succeeded
  | notifyAsyncPaymentFailure jobId =>
      stripe_webhook
        (Some (checkout_session_async_payment_failed
                 {| session_id := None;
                    metadata_jobId := Some jobId;
                    payment_intent := None |}));;
      mret tt
  end.

Fixpoint deliver_all (ns : list Notice) : JS unit :=
  match ns with
  | [] => mret tt
  | n :: rest => deliver n;; deliver_all rest
  end.

(** A process restart: the module is evaluated again, which runs
    [let paymentsStore = {}] and then [loadPayments()]. *)
Definition restart : JS unit := set_store ∅;; loadPayments.

(** The world after [savePayments()]. *)
Definition saved (w : World) : World := run savePayments w.

(** The world after one pass of the loop of the sweep over the entry
    of [jobId]. *)
Definition visited (now : Z) (jobId : string) (w : World) : World :=
  match paymentsStore w !! jobId with
  | Some record =>
      if bool_decide (status record = authorized ∧
                      (now - createdAt record > AUTHORIZATION_TIMEOUT_MS)%Z)
      then run (cancelPayment jobId) w
      else w
  | None => w
  end.

End Engine.

(** The calls issued to Stripe on behalf of one job. *)
Definition calls_for (jobId : string) (log : list (string * StripeCall))
  : list StripeCall :=
  snd <$> filter (λ e, e.1 = jobId) log.

Definition status_of (jobId : string) (w : World) : option Status :=
  status <$> paymentsStore w !! jobId.

(** The states the specification calls terminal. *)
Definition terminal (st : Status) : Prop :=
  st = captured ∨ st = canceled ∨ st = payment_failed.

(** What the code keeps true of every record it creates: a reference,
    once attached, is a non-empty string filed under a non-empty jobId,
    and only a record with a reference is ever [authorized]. *)
Definition record_ok (jobId : string) (record : PaymentRecord) : Prop :=
  match paymentIntentId record with
  | Some pi => pi ≠ "" ∧ jobId ≠ ""
  | None => status record ≠ authorized
  end.

#[global] Instance record_ok_dec jobId record : Decision (record_ok jobId record).
Proof. unfold record_ok. destruct (paymentIntentId record); apply _. Defined.

Definition ledger_ok (s : gmap string PaymentRecord) : Prop :=
  map_Forall record_ok s.

(** ** Names the ledger inherits

    The ledger is an object literal (or what [JSON.parse] returns), so
    it inherits the members of [Object.prototype], and
    [paymentsStore[jobId]] finds them where the ledger has no own
    entry.  [Object_prototype] lists them.  At the jobId [__proto__]
    the code finds [Object.prototype] itself and writes [status],
    [updatedAt], [paymentIntentId] and [sessionId] on it, after which
    every object inherits these four names too. *)
Definition Object_prototype : list string :=
  ["constructor"; "__defineGetter__"; "__defineSetter__"; "hasOwnProperty";
   "__lookupGetter__"; "__lookupSetter__"; "isPrototypeOf";
   "propertyIsEnumerable"; "toString"; "valueOf"; "__proto__";
   "toLocaleString"].

Definition written_on_prototype : list string :=
  ["status"; "updatedAt"; "paymentIntentId"; "sessionId"].

(** A jobId under which [paymentsStore[jobId]] is the own entry of the
    ledger or nothing, as the [gmap] has it. *)
Definition own_name (jobId : string) : Prop :=
  jobId ∉ Object_prototype ++ written_on_prototype.



(** The engine at a jobId that names a method of [Object.prototype],
    such as [constructor], in a ledger with no own entry of that name.
    [paymentsStore[jobId]] is then the method: a function object, one
    for the whole process and truthy, on which the code reads and
    writes [paymentIntentId], [sessionId], [status] and [updatedAt] as
    it does on a record.  [Method] holds these four properties, absent
    until the code writes them.  The ledger gets no entry:
    every test [paymentsStore[jobId]] succeeds, so no assignment
    [paymentsStore[jobId] = ...] is reached, and [savePayments] writes
    the ledger as it is. *)
Module Inherited.

Record Method := {
  paymentIntentId : option string;
  sessionId : option string;
  status : option Status;
  updatedAt : option Z
}.

(** The method before the code has written on it. *)
Definition untouched : Method :=
  {| paymentIntentId := None; sessionId := None;
     status := None; updatedAt := None |}.

Section Engine.
Context `{Platform}.

(** The test of line 112 succeeds: nothing is recorded. *)
Definition recordPayment (method : Method) : JS Method := mret method.

(** The test of line 133 fails: the status is written on the method. *)
Definition markJobStatus (st : Status) (method : Method) : JS Method :=
  now ← Date_now;
  savePayments;;
  mret {| paymentIntentId := paymentIntentId method;
          sessionId := sessionId method;
          status := Some st;
          updatedAt := Some now |}.

Definition getPendingJobStatus (method : Method) : option Status :=
  match status method with
  | Some st =>
      if bool_decide (st = render_succeeded ∨ st = render_failed)
      then Some st else None
  | None => None
  end.

(** The test of line 164 fails: no placeholder, line 178 marks. *)
Definition recordJobCompletion (renderStatus : Status) (method : Method)
  : JS Method :=
  markJobStatus renderStatus method.

Definition capturePayment (jobId : string) (method : Method)
  : JS (bool * Method) :=
  match paymentIntentId method with
  | None => mret (false, method)
  | Some pi =>
      if negb (nonempty pi) then mret (false, method)
      else if bool_decide (status method = Some captured)
      then mret (true, method)
      else if bool_decide (status method ≠ Some authorized ∧
                           status method ≠ Some render_succeeded)
      then mret (false, method)
      else
        try_catch
          (stripe_paymentIntents jobId (capture pi);;
           method' ← markJobStatus captured method;
           mret (true, method'))
          (λ _, method' ← markJobStatus capture_failed method;
                mret (false, method'))
  end.

Definition cancelPayment (jobId : string) (method : Method)
  : JS (bool * Method) :=
  match paymentIntentId method with
  | None => mret (false, method)
  | Some pi =>
      if negb (nonempty pi) then mret (false, method)
      else if bool_decide (status method = Some canceled)
      then mret (true, method)
      else if bool_decide (status method ≠ Some authorized ∧
                           status method ≠ Some render_failed)
      then mret (false, method)
      else
        try_catch
          (stripe_paymentIntents jobId (cancel pi);;
           method' ← markJobStatus canceled method;
           mret (true, method'))
          (λ _, method' ← markJobStatus cancel_failed method;
                mret (false, method'))
  end.

Definition handleJobCompletion (jobId : string) (success : bool)
    (method : Method) : JS Method :=
  let renderStatus := if success then render_succeeded else render_failed in
  if negb (truthy (paymentIntentId method)) then
    recordJobCompletion renderStatus method
  else
    method' ← markJobStatus renderStatus method;
    if success then result ← capturePayment jobId method'; mret result.2
    else result ← cancelPayment jobId method'; mret result.2.

(** The case [checkout.session.completed] of the webhook, for a session
    whose metadata name [jobId]. *)
Definition checkout_completed (jobId : string) (session : Session)
    (method : Method) : JS Method :=
  match payment_intent session with
  | Some pi =>
      if nonempty jobId && nonempty pi then
        match getPendingJobStatus method with
        | Some pending =>
            let method' := {| paymentIntentId := Some pi;
                              sessionId := session_id session;
                              status := status method;
                              updatedAt := updatedAt method |} in
            savePayments;;
            if bool_decide (pending = render_succeeded)
            then result ← capturePayment jobId method'; mret result.2
            else if bool_decide (pending = render_failed)
            then result ← cancelPayment jobId method'; mret result.2
            else mret method'
        | None => recordPayment method
        end
      else mret method
  | None => mret method
  end.

End Engine.

End Inherited.

(** ** JSON

    The codec of the runtime, as the payment code uses it:
    [JSON.stringify(paymentsStore, null, 2)] on a ledger and
    [JSON.parse] on the text of payments.json.  A text is the list of
    its characters, each a code unit below 256.  Timestamps are values
    of [Date.now()], integers that are written and read digit by
    digit. *)

Definition text (s : string) : list ascii := String.list_ascii_of_string s.

Definition status_name (st : Status) : string :=
  match st with
  | authorized => "authorized"
  | render_succeeded => "render_succeeded"
  | render_failed => "render_failed"
  | captured => "captured"
  | canceled => "canceled"
  | capture_failed => "capture_failed"
  | cancel_failed => "cancel_failed"
  | payment_failed => "payment_failed"
  end.

(** The lexical elements of a JSON text.  [t_wide_string] is a string
    with an escape above [\u00ff], which the 8-bit strings of the model
    do not hold; [t_fraction] is a number written with a fraction or an
    exponent. *)

Inductive Token :=
| t_open_brace
| t_close_brace
| t_open_bracket
| t_close_bracket
| t_colon
| t_comma
| t_string (s : string)
| t_wide_string
| t_integer (n : Z)
| t_fraction
| t_true
| t_false
| t_null.

Inductive NumberPart :=
| n_minus | n_zero | n_int | n_dot | n_frac | n_e | n_esign | n_exp.

Inductive Lexing :=
| ready
| in_string (wide : bool) (read : list ascii)
| in_escape (wide : bool) (read : list ascii)
| in_unicode (wide : bool) (read : list ascii) (value : N) (remaining : nat)
| in_number (part : NumberPart) (negative : bool) (digits : Decimal.uint)
| in_word (rest : list ascii) (tok : Token).

Definition digit (c : ascii) : option (Decimal.uint → Decimal.uint) :=
  match N_of_ascii c with
  | 48 => Some Decimal.D0
  | 49 => Some Decimal.D1
  | 50 => Some Decimal.D2
  | 51 => Some Decimal.D3
  | 52 => Some Decimal.D4
  | 53 => Some Decimal.D5
  | 54 => Some Decimal.D6
  | 55 => Some Decimal.D7
  | 56 => Some Decimal.D8
  | 57 => Some Decimal.D9
  | _ => None
  end%N.

Definition hex_digit (c : ascii) : option N :=
  let n := N_of_ascii c in
  if ((48 <=? n) && (n <=? 57))%N then Some (n - 48)%N
  else if ((97 <=? n) && (n <=? 102))%N then Some (n - 87)%N
  else if ((65 <=? n) && (n <=? 70))%N then Some (n - 55)%N
  else None.

Definition integer_token (negative : bool) (digits : Decimal.uint) : Token :=
  let n := Z.of_N (N.of_uint (Decimal.rev digits)) in
  t_integer (if negative then (- n)%Z else n).

Definition number_token (part : NumberPart) (negative : bool)
    (digits : Decimal.uint) : option Token :=
  match part with
  | n_zero | n_int => Some (integer_token negative digits)
  | n_frac | n_exp => Some t_fraction
  | n_minus | n_dot | n_e | n_esign => None
  end.

Definition number_next (part : NumberPart) (c : ascii) : option NumberPart :=
  let n := N_of_ascii c in
  let is_digit := bool_decide (is_Some (digit c)) in
  let is_dot := (n =? 46)%N in
  let is_e := ((n =? 101) || (n =? 69))%N in
  let is_sign := ((n =? 43) || (n =? 45))%N in
  match part with
  | n_minus =>
      if (n =? 48)%N then Some n_zero
      else if is_digit then Some n_int else None
  | n_zero =>
      if is_dot then Some n_dot else if is_e then Some n_e else None
  | n_int =>
      if is_digit then Some n_int
      else if is_dot then Some n_dot else if is_e then Some n_e else None
  | n_dot => if is_digit then Some n_frac else None
  | n_frac =>
      if is_digit then Some n_frac else if is_e then Some n_e else None
  | n_e =>
      if is_digit then Some n_exp else if is_sign then Some n_esign else None
  | n_esign => if is_digit then Some n_exp else None
  | n_exp => if is_digit then Some n_exp else None
  end.

Definition lex_ready (c : ascii) : option (list Token * Lexing) :=
  match N_of_ascii c with
  | 32 | 9 | 10 | 13 => Some ([], ready)
  | 123 => Some ([t_open_brace], ready)
  | 125 => Some ([t_close_brace], ready)
  | 91 => Some ([t_open_bracket], ready)
  | 93 => Some ([t_close_bracket], ready)
  | 58 => Some ([t_colon], ready)
  | 44 => Some ([t_comma], ready)
  | 34 => Some ([], in_string false [])
  | 45 => Some ([], in_number n_minus true Decimal.Nil)
  | 48 => Some ([], in_number n_zero false (Decimal.D0 Decimal.Nil))
  | 116 => Some ([], in_word (text "rue") t_true)
  | 102 => Some ([], in_word (text "alse") t_false)
  | 110 => Some ([], in_word (text "ull") t_null)
  | _ =>
      match digit c with
      | Some d => Some ([], in_number n_int false (d Decimal.Nil))
      | None => None
      end
  end%N.

Definition lex_number (part : NumberPart) (negative : bool)
    (digits : Decimal.uint) (c : ascii) : option (list Token * Lexing) :=
  match number_next part c with
  | Some part' =>
      let digits' := match part', digit c with
                     | (n_zero | n_int), Some d => d digits
                     | _, _ => digits
                     end in
      Some ([], in_number part' negative digits')
  | None =>
      match number_token part negative digits, lex_ready c with
      | Some tok, Some (toks, st) => Some (tok :: toks, st)
      | _, _ => None
      end
  end.

Definition lex_string (wide : bool) (read : list ascii) (c : ascii)
  : option (list Token * Lexing) :=
  match N_of_ascii c with
  | 34 =>
      Some ([if wide then t_wide_string
             else t_string (String.string_of_list_ascii (rev read))], ready)
  | 92 => Some ([], in_escape wide read)
  | n => if (n <? 32)%N then None else Some ([], in_string wide (c :: read))
  end%N.

Definition lex_escape (wide : bool) (read : list ascii) (c : ascii)
  : option (list Token * Lexing) :=
  match N_of_ascii c with
  | 34 | 92 | 47 => Some ([], in_string wide (c :: read))
  | 98 => Some ([], in_string wide (ascii_of_N 8 :: read))
  | 102 => Some ([], in_string wide (ascii_of_N 12 :: read))
  | 110 => Some ([], in_string wide (ascii_of_N 10 :: read))
  | 114 => Some ([], in_string wide (ascii_of_N 13 :: read))
  | 116 => Some ([], in_string wide (ascii_of_N 9 :: read))
  | 117 => Some ([], in_unicode wide read 0 4)
  | _ => None
  end%N.

Definition lex_unicode (wide : bool) (read : list ascii) (value : N)
    (remaining : nat) (c : ascii) : option (list Token * Lexing) :=
  match hex_digit c with
  | None => None
  | Some h =>
      let value' := (16 * value + h)%N in
      match remaining with
      | 0 => None
      | 1 =>
          if (value' <? 256)%N
          then Some ([], in_string wide (ascii_of_N value' :: read))
          else Some ([], in_string true read)
      | S remaining' => Some ([], in_unicode wide read value' remaining')
      end
  end.

Definition lex_word (rest : list ascii) (tok : Token) (c : ascii)
  : option (list Token * Lexing) :=
  match rest with
  | [] => None
  | expected :: rest' =>
      if bool_decide (c = expected) then
        match rest' with
        | [] => Some ([tok], ready)
        | _ => Some ([], in_word rest' tok)
        end
      else None
  end.

Definition lex_step (st : Lexing) (c : ascii) : option (list Token * Lexing) :=
  match st with
  | ready => lex_ready c
  | in_string wide read => lex_string wide read c
  | in_escape wide read => lex_escape wide read c
  | in_unicode wide read value remaining =>
      lex_unicode wide read value remaining c
  | in_number part negative digits => lex_number part negative digits c
  | in_word rest tok => lex_word rest tok c
  end.

Definition lex_end (st : Lexing) : option (list Token) :=
  match st with
  | ready => Some []
  | in_number part negative digits =>
      match number_token part negative digits with
      | Some tok => Some [tok]
      | None => None
      end
  | _ => None
  end.

(** [out] holds the tokens read so far, last first. *)
Fixpoint lex_from (st : Lexing) (out : list Token) (s : list ascii)
  : option (list Token) :=
  match s with
  | [] =>
      match lex_end st with
      | Some toks => Some (rev_append out toks)
      | None => None
      end
  | c :: rest =>
      match lex_step st c with
      | Some (toks, st') => lex_from st' (rev_append toks out) rest
      | None => None
      end
  end.

Definition lex (s : list ascii) : option (list Token) := lex_from ready [] s.


(** *** Reading a ledger *)

(** The members of a record read so far.  [sessionId] absent and
    [sessionId] null both read as [None]. *)
Record Fields := {
  read_paymentIntentId : option (option string);
  read_sessionId : option string;
  read_status : option Status;
  read_createdAt : option Z;
  read_updatedAt : option Z
}.

Definition no_fields : Fields :=
  {| read_paymentIntentId := None; read_sessionId := None;
     read_status := None; read_createdAt := None; read_updatedAt := None |}.

Definition status_named (name : string) : option Status :=
  snd <$> list_find (λ st, status_name st = name)
    [authorized; render_succeeded; render_failed; captured; canceled;
     capture_failed; cancel_failed; payment_failed].

(** A member of a record; a later member of the same name replaces an
    earlier one.  [None]: the member is none that a record of the model
    has. *)
Definition with_member (name : string) (value : Token) (fields : Fields)
  : option Fields :=
  if bool_decide (name = "paymentIntentId") then
    match value with
    | t_string s =>
        Some {| read_paymentIntentId := Some (Some s);
                read_sessionId := read_sessionId fields;
                read_status := read_status fields;
                read_createdAt := read_createdAt fields;
                read_updatedAt := read_updatedAt fields |}
    | t_null =>
        Some {| read_paymentIntentId := Some None;
                read_sessionId := read_sessionId fields;
                read_status := read_status fields;
                read_createdAt := read_createdAt fields;
                read_updatedAt := read_updatedAt fields |}
    | _ => None
    end
  else if bool_decide (name = "sessionId") then
    match value with
    | t_string s =>
        Some {| read_paymentIntentId := read_paymentIntentId fields;
                read_sessionId := Some s;
                read_status := read_status fields;
                read_createdAt := read_createdAt fields;
                read_updatedAt := read_updatedAt fields |}
    | t_null =>
        Some {| read_paymentIntentId := read_paymentIntentId fields;
                read_sessionId := None;
                read_status := read_status fields;
                read_createdAt := read_createdAt fields;
                read_updatedAt := read_updatedAt fields |}
    | _ => None
    end
  else if bool_decide (name = "status") then
    match value with
    | t_string s =>
        match status_named s with
        | Some st =>
            Some {| read_paymentIntentId := read_paymentIntentId fields;
                    read_sessionId := read_sessionId fields;
                    read_status := Some st;
                    read_createdAt := read_createdAt fields;
                    read_updatedAt := read_updatedAt fields |}
        | None => None
        end
    | _ => None
    end
  else if bool_decide (name = "createdAt") then
    match value with
    | t_integer n =>
        Some {| read_paymentIntentId := read_paymentIntentId fields;
                read_sessionId := read_sessionId fields;
                read_status := read_status fields;
                read_createdAt := Some n;
                read_updatedAt := read_updatedAt fields |}
    | _ => None
    end
  else if bool_decide (name = "updatedAt") then
    match value with
    | t_integer n =>
        Some {| read_paymentIntentId := read_paymentIntentId fields;
                read_sessionId := read_sessionId fields;
                read_status := read_status fields;
                read_createdAt := read_createdAt fields;
                read_updatedAt := Some n |}
    | _ => None
    end
  else None.

(** A record has [paymentIntentId], [status] and [createdAt], as every
    record that the code writes has. *)
Definition record_of (fields : Fields) : option PaymentRecord :=
  match read_paymentIntentId fields, read_status fields,
        read_createdAt fields with
  | Some pi, Some st, Some created =>
      Some {| paymentIntentId := pi;
              sessionId := read_sessionId fields;
              status := st;
              createdAt := created;
              updatedAt := read_updatedAt fields |}
  | _, _, _ => None
  end.

(** Where the reader is in a document of the form
    [{ jobId: { member: value, ... }, ... }]. *)
Inductive Reading :=
| at_start
| at_first_key (ledger : gmap string PaymentRecord)
| at_key (ledger : gmap string PaymentRecord)
| after_key (ledger : gmap string PaymentRecord) (jobId : string)
| at_record (ledger : gmap string PaymentRecord) (jobId : string)
| at_first_member (ledger : gmap string PaymentRecord) (jobId : string)
| at_member (ledger : gmap string PaymentRecord) (jobId : string)
    (fields : Fields)
| after_name (ledger : gmap string PaymentRecord) (jobId : string)
    (fields : Fields) (name : string)
| at_value (ledger : gmap string PaymentRecord) (jobId : string)
    (fields : Fields) (name : string)
| after_member (ledger : gmap string PaymentRecord) (jobId : string)
    (fields : Fields)
| after_record (ledger : gmap string PaymentRecord)
| at_end (ledger : gmap string PaymentRecord).

Definition read_step (st : Reading) (tok : Token) : option Reading :=
  match st, tok with
  | at_start, t_open_brace => Some (at_first_key ∅)
  | at_first_key ledger, t_close_brace => Some (at_end ledger)
  | (at_first_key ledger | at_key ledger), t_string jobId =>
      Some (after_key ledger jobId)
  | after_key ledger jobId, t_colon => Some (at_record ledger jobId)
  | at_record ledger jobId, t_open_brace =>
      Some (at_first_member ledger jobId)
  | at_first_member ledger jobId, t_string name =>
      Some (after_name ledger jobId no_fields name)
  | at_member ledger jobId fields, t_string name =>
      Some (after_name ledger jobId fields name)
  | after_name ledger jobId fields name, t_colon =>
      Some (at_value ledger jobId fields name)
  | at_value ledger jobId fields name, value =>
      match with_member name value fields with
      | Some fields' => Some (after_member ledger jobId fields')
      | None => None
      end
  | after_member ledger jobId fields, t_comma =>
      Some (at_member ledger jobId fields)
  | after_member ledger jobId fields, t_close_brace =>
      match record_of fields with
      | Some record => Some (after_record (<[jobId := record]> ledger))
      | None => None
      end
  | after_record ledger, t_comma => Some (at_key ledger)
  | after_record ledger, t_close_brace => Some (at_end ledger)
  | _, _ => None
  end.

Fixpoint read_from (st : Reading) (toks : list Token)
  : option (gmap string PaymentRecord) :=
  match toks with
  | [] => match st with at_end ledger => Some ledger | _ => None end
  | tok :: rest =>
      match read_step st tok with
      | Some st' => read_from st' rest
      | None => None
      end
  end.

Definition read_ledger (toks : list Token)
  : option (gmap string PaymentRecord) :=
  read_from at_start toks.

(** *** Whether tokens make a JSON text *)

Inductive Container := in_object | in_array.

Inductive Expecting :=
| a_value
| a_value_or_close
| a_key_or_close
| a_key
| a_colon
| a_comma_or_close
| nothing_more.

Definition after_value (stack : list Container) : Expecting :=
  match stack with
  | [] => nothing_more
  | _ => a_comma_or_close
  end.

Fixpoint valid_from (stack : list Container) (expecting : Expecting)
    (toks : list Token) : bool :=
  match toks with
  | [] =>
      match expecting with
      | nothing_more => true
      | _ => false
      end
  | tok :: rest =>
      match expecting, tok, stack with
      | (a_value | a_value_or_close),
        (t_string _ | t_wide_string | t_integer _ | t_fraction
         | t_true | t_false | t_null), _ =>
          valid_from stack (after_value stack) rest
      | (a_value | a_value_or_close), t_open_brace, _ =>
          valid_from (in_object :: stack) a_key_or_close rest
      | (a_value | a_value_or_close), t_open_bracket, _ =>
          valid_from (in_array :: stack) a_value_or_close rest
      | a_value_or_close, t_close_bracket, in_array :: stack' =>
          valid_from stack' (after_value stack') rest
      | a_key_or_close, t_close_brace, in_object :: stack' =>
          valid_from stack' (after_value stack') rest
      | (a_key_or_close | a_key), (t_string _ | t_wide_string), _ =>
          valid_from stack a_colon rest
      | a_colon, t_colon, _ => valid_from stack a_value rest
      | a_comma_or_close, t_comma, in_object :: _ =>
          valid_from stack a_key rest
      | a_comma_or_close, t_comma, in_array :: _ =>
          valid_from stack a_value rest
      | a_comma_or_close, t_close_brace, in_object :: stack' =>
          valid_from stack' (after_value stack') rest
      | a_comma_or_close, t_close_bracket, in_array :: stack' =>
          valid_from stack' (after_value stack') rest
      | _, _, _ => false
      end
  end.

Definition valid_json (toks : list Token) : bool := valid_from [] a_value toks.

(** What lines 90-91 make of the text of payments.json. *)
Definition JSON_parse_text (data : string) : Parsed :=
  match lex (text data) with
  | None => parse_throws
  | Some toks =>
      match read_ledger toks with
      | Some ledger => parsed_ledger ledger
      | None =>
          match toks with
          | [t_null] => parse_throws
          | _ => if valid_json toks then parsed_other else parse_throws
          end
      end
  end.

(** *** Writing a ledger *)

Definition double_quote : ascii := ascii_of_N 34.
Definition line_feed : ascii := ascii_of_N 10.

Definition hex_char (n : N) : ascii :=
  if (n <? 10)%N then ascii_of_N (48 + n) else ascii_of_N (87 + n).

(** [QuoteJSONString], character by character. *)
Definition escape_char (c : ascii) : list ascii :=
  match N_of_ascii c with
  | 34 | 92 => [ascii_of_N 92; c]
  | 8 => text "\b"
  | 12 => text "\f"
  | 10 => text "\n"
  | 13 => text "\r"
  | 9 => text "\t"
  | n =>
      if (n <? 32)%N
      then text "\u00" ++ [hex_char (n / 16); hex_char (n mod 16)]
      else [c]
  end%N.

Definition quote (s : string) : list ascii :=
  double_quote :: flat_map escape_char (text s) ++ [double_quote].

Fixpoint digit_chars (d : Decimal.uint) : list ascii :=
  match d with
  | Decimal.Nil => []
  | Decimal.D0 d' => "0"%char :: digit_chars d'
  | Decimal.D1 d' => "1"%char :: digit_chars d'
  | Decimal.D2 d' => "2"%char :: digit_chars d'
  | Decimal.D3 d' => "3"%char :: digit_chars d'
  | Decimal.D4 d' => "4"%char :: digit_chars d'
  | Decimal.D5 d' => "5"%char :: digit_chars d'
  | Decimal.D6 d' => "6"%char :: digit_chars d'
  | Decimal.D7 d' => "7"%char :: digit_chars d'
  | Decimal.D8 d' => "8"%char :: digit_chars d'
  | Decimal.D9 d' => "9"%char :: digit_chars d'
  end.

(** A timestamp, an integer, in decimal. *)
Definition number_text (n : Z) : list ascii :=
  match n with
  | Z0 => text "0"
  | Zpos p => digit_chars (Pos.to_uint p)
  | Zneg p => "-"%char :: digit_chars (Pos.to_uint p)
  end.

Definition member_text (name : string) (value : list ascii) : list ascii :=
  text "    " ++ quote name ++ text ": " ++ value.

Definition reference_text (o : option string) : list ascii :=
  match o with
  | Some s => quote s
  | None => text "null"
  end.

(** The members of a record, in the order in which the code creates
    them.  [undefined_session] says that a [sessionId] of [None] is
    [undefined], which [JSON.stringify] leaves out, and not [null]. *)
Definition members_text (undefined_session : bool) (record : PaymentRecord)
  : list (list ascii) :=
  [member_text "paymentIntentId" (reference_text (paymentIntentId record))] ++
  match sessionId record with
  | Some s => [member_text "sessionId" (quote s)]
  | None =>
      if undefined_session then []
      else [member_text "sessionId" (text "null")]
  end ++
  [member_text "status" (quote (status_name (status record)));
   member_text "createdAt" (number_text (createdAt record))] ++
  match updatedAt record with
  | Some t => [member_text "updatedAt" (number_text t)]
  | None => []
  end.

Definition separator : list ascii := [","%char; line_feed].

Fixpoint joined (parts : list (list ascii)) : list ascii :=
  match parts with
  | [] => []
  | [part] => part
  | part :: rest => part ++ separator ++ joined rest
  end.

Definition record_text (undefined_session : bool) (record : PaymentRecord)
  : list ascii :=
  text "{" ++ [line_feed] ++
  joined (members_text undefined_session record) ++
  [line_feed] ++ text "  }".

Definition entry_text (undefined_session : string → bool)
    (entry : string * PaymentRecord) : list ascii :=
  text "  " ++ quote entry.1 ++ text ": " ++
  record_text (undefined_session entry.1) entry.2.

(** [JSON.stringify(paymentsStore, null, 2)] for a ledger whose entries
    come in the order of [entries]. *)
Definition ledger_text (undefined_session : string → bool)
    (entries : list (string * PaymentRecord)) : list ascii :=
  match entries with
  | [] => text "{}"
  | _ =>
      text "{" ++ [line_feed] ++
      joined (entry_text undefined_session <$> entries) ++
      [line_feed] ++ text "}"
  end.

Definition json_of_ledger (s : gmap string PaymentRecord) : string :=
  String.string_of_list_ascii (ledger_text (λ _, false) (map_to_list s)).

(** *** The tokens of a written ledger *)

Definition reference_token (o : option string) : Token :=
  match o with
  | Some s => t_string s
  | None => t_null
  end.

Definition member_tokens (name : string) (value : Token) : list Token :=
  [t_string name; t_colon; value].

Definition members_tokens (undefined_session : bool) (record : PaymentRecord)
  : list (list Token) :=
  [member_tokens "paymentIntentId" (reference_token (paymentIntentId record))] ++
  match sessionId record with
  | Some s => [member_tokens "sessionId" (t_string s)]
  | None =>
      if undefined_session then []
      else [member_tokens "sessionId" t_null]
  end ++
  [member_tokens "status" (t_string (status_name (status record)));
   member_tokens "createdAt" (t_integer (createdAt record))] ++
  match updatedAt record with
  | Some t => [member_tokens "updatedAt" (t_integer t)]
  | None => []
  end.

Fixpoint joined_tokens (parts : list (list Token)) : list Token :=
  match parts with
  | [] => []
  | [part] => part
  | part :: rest => part ++ t_comma :: joined_tokens rest
  end.

Definition record_tokens (undefined_session : bool) (record : PaymentRecord)
  : list Token :=
  t_open_brace :: joined_tokens (members_tokens undefined_session record) ++
  [t_close_brace].

Definition entry_tokens (undefined_session : string → bool)
    (entry : string * PaymentRecord) : list Token :=
  t_string entry.1 :: t_colon ::
  record_tokens (undefined_session entry.1) entry.2.

Definition ledger_tokens (undefined_session : string → bool)
    (entries : list (string * PaymentRecord)) : list Token :=
  t_open_brace :: joined_tokens (entry_tokens undefined_session <$> entries) ++
  [t_close_brace].

(** The ledger that holds the entries of a document, a later entry of
    the same jobId replacing an earlier one. *)
Definition ledger_of (entries : list (string * PaymentRecord))
  : gmap string PaymentRecord :=
  foldl (λ ledger entry, <[entry.1 := entry.2]> ledger) ∅ entries.

(** A piece of text that the lexer turns into [toks], whatever comes
    before and after it. *)
Definition lexes (piece : list ascii) (toks : list Token) : Prop :=
  ∀ out rest,
    lex_from ready out (piece ++ rest) = lex_from ready (rev_append toks out) rest.

(** The same for a piece that may end with a number, which the
    character after it ends: a comma or a line feed. *)
Definition delimiter (c : ascii) : Prop := c = ","%char ∨ c = line_feed.

Definition lexes_before_delimiter (piece : list ascii) (toks : list Token)
  : Prop :=
  ∀ out c rest,
    delimiter c →
    lex_from ready out (piece ++ c :: rest)
    = lex_from ready (rev_append toks out) (c :: rest).

(** ** Worlds and platforms of the examples *)

Definition record_in (st : Status) : PaymentRecord :=
  {| paymentIntentId := Some "pi_1";
     sessionId := Some "sess_1";
     status := st;
     createdAt := 1000;
     updatedAt := Some 2000%Z |}.

(** Node: the JSON codec above.  [listing] is the order in which
    [JSON.stringify] takes the entries of a ledger; [undefined_session]
    says for which jobs an absent [sessionId] is [undefined], which is
    left out of the text, rather than [null]; [accepts] is Stripe. *)
Definition node
    (listing : gmap string PaymentRecord → list (string * PaymentRecord))
    (undefined_session : string → bool)
    (accepts : list StripeCall → StripeCall → bool) : Platform :=
  {| JSON_stringify := λ s,
       String.string_of_list_ascii (ledger_text undefined_session (listing s));
     JSON_parse := JSON_parse_text;
     stripe_accepts := accepts |}.

(** Stripe accepts every call. *)
Definition stripe_accepts_all : Platform :=
  {| JSON_stringify := json_of_ledger;
     JSON_parse := JSON_parse_text;
     stripe_accepts := λ _ _, true |}.

(** Stripe accepts the first call on a PaymentIntent and refuses every
    later one (a hold can be captured or released once). *)
Definition stripe_accepts_once : Platform :=
  {| JSON_stringify := json_of_ledger;
     JSON_parse := JSON_parse_text;
     stripe_accepts := λ history c,
       let pi := match c with capture pi | cancel pi => pi end in
       bool_decide ((capture pi ∉ history) ∧ (cancel pi ∉ history)) |}.

(** A fresh process: nothing in memory, nothing on disk. *)
Definition fresh_world : World :=
  {| paymentsStore := ∅;
     payments_json := None;
     fs_readable := true;
     fs_writable := true;
     stripe_log := [];
     clock := 1000 |}.

(** One job, "job-1", whose record is in state [st]; the clock is three
    hours past the creation of the record. *)
Definition world_with (st : Status) : World :=
  {| paymentsStore := {[ "job-1" := record_in st ]};
     payments_json := None;
     fs_readable := true;
     fs_writable := true;
     stripe_log := [];
     clock := (1000 + 3 * 60 * 60 * 1000)%Z |}.

(** Two jobs: job-1 captured, and job-2 whose failure arrived before its
    authorization. *)
Definition two_jobs : World :=
  {| paymentsStore :=
       {[ "job-1" := record_in captured;
          "job-2" := {| paymentIntentId := None;
                        sessionId := None;
                        status := render_failed;
                        createdAt := 1500;
                        updatedAt := None |} ]};
     payments_json := None;
     fs_readable := true;
     fs_writable := true;
     stripe_log := [("job-1", capture "pi_1")];
     clock := 3000 |}.

(** A startup that finds [data] in payments.json. *)
Definition startup (data : string) : World :=
  {| paymentsStore := ∅;
     payments_json := Some data;
     fs_readable := true;
     fs_writable := true;
     stripe_log := [];
     clock := 1000 |}.

(** [s] between double quotes. *)
Definition quoted (s : string) : string :=
  String double_quote (s +:+ String double_quote EmptyString).

(** ** Manual job completion endpoint *)

(** The answer of POST /jobs/:jobId/complete: status 400 with an error
    text, or status 200 with the jobId and [paymentStatus], where [None]
    is the string "unknown" that the handler sends when it finds no
    record. *)
Inductive CompletionResponse :=
| bad_request (error : string)
| completion_reported (jobId : string) (paymentStatus : option Status).

Section Routes.
Context `{Platform}.

(** [jobId] is [req.params.jobId]; [body_status] is [req.body.status]
    when it is a string ([None] when the body has none). *)
Definition jobs_complete (jobId : string) (body_status : option string)
  : JS CompletionResponse :=
  if negb (nonempty jobId) then mret (bad_request "Missing jobId")
  else if bool_decide (body_status ≠ Some "success" ∧
                       body_status ≠ Some "failed")
  then mret (bad_request "Status must be 'success' or 'failed'")
  else
    handleJobCompletion jobId (bool_decide (body_status = Some "success"));;
    record ← getPayment jobId;
    mret (completion_reported jobId (status <$> record)).

End Routes.

(** ** What the engine keeps of the ledger and of the file *)

(** payments.json holds the text of the ledger in memory. *)
Definition in_sync `{Platform} (w : World) : Prop :=
  payments_json w = Some (JSON_stringify (paymentsStore w)).

(** From [w] to [w'] the ledger and the file are both untouched, or the
    file has been rewritten from the ledger. *)
Definition flushed `{Platform} (w w' : World) : Prop :=
  (paymentsStore w' = paymentsStore w ∧ payments_json w' = payments_json w) ∨
  in_sync w'.

(** Every record of [w] is still there in [w'], created at the same
    time, and with the same reference if it had one. *)
Definition kept (w w' : World) : Prop :=
  ∀ jobId record,
    paymentsStore w !! jobId = Some record →
    ∃ record',
      paymentsStore w' !! jobId = Some record' ∧
      createdAt record' = createdAt record ∧
      (is_Some (paymentIntentId record) →
       paymentIntentId record' = paymentIntentId record ∧
       sessionId record' = sessionId record).

(** A record waiting for its authorization has no reference yet. *)
Definition placeholder_ok (record : PaymentRecord) : Prop :=
  status record = render_succeeded ∨ status record = render_failed →
  paymentIntentId record = None.

#[global] Instance placeholder_ok_dec record : Decision (placeholder_ok record).
Proof. unfold placeholder_ok. apply _. Defined.

Definition ledger_settled (s : gmap string PaymentRecord) : Prop :=
  map_Forall (λ _, placeholder_ok) s.

(** The age test of the sweep. *)
Definition stale (now : Z) (record : PaymentRecord) : Prop :=
  status record = authorized ∧
  (now - createdAt record > AUTHORIZATION_TIMEOUT_MS)%Z.

#[global] Instance stale_dec now record : Decision (stale now record).
Proof. unfold stale. apply _. Defined.

(** ** Prompt text

    The prompt helpers work on JavaScript strings.  A string is the list
    of its characters, here 8-bit; the model is exact on ASCII text
    ([plain]), where the white space of [\s] and [trim], the lower case
    of [toLowerCase] and the line terminators that [.] refuses are the
    ASCII ones. *)

Definition plain (s : list ascii) : Prop :=
  Forall (λ c, nat_of_ascii c < 128) s.

Definition is_space (c : ascii) : bool := Ascii.is_space c.

Definition is_digit (c : ascii) : bool :=
  let n := nat_of_ascii c in (48 <=? n) && (n <=? 57).

(** The characters of [\w], between which and the others [\b] holds. *)
Definition is_word (c : ascii) : bool :=
  let n := nat_of_ascii c in
  ((97 <=? n) && (n <=? 122)) || ((65 <=? n) && (n <=? 90)) ||
  is_digit c || (n =? 95).

Definition lower (c : ascii) : ascii :=
  let n := nat_of_ascii c in
  if (65 <=? n) && (n <=? 90) then ascii_of_nat (n + 32) else c.

Definition toLowerCase (s : list ascii) : list ascii := lower <$> s.

Fixpoint skip_while (p : ascii → bool) (s : list ascii) : list ascii :=
  match s with
  | [] => []
  | c :: rest => if p c then skip_while p rest else s
  end.

Fixpoint take_while (p : ascii → bool) (s : list ascii) : list ascii :=
  match s with
  | [] => []
  | c :: rest => if p c then c :: take_while p rest else []
  end.

Definition trimStart (s : list ascii) : list ascii := skip_while is_space s.

Definition trim (s : list ascii) : list ascii :=
  reverse (skip_while is_space (reverse (skip_while is_space s))).

Fixpoint starts_with (pat s : list ascii) : bool :=
  match pat, s with
  | [], _ => true
  | p :: pat', c :: s' => bool_decide (p = c) && starts_with pat' s'
  | _ :: _, [] => false
  end.

(** [hay.includes(needle)] *)
Fixpoint includes (needle hay : list ascii) : bool :=
  starts_with needle hay ||
  match hay with
  | [] => false
  | _ :: rest => includes needle rest
  end.

(** What is left of [s] after a prefix that matches the literal [pat]
    under the flag [i]. *)
Fixpoint after_prefix_ci (pat s : list ascii) : option (list ascii) :=
  match pat, s with
  | [], _ => Some s
  | p :: pat', c :: s' =>
      if bool_decide (lower p = lower c) then after_prefix_ci pat' s' else None
  | _ :: _, [] => None
  end.

(** [\b] between two neighbours, each absent at an end of the string. *)
Definition word_boundary (before after : option ascii) : bool :=
  xorb (from_option is_word false before) (from_option is_word false after).

(** [s.replace(/\bPAT\b/gi, rep)] for a literal [pat]: the string is
    scanned from the left; where [pat] matches between two word
    boundaries, [rep] is written and the scan resumes after the match
    ([skip] counts the matched characters still to pass). *)
Fixpoint replace_words_go (pat rep : list ascii) (before : option ascii)
    (skip : nat) (s : list ascii) : list ascii :=
  match s with
  | [] => []
  | c :: rest =>
      match skip with
      | S k => replace_words_go pat rep (Some c) k rest
      | 0 =>
          if word_boundary before (Some c) &&
             match after_prefix_ci pat s with
             | Some after => word_boundary (last pat) (head after)
             | None => false
             end
          then rep ++ replace_words_go pat rep (Some c) (length pat - 1) rest
          else c :: replace_words_go pat rep (Some c) 0 rest
      end
  end.

Definition replace_words (pat rep : string) (s : list ascii) : list ascii :=
  replace_words_go (text pat) (text rep) None 0 s.

(** The replace of every run of white space by one space; [in_run]
    says that the character before was white space. *)
Fixpoint collapse_go (in_run : bool) (s : list ascii) : list ascii :=
  match s with
  | [] => []
  | c :: rest =>
      if is_space c
      then (if in_run then collapse_go true rest
            else " "%char :: collapse_go true rest)
      else c :: collapse_go false rest
  end.

Definition collapse_spaces (s : list ascii) : list ascii := collapse_go false s.

(** *** Cleaning a line of Gemini output *)

(** The replace that drops a leading bullet: white space, then either
    digits, one of [)], [.], [-], [:] and white space, or one of [-],
    [*] and white space. *)
Definition strip_bullet (s : list ascii) : list ascii :=
  match skip_while is_space s with
  | [] => s
  | c :: rest =>
      if is_digit c then
        match skip_while is_digit rest with
        | p :: after =>
            if bool_decide (p ∈ text ").-:") then skip_while is_space after
            else s
        | [] => s
        end
      else if bool_decide (c ∈ text "-*") then skip_while is_space rest
      else s
  end.

(** After a word character, [\b] holds when no word character follows. *)
Definition word_ends (rest : list ascii) : bool :=
  negb (from_option is_word false (head rest)).

(** [/^here (are|is)\b/i.test(s)] *)
Definition is_here_preface (s : list ascii) : bool :=
  from_option word_ends false (after_prefix_ci (text "here are") s) ||
  from_option word_ends false (after_prefix_ci (text "here is") s).

(** [/^suggestion\s*\d+/i.test(s)] *)
Definition is_suggestion_label (s : list ascii) : bool :=
  match after_prefix_ci (text "suggestion") s with
  | Some rest => from_option is_digit false (head (skip_while is_space rest))
  | None => false
  end.

Definition is_line_terminator (c : ascii) : bool :=
  let n := nat_of_ascii c in (n =? 10) || (n =? 13).

(** The replace that drops surrounding quotes: a string between two
    double quotes, with no line terminator between them, loses both. *)
Definition unquote (s : list ascii) : list ascii :=
  match s with
  | q :: rest =>
      match reverse rest with
      | q' :: inner =>
          if bool_decide (nat_of_ascii q = 34) &&
             bool_decide (nat_of_ascii q' = 34) &&
             forallb (λ c, negb (is_line_terminator c)) inner
          then reverse inner
          else s
      | [] => s
      end
  | [] => s
  end.

(** The seven replacements that avoid the word subject, in the order
    of the source. *)
Definition avoid_subject (s : list ascii) : list ascii :=
  replace_words "subject" "person"
    (replace_words "subjects" "people"
       (replace_words "the subject" "the person"
          (replace_words "subject's" "person's"
             (replace_words "the subjects" "the people"
                (replace_words "subjects'" "people's"
                   (replace_words "the subjects'" "the people's" s)))))).

Definition is_stop (c : ascii) : bool := bool_decide (c ∈ text ".?!").

(** [s.match(/[^.?!]+[.?!]?/)]: the first run of characters other
    than [.], [?] and [!], with the one that ends it. *)
Definition first_sentence (s : list ascii) : option (list ascii) :=
  match skip_while is_stop s with
  | [] => None
  | from =>
      Some (take_while (λ c, negb (is_stop c)) from ++
            match skip_while (λ c, negb (is_stop c)) from with
            | stop :: _ => [stop]
            | [] => []
            end)
  end.

Definition speechWords : list (list ascii) :=
  text <$> ["say"; "says"; "said";
            "talk"; "talks"; "talking";
            "speak"; "speaks"; "speaking";
            "whisper"; "whispers"; "whispering";
            "sing"; "sings"; "singing";
            "mouths the words"; "lip sync"].

(** [/[.!?]$/.test(s)] *)
Definition ends_with_stop (s : list ascii) : bool :=
  from_option is_stop false (last s).

Definition cleanSuggestionLine (line : list ascii) : list ascii :=
  if bool_decide (line = []) then []
  else
    let cleaned := trim (strip_bullet line) in
    if is_here_preface cleaned then []
    else if is_suggestion_label cleaned then []
    else
      let cleaned := trim (unquote cleaned) in
      if bool_decide (cleaned = []) then []
      else
        let cleaned := avoid_subject cleaned in
        let cleaned := match first_sentence cleaned with
                       | Some sentence => trim sentence
                       | None => cleaned
                       end in
        if existsb (λ w, includes w (toLowerCase cleaned)) speechWords then []
        else if ends_with_stop cleaned then cleaned
        else cleaned ++ text ".".

(** *** The suggestions endpoint *)

(** [rawText.split] at every line feed. *)
Fixpoint split_lines (s : list ascii) : list (list ascii) :=
  match s with
  | [] => [[]]
  | c :: rest =>
      if bool_decide (nat_of_ascii c = 10) then [] :: split_lines rest
      else match split_lines rest with
           | l :: ls => (c :: l) :: ls
           | [] => [[c]]
           end
  end.

Definition fallbackSuggestions : list (list ascii) :=
  text <$>
    ["The person in the photo gives a slow, full blink and a small, natural head tilt.";
     "Their expression softens as they make a clearly visible but gentle eye movement.";
     "The person performs a noticeable blink and a relaxed, subtle posture adjustment."].

(** What the call to Gemini comes to: the request throws, the answer is
    not ok, or the answer carries the text of its first text part
    ([None] when it has none). *)
Inductive GeminiReply :=
| gemini_throws
| gemini_not_ok
| gemini_answers (first_text : option (list ascii)).

(** The handler of POST /suggest-prompts: the suggestions sent, and
    whether the answer carries the [error] member. *)
Definition suggest_prompts (imageBase64 : list ascii) (api_key : option string)
    (reply : GeminiReply) : list (list ascii) * bool :=
  if bool_decide (imageBase64 = []) then (fallbackSuggestions, false)
  else if negb (truthy api_key) then (fallbackSuggestions, false)
  else
    match reply with
    | gemini_throws => (fallbackSuggestions, true)
    | gemini_not_ok => (fallbackSuggestions, false)
    | gemini_answers first_text =>
        let rawText := from_option trim [] first_text in
        let suggestions :=
          take 3 (filter (λ line, line ≠ [])
                         (cleanSuggestionLine <$> split_lines rawText)) in
        if bool_decide (suggestions = []) then (fallbackSuggestions, false)
        else (suggestions, false)
    end.

(** *** Motion in every prompt *)

Definition hasStrongVerb (prompt : list ascii) : bool :=
  existsb (λ verb, includes (text verb) (toLowerCase prompt))
    ["blink"; "blinks"; "blinked"; "eyes"; "tilt"; "nod"; "smile"; "grin";
     "turn"; "head"].

(** The replace that drops the dots at the end. *)
Definition strip_trailing_dots (s : list ascii) : list ascii :=
  reverse (skip_while (λ c, bool_decide (c = "."%char)) (reverse s)).

Definition ensureVisibleMotion (prompt : list ascii) : list ascii :=
  if hasStrongVerb prompt then prompt
  else strip_trailing_dots (trim prompt) ++
       text ". They blink clearly twice and make a tiny, natural head tilt before returning to a still pose.".

(** *** The prompt sent to Kling *)

(** One alternative of the speech pattern: the length of its match at
    the start of [s], if it matches there. *)
Definition literal_match (word : string) (s : list ascii) : option nat :=
  match after_prefix_ci (text word) s with
  | Some _ => Some (length (text word))
  | None => None
  end.

(** [lip\s*sync] *)
Definition lip_sync_match (s : list ascii) : option nat :=
  match after_prefix_ci (text "lip") s with
  | Some rest =>
      let spaces := take_while is_space rest in
      match after_prefix_ci (text "sync") (skip_while is_space rest) with
      | Some _ => Some (3 + length spaces + 4)
      | None => None
      end
  | None => None
  end.

Definition speech_alternatives : list (list ascii → option nat) :=
  (literal_match <$> ["talk"; "talking"; "speak"; "speaking"; "say"; "saying";
                      "whisper"; "whispering"; "sing"; "singing"; "lyrics";
                      "dialogue"; "conversation"]) ++
  [lip_sync_match] ++
  (literal_match <$> ["lipsync"; "dub"; "voice"; "words"; "mouthing"]).

(** The first alternative that matches at the start of [s] and is
    followed by a word boundary. *)
Definition speech_match (s : list ascii) : option nat :=
  list_find is_Some
    ((λ alternative,
        n ← alternative s;
        if word_ends (drop n s) then Some n else None) <$> speech_alternatives)
  ≫= snd.

(** The replace that deletes every match of the speech pattern between
    two word boundaries, scanning from the left. *)
Fixpoint remove_speech_go (before : option ascii) (skip : nat)
    (s : list ascii) : list ascii :=
  match s with
  | [] => []
  | c :: rest =>
      match skip with
      | S k => remove_speech_go (Some c) k rest
      | 0 =>
          match (if word_boundary before (Some c) then speech_match s
                 else None) with
          | Some (S k) => remove_speech_go (Some c) k rest
          | _ => c :: remove_speech_go (Some c) 0 rest
          end
      end
  end.

Definition remove_speech (s : list ascii) : list ascii :=
  remove_speech_go None 0 s.

Definition forcedMotion : list ascii :=
  text "Visible but natural motion includes two full blinks, gentle breathing, and a tiny head tilt.".

Definition hardRules : list ascii :=
  text "No talking, no forming words, no lip-sync, and no sound. The mouth may move naturally but must not articulate speech. No camera movement. Do not change clothing, lighting, background, or identity.".

(** [prompt] is the string the caller passes; the empty string stands
    for every falsy value. *)
Definition enforceVisibleMotionNoSpeech (prompt : list ascii) : list ascii :=
  let p0 := trim prompt in
  let cleaned := trim (collapse_spaces (remove_speech p0)) in
  let base := if bool_decide (cleaned = [])
              then text "Subtle natural movement only." else cleaned in
  trim (collapse_spaces
          (base ++ (if bool_decide (last base = Some "."%char) then []
                    else text ".") ++
           text " " ++ forcedMotion ++ text " " ++ hardRules)).

(** What a cleaned suggestion looks like: it ends with [.], [?] or
    [!], and before that end there is either no such character or
    nothing else. *)
Definition one_sentence (s : list ascii) : Prop :=
  ∃ body stop, s = body ++ [stop] ∧ is_stop stop = true ∧
    (Forall (λ c, is_stop c = false) body ∨ Forall (λ c, is_stop c = true) body).

Definition speech_free (s : list ascii) : Prop :=
  Forall (λ w, includes w (toLowerCase s) = false) speechWords.

Definition plain_reply (reply : GeminiReply) : Prop :=
  match reply with
  | gemini_answers (Some first_text) => plain first_text
  | _ => True
  end.

(** ** The outputs folder

    [cleanupOldOutputs] sees the folder through [fs]: whether it exists
    and can be created or listed, and for every name in it what
    [statSync] answers and whether [unlinkSync] succeeds.  A call of
    [fs] that throws is [None]. *)

Record Stats := {
  isFile : bool;
  mtimeMs : Qc;
}.

Record DirEntry := {
  stats : option Stats;
  unlink_ok : bool;
}.

Record Folder := {
  listing : option (gmap string DirEntry);
  mkdir_ok : bool;
  readdir_ok : bool;
}.

Definition ONE_WEEK_MS : Z := 7 * 24 * 60 * 60 * 1000.

Definition fs_readdirSync (folder : Folder) : option (list string) :=
  files ← listing folder;
  if readdir_ok folder then Some (map_to_list files).*1 else None.

Definition fs_statSync (files : gmap string DirEntry) (file : string)
  : option Stats :=
  files !! file ≫= stats.

Definition fs_unlinkSync (files : gmap string DirEntry) (file : string)
  : option (gmap string DirEntry) :=
  entry ← files !! file;
  if unlink_ok entry then Some (delete file files) else None.

(** One turn of the loop over the names. *)
Definition cleanup_file (now : Z) (files : gmap string DirEntry)
    (file : string) : gmap string DirEntry :=
  match fs_statSync files file with
  | None => files
  | Some stats =>
      if negb (isFile stats) then files
      else
        let age := (Qc_of_Z now - mtimeMs stats)%Qc in
        if bool_decide (Qc_of_Z ONE_WEEK_MS < age)%Qc
        then default files (fs_unlinkSync files file)
        else files
  end.

Definition cleanupOldOutputs (now : Z) (folder : Folder) : Folder :=
  match listing folder with
  | None =>
      if mkdir_ok folder
      then {| listing := Some ∅; mkdir_ok := mkdir_ok folder;
              readdir_ok := readdir_ok folder |}
      else folder
  | Some files =>
      match fs_readdirSync folder with
      | Some names =>
          {| listing := Some (foldl (cleanup_file now) files names);
             mkdir_ok := mkdir_ok folder; readdir_ok := readdir_ok folder |}
      | None => folder
      end
  end.

(** An entry that a cleanup at [now] takes away: a regular file, last
    modified more than a week before, that [fs] lets go. *)
Definition expired (now : Z) (entry : DirEntry) : Prop :=
  match stats entry with
  | Some st =>
      isFile st = true ∧
      (Qc_of_Z ONE_WEEK_MS < Qc_of_Z now - mtimeMs st)%Qc ∧
      unlink_ok entry = true
  | None => False
  end.

#[global] Instance expired_dec now entry : Decision (expired now entry).
Proof. unfold expired. destruct (stats entry); apply _. Defined.

(** A folder with a file of two weeks, a file of an hour and a
    directory of two weeks, seen at [example_now]. *)
Definition example_now : Z := 3 * ONE_WEEK_MS.

Definition example_files : gmap string DirEntry :=
  {[ "old.mp4" := {| stats := Some {| isFile := true;
                                      mtimeMs := Qc_of_Z ONE_WEEK_MS |};
                     unlink_ok := true |};
     "new.mp4" := {| stats := Some {| isFile := true;
                                      mtimeMs := Qc_of_Z (example_now - 3600000) |};
                     unlink_ok := true |};
     "frames" := {| stats := Some {| isFile := false;
                                     mtimeMs := Qc_of_Z ONE_WEEK_MS |};
                    unlink_ok := false |} ]}.

Definition example_folder : Folder :=
  {| listing := Some example_files; mkdir_ok := true; readdir_ok := true |}.

(** * Properties *)

Ltac js_unfold :=
  unfold run, mbind, JS_bind, mret, JS_ret, try_catch, throw, get_store,
    set_store, Date_now, fs_existsSync, fs_readFileSync, fs_writeFileSync in *.

(** Decisions on closed propositions, computed. *)
Ltac eval_decide :=
  repeat match goal with
    | |- context [@bool_decide ?P ?d] =>
        let b := eval vm_compute in (@bool_decide P d) in
        match b with
        | true => change (@bool_decide P d) with true
        | false => change (@bool_decide P d) with false
        end
    end.

Lemma bind_eq {A B} (m : JS A) (k : A → JS B) w :
  (m ≫= k) w = match m w with
               | (Normal a, w') => k a w'
               | (Throw e, w') => (Throw e, w')
               | (Foreign data, w') => (Foreign data, w')
               end.
Proof. reflexivity. Qed.

Lemma bind_normal {A B} (m : JS A) (k : A → JS B) w a w' :
  m w = (Normal a, w') → (m ≫= k) w = k a w'.
Proof. intros Hm. rewrite bind_eq, Hm. reflexivity. Qed.

(** ** The storage functions, one equation each *)

Section Storage.
Context `{Platform}.

Lemma getPayment_eq jobId w :
  getPayment jobId w = (Normal (paymentsStore w !! jobId), w).
Proof. reflexivity. Qed.

Lemma savePayments_eq w : savePayments w = (Normal tt, saved w).
Proof.
  unfold saved, savePayments. js_unfold. cbn.
  destruct (fs_writable w); reflexivity.
Qed.

Lemma saved_eq w :
  saved w = if fs_writable w
            then with_file (JSON_stringify (paymentsStore w)) w
            else w.
Proof.
  unfold saved, savePayments. js_unfold. cbn.
  destruct (fs_writable w); reflexivity.
Qed.

Lemma saved_store w : paymentsStore (saved w) = paymentsStore w.
Proof. rewrite saved_eq. destruct (fs_writable w); reflexivity. Qed.

Lemma saved_log w : stripe_log (saved w) = stripe_log w.
Proof. rewrite saved_eq. destruct (fs_writable w); reflexivity. Qed.

Lemma markJobStatus_eq jobId st w :
  markJobStatus jobId st w =
    if nonempty jobId then
      match paymentsStore w !! jobId with
      | Some record =>
          (Normal (Some (touched record st (clock w))),
           saved (with_store
                    (<[jobId := touched record st (clock w)]> (paymentsStore w)) w))
      | None => (Normal None, w)
      end
    else (Normal None, w).
Proof.
  unfold markJobStatus. destruct (nonempty jobId); cbn; [|reflexivity].
  unfold mbind at 1. unfold JS_bind, get_store.
  destruct (paymentsStore w !! jobId) as [record|]; [|reflexivity].
  js_unfold. cbn. rewrite savePayments_eq. reflexivity.
Qed.

Lemma recordPayment_eq jobId pi sess w :
  recordPayment jobId pi sess w =
    if nonempty jobId then
      match paymentsStore w !! jobId with
      | Some existing => (Normal (Some existing), w)
      | None =>
          let record := {| paymentIntentId := pi; sessionId := sess;
                           status := authorized; createdAt := clock w;
                           updatedAt := None |} in
          (Normal (Some record),
           saved (with_store (<[jobId := record]> (paymentsStore w)) w))
      end
    else (Normal None, w).
Proof.
  unfold recordPayment. destruct (nonempty jobId); cbn; [|reflexivity].
  unfold mbind at 1. unfold JS_bind, get_store.
  destruct (paymentsStore w !! jobId) as [record|]; [reflexivity|].
  js_unfold. cbn. rewrite savePayments_eq. reflexivity.
Qed.

Lemma recordJobCompletion_eq jobId st w :
  recordJobCompletion jobId st w =
    match paymentsStore w !! jobId with
    | Some _ => markJobStatus jobId st w
    | None =>
        let placeholder := {| paymentIntentId := None; sessionId := None;
                              status := st; createdAt := clock w;
                              updatedAt := None |} in
        (Normal (Some placeholder),
         saved (with_store (<[jobId := placeholder]> (paymentsStore w)) w))
    end.
Proof.
  unfold recordJobCompletion.
  unfold mbind at 1. unfold JS_bind, get_store.
  destruct (paymentsStore w !! jobId) as [record|]; [reflexivity|].
  js_unfold. cbn. rewrite savePayments_eq. reflexivity.
Qed.

End Storage.

(** ** Capture and cancel, one equation each *)

Section Settlement.
Context `{Platform}.

Lemma markJobStatus_normal jobId st w :
  ∃ r, markJobStatus jobId st w = (Normal r, run (markJobStatus jobId st) w).
Proof.
  unfold run. rewrite markJobStatus_eq.
  destruct (nonempty jobId); [|eauto].
  destruct (paymentsStore w !! jobId); eauto.
Qed.

Lemma marked_store jobId st w :
  paymentsStore (run (markJobStatus jobId st) w) =
    if nonempty jobId then
      match paymentsStore w !! jobId with
      | Some record => <[jobId := touched record st (clock w)]> (paymentsStore w)
      | None => paymentsStore w
      end
    else paymentsStore w.
Proof.
  unfold run. rewrite markJobStatus_eq.
  destruct (nonempty jobId); [|reflexivity].
  destruct (paymentsStore w !! jobId); [|reflexivity].
  cbn. rewrite saved_store. reflexivity.
Qed.

Lemma marked_log jobId st w :
  stripe_log (run (markJobStatus jobId st) w) = stripe_log w.
Proof.
  unfold run. rewrite markJobStatus_eq.
  destruct (nonempty jobId); [|reflexivity].
  destruct (paymentsStore w !! jobId); [|reflexivity].
  cbn. rewrite saved_log. reflexivity.
Qed.

Lemma capturePayment_eq jobId w :
  capturePayment jobId w =
    match paymentsStore w !! jobId with
    | None => (Normal false, w)
    | Some record =>
        match paymentIntentId record with
        | None => (Normal false, w)
        | Some pi =>
            if negb (nonempty pi) then (Normal false, w)
            else if bool_decide (status record = captured) then (Normal true, w)
            else if bool_decide (status record ≠ authorized ∧
                                 status record ≠ render_succeeded)
            then (Normal false, w)
            else if stripe_accepts (snd <$> stripe_log w) (capture pi)
            then (Normal true,
                  run (markJobStatus jobId captured) (logged jobId (capture pi) w))
            else (Normal false,
                  run (markJobStatus jobId capture_failed)
                      (logged jobId (capture pi) w))
        end
    end.
Proof.
  unfold capturePayment. rewrite bind_eq, getPayment_eq.
  destruct (paymentsStore w !! jobId) as [record|]; [|reflexivity].
  destruct (paymentIntentId record) as [pi|]; [|reflexivity].
  destruct (negb (nonempty pi)); [reflexivity|].
  destruct (bool_decide (status record = captured)); [reflexivity|].
  destruct (bool_decide (_ ∧ _)); [reflexivity|].
  unfold try_catch, mbind, JS_bind, stripe_paymentIntents.
  destruct (stripe_accepts _ _).
  - destruct (markJobStatus_normal jobId captured (logged jobId (capture pi) w))
      as [r ->]. reflexivity.
  - destruct (markJobStatus_normal jobId capture_failed
                (logged jobId (capture pi) w)) as [r ->]. reflexivity.
Qed.

Lemma cancelPayment_eq jobId w :
  cancelPayment jobId w =
    match paymentsStore w !! jobId with
    | None => (Normal false, w)
    | Some record =>
        match paymentIntentId record with
        | None => (Normal false, w)
        | Some pi =>
            if negb (nonempty pi) then (Normal false, w)
            else if bool_decide (status record = canceled) then (Normal true, w)
            else if bool_decide (status record ≠ authorized ∧
                                 status record ≠ render_failed)
            then (Normal false, w)
            else if stripe_accepts (snd <$> stripe_log w) (cancel pi)
            then (Normal true,
                  run (markJobStatus jobId canceled) (logged jobId (cancel pi) w))
            else (Normal false,
                  run (markJobStatus jobId cancel_failed)
                      (logged jobId (cancel pi) w))
        end
    end.
Proof.
  unfold cancelPayment. rewrite bind_eq, getPayment_eq.
  destruct (paymentsStore w !! jobId) as [record|]; [|reflexivity].
  destruct (paymentIntentId record) as [pi|]; [|reflexivity].
  destruct (negb (nonempty pi)); [reflexivity|].
  destruct (bool_decide (status record = canceled)); [reflexivity|].
  destruct (bool_decide (_ ∧ _)); [reflexivity|].
  unfold try_catch, mbind, JS_bind, stripe_paymentIntents.
  destruct (stripe_accepts _ _).
  - destruct (markJobStatus_normal jobId canceled (logged jobId (cancel pi) w))
      as [r ->]. reflexivity.
  - destruct (markJobStatus_normal jobId cancel_failed
                (logged jobId (cancel pi) w)) as [r ->]. reflexivity.
Qed.

End Settlement.

(** ** The two entry points, one equation each *)

Section EntryPoints.
Context `{Platform}.

Lemma capturePayment_normal jobId w :
  ∃ b, capturePayment jobId w = (Normal b, run (capturePayment jobId) w).
Proof.
  unfold run. rewrite capturePayment_eq.
  repeat case_match; eauto.
Qed.

Lemma cancelPayment_normal jobId w :
  ∃ b, cancelPayment jobId w = (Normal b, run (cancelPayment jobId) w).
Proof.
  unfold run. rewrite cancelPayment_eq.
  repeat case_match; eauto.
Qed.

Lemma recordJobCompletion_normal jobId st w :
  ∃ r, recordJobCompletion jobId st w =
         (Normal r, run (recordJobCompletion jobId st) w).
Proof.
  unfold run. rewrite recordJobCompletion_eq.
  destruct (paymentsStore w !! jobId); [|eauto].
  destruct (markJobStatus_normal jobId st w) as [r ->]. eauto.
Qed.

Lemma recordPayment_normal jobId pi sess w :
  ∃ r, recordPayment jobId pi sess w =
         (Normal r, run (recordPayment jobId pi sess) w).
Proof.
  unfold run. rewrite recordPayment_eq. repeat case_match; eauto.
Qed.

Lemma getPendingJobStatus_eq jobId w :
  getPendingJobStatus jobId w =
    (Normal match paymentsStore w !! jobId with
            | Some record =>
                if bool_decide (status record = render_succeeded ∨
                                status record = render_failed)
                then Some (status record) else None
            | None => None
            end, w).
Proof.
  unfold getPendingJobStatus. rewrite bind_eq. unfold get_store.
  repeat case_match; reflexivity.
Qed.

Lemma handleJobCompletion_eq jobId success w :
  handleJobCompletion jobId success w =
    let renderStatus := if success then render_succeeded else render_failed in
    if truthy (paymentsStore w !! jobId ≫= paymentIntentId) then
      (Normal tt,
       run (if success then capturePayment jobId else cancelPayment jobId)
           (run (markJobStatus jobId renderStatus) w))
    else (Normal tt, run (recordJobCompletion jobId renderStatus) w).
Proof.
  unfold handleJobCompletion. rewrite bind_eq, getPayment_eq. cbn zeta.
  set (st := if success then render_succeeded else render_failed).
  destruct (truthy _); cbn [negb].
  - destruct (markJobStatus_normal jobId st w) as [r Hr].
    rewrite (bind_normal _ _ _ _ _ Hr).
    destruct success.
    + destruct (capturePayment_normal jobId (run (markJobStatus jobId st) w))
        as [b Hb].
      rewrite (bind_normal _ _ _ _ _ Hb). reflexivity.
    + destruct (cancelPayment_normal jobId (run (markJobStatus jobId st) w))
        as [b Hb].
      rewrite (bind_normal _ _ _ _ _ Hb). reflexivity.
  - destruct (recordJobCompletion_normal jobId st w) as [r Hr].
    rewrite (bind_normal _ _ _ _ _ Hr). reflexivity.
Qed.

(** The authorization notice: [checkout.session.completed] for a
    session that names a job and a PaymentIntent. *)
Lemma checkout_completed_eq session jobId pi w :
  metadata_jobId session = Some jobId →
  payment_intent session = Some pi →
  jobId ≠ "" → pi ≠ "" →
  stripe_webhook (Some (checkout_session_completed session)) w =
    (Normal 200,
     match paymentsStore w !! jobId with
     | None => run (recordPayment jobId (Some pi) (session_id session)) w
     | Some record =>
         let w1 := saved (with_store
                            (<[jobId := attached record (Some pi)
                                          (session_id session)]>
                               (paymentsStore w)) w) in
         match status record with
         | render_succeeded => run (capturePayment jobId) w1
         | render_failed => run (cancelPayment jobId) w1
         | _ => w
         end
     end).
Proof.
  intros Hj Hp Hjne Hpne. unfold stripe_webhook. rewrite Hj, Hp.
  unfold nonempty. rewrite !bool_decide_eq_true_2 by done. cbn [andb].
  rewrite bind_eq.
  assert (Hrec : ∀ w0 r, paymentsStore w0 !! jobId = Some r →
            recordPayment jobId (Some pi) (session_id session) w0
            = (Normal (Some r), w0)).
  { intros w0 r Hr. rewrite recordPayment_eq. unfold nonempty.
    rewrite bool_decide_eq_true_2 by done. rewrite Hr. reflexivity. }
  rewrite (bind_eq (getPendingJobStatus jobId)), getPendingJobStatus_eq.
  destruct (paymentsStore w !! jobId) as [record|] eqn:Hlook.
  - destruct (status record) eqn:Hst; eval_decide; cbn iota;
      try (rewrite bind_eq, (Hrec _ _ Hlook); reflexivity).
    + rewrite bind_eq. unfold get_store at 1. rewrite bind_eq. cbn.
      rewrite Hlook. unfold set_store. rewrite bind_eq, savePayments_eq.
      eval_decide. cbn iota.
      destruct (capturePayment_normal jobId
        (saved (with_store (<[jobId:=attached record (Some pi)
           (session_id session)]> (paymentsStore w)) w))) as [b Hb].
      rewrite bind_eq, Hb. reflexivity.
    + rewrite bind_eq. unfold get_store at 1. rewrite bind_eq. cbn.
      rewrite Hlook. unfold set_store. rewrite bind_eq, savePayments_eq.
      eval_decide. cbn iota.
      destruct (cancelPayment_normal jobId
        (saved (with_store (<[jobId:=attached record (Some pi)
           (session_id session)]> (paymentsStore w)) w))) as [b Hb].
      rewrite bind_eq, Hb. reflexivity.
  - cbn. rewrite bind_eq.
    destruct (recordPayment_normal jobId (Some pi) (session_id session) w)
      as [r Hr]. rewrite Hr. reflexivity.
Qed.

End EntryPoints.

(** ** No entry point throws *)

Section Totality.
Context `{Platform}.

Lemma checkout_completed_ignored session w :
  truthy (metadata_jobId session) && truthy (payment_intent session) = false →
  stripe_webhook (Some (checkout_session_completed session)) w = (Normal 200, w).
Proof.
  intros Hmiss. unfold stripe_webhook.
  destruct (metadata_jobId session) as [jobId|]; [|reflexivity].
  destruct (payment_intent session) as [pi|]; [|reflexivity].
  cbn in Hmiss. unfold nonempty. rewrite Hmiss. reflexivity.
Qed.

Lemma async_payment_failed_eq session w :
  stripe_webhook (Some (checkout_session_async_payment_failed session)) w =
    (Normal 200,
     match metadata_jobId session with
     | Some jobId => run (markJobStatus jobId payment_failed) w
     | None => w
     end).
Proof.
  unfold stripe_webhook.
  destruct (metadata_jobId session) as [jobId|]; [|reflexivity].
  destruct (nonempty jobId) eqn:Hne.
  - rewrite bind_eq.
    destruct (markJobStatus_normal jobId payment_failed w) as [r Hr].
    rewrite (bind_normal _ _ _ _ _ Hr). reflexivity.
  - unfold run. rewrite markJobStatus_eq, Hne. reflexivity.
Qed.


Lemma stripe_webhook_normal request w :
  request ≠ Some malformed_event →
  ∃ code, stripe_webhook request w =
            (Normal code, run (stripe_webhook request) w).
Proof.
  intros Hformed.
  destruct request as [[session|session|session| |]|];
    try (eexists; reflexivity); [| |done].
  - destruct (truthy (metadata_jobId session) && truthy (payment_intent session))
      eqn:Hboth.
    + apply andb_true_iff in Hboth as [Hj Hp].
      destruct (metadata_jobId session) as [jobId|] eqn:Ej; [|discriminate].
      destruct (payment_intent session) as [pi|] eqn:Ep; [|discriminate].
      cbn in Hj, Hp. apply bool_decide_eq_true_1 in Hj, Hp.
      unfold run. rewrite (checkout_completed_eq session jobId pi) by done.
      eauto.
    + unfold run. rewrite checkout_completed_ignored by done. eauto.
  - unfold run. rewrite async_payment_failed_eq. eauto.
Qed.

(** An authorization notice for a job whose record is not a
    placeholder changes nothing. *)
Lemma checkout_completed_settled session jobId record w :
  metadata_jobId session = Some jobId →
  paymentsStore w !! jobId = Some record →
  status record ≠ render_succeeded → status record ≠ render_failed →
  stripe_webhook (Some (checkout_session_completed session)) w = (Normal 200, w).
Proof.
  intros Hj Hlook Hrs Hrf.
  destruct (truthy (metadata_jobId session) && truthy (payment_intent session))
    eqn:Hboth.
  - apply andb_true_iff in Hboth as [Hjt Hpt]. rewrite Hj in Hjt.
    destruct (payment_intent session) as [pi|] eqn:Hp; [|discriminate].
    cbn in Hjt, Hpt. apply bool_decide_eq_true_1 in Hjt, Hpt.
    rewrite (checkout_completed_eq session jobId pi) by done.
    rewrite Hlook. destruct (status record); done.
  - apply checkout_completed_ignored. done.
Qed.

Lemma handleJobCompletion_normal jobId success w :
  handleJobCompletion jobId success w =
    (Normal tt, run (handleJobCompletion jobId success) w).
Proof.
  unfold run. rewrite handleJobCompletion_eq. cbn zeta.
  destruct (truthy _); reflexivity.
Qed.

Lemma deliver_normal n w : deliver n w = (Normal tt, run (deliver n) w).
Proof.
  destruct n as [jobId ref sess|jobId succeeded|jobId]; cbn [deliver].
  - unfold run. rewrite bind_eq.
    destruct (stripe_webhook_normal
      (Some (checkout_session_completed
               {| session_id := Some sess; metadata_jobId := Some jobId;
                  payment_intent := Some ref |})) w ltac:(discriminate))
      as [code ->].
    reflexivity.
  - apply handleJobCompletion_normal.
  - unfold run. rewrite bind_eq.
    destruct (stripe_webhook_normal
      (Some (checkout_session_async_payment_failed
               {| session_id := None; metadata_jobId := Some jobId;
                  payment_intent := None |})) w ltac:(discriminate))
      as [code ->].
    reflexivity.
Qed.

Lemma run_deliver_all_cons n ns w :
  run (deliver_all (n :: ns)) w = run (deliver_all ns) (run (deliver n) w).
Proof.
  unfold run at 1. cbn [deliver_all]. rewrite bind_eq, deliver_normal.
  reflexivity.
Qed.

Lemma run_deliver_all_nil w : run (deliver_all []) w = w.
Proof. reflexivity. Qed.


(** The world after an authorization notice, after an outcome notice. *)
Lemma run_notifyAuthorization jobId ref sess w :
  run (deliver (notifyAuthorization jobId ref sess)) w =
    run (stripe_webhook
           (Some (checkout_session_completed
                    {| session_id := Some sess; metadata_jobId := Some jobId;
                       payment_intent := Some ref |}))) w.
Proof.
  unfold run. cbn [deliver]. rewrite bind_eq.
  destruct (stripe_webhook_normal
      (Some (checkout_session_completed
               {| session_id := Some sess; metadata_jobId := Some jobId;
                  payment_intent := Some ref |})) w ltac:(discriminate))
      as [code ->].
  reflexivity.
Qed.

End Totality.

(** ** What a status update leaves behind *)

Section Marking.
Context `{Platform}.

Lemma status_of_marked jobId st record w :
  jobId ≠ "" →
  paymentsStore w !! jobId = Some record →
  status_of jobId (run (markJobStatus jobId st) w) = Some st.
Proof.
  intros Hne Hlook. unfold status_of. rewrite marked_store.
  unfold nonempty. rewrite bool_decide_eq_true_2 by done.
  rewrite Hlook, lookup_insert_eq. reflexivity.
Qed.

Lemma lookup_marked jobId st record w :
  jobId ≠ "" →
  paymentsStore w !! jobId = Some record →
  paymentsStore (run (markJobStatus jobId st) w) !! jobId =
    Some (touched record st (clock w)).
Proof.
  intros Hne Hlook. rewrite marked_store.
  unfold nonempty. rewrite bool_decide_eq_true_2 by done.
  rewrite Hlook, lookup_insert_eq. reflexivity.
Qed.

Lemma lookup_marked_other jobId other st w :
  other ≠ jobId →
  paymentsStore (run (markJobStatus jobId st) w) !! other =
    paymentsStore w !! other.
Proof.
  intros Hne. rewrite marked_store.
  destruct (nonempty jobId); [|reflexivity].
  destruct (paymentsStore w !! jobId); [|reflexivity].
  rewrite lookup_insert_ne by done. reflexivity.
Qed.

End Marking.

(** ** When a call is issued, and when it is not *)

Section Issued.
Context `{Platform}.

Lemma capture_issued jobId record pi w :
  paymentsStore w !! jobId = Some record →
  paymentIntentId record = Some pi → pi ≠ "" →
  status record = authorized ∨ status record = render_succeeded →
  run (capturePayment jobId) w =
    run (markJobStatus jobId
           (if stripe_accepts (snd <$> stripe_log w) (capture pi)
            then captured else capture_failed))
        (logged jobId (capture pi) w).
Proof.
  intros Hlook Hpi Hpne Hst. unfold run at 1.
  rewrite capturePayment_eq, Hlook, Hpi.
  unfold nonempty. rewrite (bool_decide_eq_true_2 _ Hpne). cbn [negb].
  rewrite bool_decide_eq_false_2 by (destruct Hst as [-> | ->]; done).
  rewrite bool_decide_eq_false_2 by (destruct Hst as [-> | ->]; intros []; done).
  destruct (stripe_accepts _ _); reflexivity.
Qed.

Lemma cancel_issued jobId record pi w :
  paymentsStore w !! jobId = Some record →
  paymentIntentId record = Some pi → pi ≠ "" →
  status record = authorized ∨ status record = render_failed →
  run (cancelPayment jobId) w =
    run (markJobStatus jobId
           (if stripe_accepts (snd <$> stripe_log w) (cancel pi)
            then canceled else cancel_failed))
        (logged jobId (cancel pi) w).
Proof.
  intros Hlook Hpi Hpne Hst. unfold run at 1.
  rewrite cancelPayment_eq, Hlook, Hpi.
  unfold nonempty. rewrite (bool_decide_eq_true_2 _ Hpne). cbn [negb].
  rewrite bool_decide_eq_false_2 by (destruct Hst as [-> | ->]; done).
  rewrite bool_decide_eq_false_2 by (destruct Hst as [-> | ->]; intros []; done).
  destruct (stripe_accepts _ _); reflexivity.
Qed.

Lemma capture_skipped jobId record w :
  paymentsStore w !! jobId = Some record →
  status record ≠ authorized → status record ≠ render_succeeded →
  run (capturePayment jobId) w = w.
Proof.
  intros Hlook Ha Hr. unfold run. rewrite capturePayment_eq, Hlook.
  destruct (paymentIntentId record); [|done].
  destruct (negb _); [done|].
  case_bool_decide; [done|].
  rewrite bool_decide_eq_true_2 by done. done.
Qed.

Lemma cancel_skipped jobId record w :
  paymentsStore w !! jobId = Some record →
  status record ≠ authorized → status record ≠ render_failed →
  run (cancelPayment jobId) w = w.
Proof.
  intros Hlook Ha Hr. unfold run. rewrite cancelPayment_eq, Hlook.
  destruct (paymentIntentId record); [|done].
  destruct (negb _); [done|].
  case_bool_decide; [done|].
  rewrite bool_decide_eq_true_2 by done. done.
Qed.

End Issued.

(** ** The sweep *)

Lemma calls_for_app jobId l1 l2 :
  calls_for jobId (l1 ++ l2) = calls_for jobId l1 ++ calls_for jobId l2.
Proof. unfold calls_for. rewrite filter_app, fmap_app. reflexivity. Qed.

Lemma calls_for_other jobId other c :
  other ≠ jobId → calls_for jobId [(other, c)] = [].
Proof.
  intros Hne. unfold calls_for. rewrite filter_cons_False; [reflexivity|].
  cbn. done.
Qed.

Lemma calls_for_same jobId c : calls_for jobId [(jobId, c)] = [c].
Proof. unfold calls_for. rewrite filter_cons_True; done. Qed.

Section Sweep.
Context `{Platform}.

Lemma cancelPayment_cases jobId w :
  run (cancelPayment jobId) w = w ∨
  ∃ pi st, run (cancelPayment jobId) w =
             run (markJobStatus jobId st) (logged jobId (cancel pi) w).
Proof.
  unfold run at 1 2. rewrite cancelPayment_eq.
  repeat case_match; eauto.
Qed.

(** A cancel for one job leaves every other job alone. *)
Lemma cancelPayment_other jobId other w :
  other ≠ jobId →
  paymentsStore (run (cancelPayment jobId) w) !! other =
    paymentsStore w !! other ∧
  calls_for other (stripe_log (run (cancelPayment jobId) w)) =
    calls_for other (stripe_log w).
Proof.
  intros Hne.
  destruct (cancelPayment_cases jobId w) as [-> | (pi & st & ->)]; [done|].
  rewrite lookup_marked_other by done. rewrite marked_log.
  cbn [paymentsStore stripe_log logged].
  rewrite calls_for_app, calls_for_other by done.
  rewrite app_nil_r. done.
Qed.

Lemma visited_other now jobId other w :
  other ≠ jobId →
  paymentsStore (visited now jobId w) !! other = paymentsStore w !! other ∧
  calls_for other (stripe_log (visited now jobId w)) =
    calls_for other (stripe_log w).
Proof.
  intros Hne. unfold visited.
  destruct (paymentsStore w !! jobId); [|done].
  case_bool_decide; [|done].
  apply cancelPayment_other. done.
Qed.

Lemma visited_not_authorized now jobId record w :
  paymentsStore w !! jobId = Some record →
  status record ≠ authorized →
  visited now jobId w = w.
Proof.
  intros Hlook Hst. unfold visited. rewrite Hlook.
  rewrite bool_decide_eq_false_2; [done|]. intros [? _]. done.
Qed.

(** The loop of the sweep visits the entries one after another. *)
Lemma cleanup_loop_eq now (entries : list (string * PaymentRecord))
    cleanedCount w :
  ∃ n, cleanup_loop now entries cleanedCount w =
         (Normal n, foldl (λ w0 entry, visited now entry.1 w0) w entries).
Proof.
  revert cleanedCount w.
  induction entries as [|[jobId snapshot] rest IH]; intros cleanedCount w.
  { eexists. reflexivity. }
  cbn [cleanup_loop foldl fst]. rewrite bind_eq. unfold get_store at 1.
  unfold visited at 2.
  destruct (paymentsStore w !! jobId) as [record|]; [|apply IH].
  case_bool_decide as Hst.
  { rewrite bool_decide_eq_false_2 by (intros [? _]; done). apply IH. }
  case_bool_decide as Hage.
  - rewrite bool_decide_eq_true_2 by (split; [destruct (status record)|]; done).
    rewrite bind_eq. unfold try_catch. rewrite bind_eq.
    destruct (cancelPayment_normal jobId w) as [b ->]. apply IH.
  - rewrite bool_decide_eq_false_2 by (intros [_ ?]; done). apply IH.
Qed.

Lemma cleanupStuckAuthorizations_eq w :
  cleanupStuckAuthorizations w =
    (Normal tt,
     foldl (λ w0 entry, visited (clock w) entry.1 w0) w
           (map_to_list (paymentsStore w))).
Proof.
  unfold cleanupStuckAuthorizations.
  rewrite bind_eq. unfold Date_now at 1. rewrite bind_eq. unfold get_store at 1.
  rewrite bind_eq.
  destruct (cleanup_loop_eq (clock w) (map_to_list (paymentsStore w)) 0 w)
    as [n ->].
  reflexivity.
Qed.

(** Entries of other jobs, and every entry of a job that is not
    [authorized], leave the job as it is. *)
Lemma visits_leave_alone now jobId (entries : list (string * PaymentRecord)) w :
  (jobId ∉ entries.*1 ∨
   ∃ record, paymentsStore w !! jobId = Some record ∧
             status record ≠ authorized) →
  let w' := foldl (λ w0 entry, visited now entry.1 w0) w entries in
  paymentsStore w' !! jobId = paymentsStore w !! jobId ∧
  calls_for jobId (stripe_log w') = calls_for jobId (stripe_log w).
Proof.
  cbn zeta. revert w.
  induction entries as [|[other snapshot] rest IH]; intros w Hcase; [done|].
  cbn [foldl fst].
  destruct (decide (other = jobId)) as [->|Hne].
  - destruct Hcase as [Hnot|(record & Hlook & Hst)].
    { exfalso. apply Hnot. cbn. left. }
    rewrite (visited_not_authorized _ _ _ _ Hlook Hst).
    apply IH. right. eauto.
  - destruct (visited_other now other jobId w) as [Hstore Hcalls]; [done|].
    rewrite <- Hstore, <- Hcalls. apply IH.
    destruct Hcase as [Hnot|(record & Hlook & Hst)].
    + left. intros Hin. apply Hnot. cbn. right. done.
    + right. exists record. rewrite Hstore. done.
Qed.

End Sweep.

Section SweepLog.
Context `{Platform}.

Lemma visited_extends_log now jobId w :
  ∃ more, stripe_log (visited now jobId w) = stripe_log w ++ more.
Proof.
  unfold visited. destruct (paymentsStore w !! jobId).
  - case_bool_decide.
    + destruct (cancelPayment_cases jobId w) as [-> | (pi & st & ->)].
      * exists []. rewrite app_nil_r. reflexivity.
      * rewrite marked_log. eexists. reflexivity.
    + exists []. rewrite app_nil_r. reflexivity.
  - exists []. rewrite app_nil_r. reflexivity.
Qed.

Lemma visits_extend_log now (entries : list (string * PaymentRecord)) w :
  ∃ more, stripe_log (foldl (λ w0 entry, visited now entry.1 w0) w entries)
          = stripe_log w ++ more.
Proof.
  revert w. induction entries as [|[jobId snapshot] rest IH]; intros w.
  { exists []. rewrite app_nil_r. reflexivity. }
  cbn [foldl fst].
  destruct (IH (visited now jobId w)) as [more2 ->].
  destruct (visited_extends_log now jobId w) as [more1 ->].
  exists (more1 ++ more2). rewrite app_assoc. reflexivity.
Qed.

End SweepLog.

(** ** Loading and saving the ledger *)

Section Persistence.
Context `{Platform}.

Lemma loadPayments_eq w :
  loadPayments w =
    match payments_json w with
    | None => (Normal tt, w)
    | Some data =>
        if fs_readable w then
          match JSON_parse data with
          | parsed_ledger s => (Normal tt, with_store s w)
          | parsed_other => (Foreign data, w)
          | parse_throws => (Normal tt, with_store ∅ w)
          end
        else (Normal tt, with_store ∅ w)
    end.
Proof.
  unfold loadPayments, try_catch. rewrite bind_eq. unfold fs_existsSync.
  destruct (payments_json w) as [data|] eqn:Hfile.
  - rewrite bool_decide_eq_true_2 by eauto.
    rewrite bind_eq. unfold fs_readFileSync. rewrite Hfile.
    destruct (fs_readable w); [|reflexivity].
    destruct (JSON_parse data); reflexivity.
  - rewrite bool_decide_eq_false_2 by (intros [? [=]]). reflexivity.
Qed.


Lemma restart_eq w : restart w = loadPayments (with_store ∅ w).
Proof. reflexivity. Qed.

End Persistence.

(** ** The ledger invariant *)

Lemma ledger_ok_empty : ledger_ok ∅.
Proof. apply map_Forall_empty. Qed.

Lemma record_ok_touched jobId record st now :
  st ≠ authorized → record_ok jobId record →
  record_ok jobId (touched record st now).
Proof.
  unfold record_ok. cbn. destruct (paymentIntentId record); done.
Qed.

Section Invariant.
Context `{Platform}.

Lemma marked_ledger_ok jobId st w :
  st ≠ authorized →
  ledger_ok (paymentsStore w) →
  ledger_ok (paymentsStore (run (markJobStatus jobId st) w)).
Proof.
  intros Hst Hok. rewrite marked_store.
  destruct (nonempty jobId); [|done].
  destruct (paymentsStore w !! jobId) as [record|] eqn:Hlook; [|done].
  apply map_Forall_insert_2; [|done].
  apply record_ok_touched; [done|]. apply (Hok _ _ Hlook).
Qed.

Lemma capturePayment_ledger_ok jobId w :
  ledger_ok (paymentsStore w) →
  ledger_ok (paymentsStore (run (capturePayment jobId) w)).
Proof.
  intros Hok. unfold run. rewrite capturePayment_eq.
  repeat case_match; try done; cbn [snd]; by apply marked_ledger_ok.
Qed.

Lemma cancelPayment_ledger_ok jobId w :
  ledger_ok (paymentsStore w) →
  ledger_ok (paymentsStore (run (cancelPayment jobId) w)).
Proof.
  intros Hok. unfold run. rewrite cancelPayment_eq.
  repeat case_match; try done; cbn [snd]; by apply marked_ledger_ok.
Qed.

Lemma handleJobCompletion_ledger_ok jobId success w :
  ledger_ok (paymentsStore w) →
  ledger_ok (paymentsStore (run (handleJobCompletion jobId success) w)).
Proof.
  intros Hok. unfold run at 1. rewrite handleJobCompletion_eq. cbn zeta.
  assert (Hst : (if success then render_succeeded else render_failed)
                ≠ authorized) by (destruct success; done).
  destruct (truthy _); cbn [snd].
  - destruct success.
    + apply capturePayment_ledger_ok, marked_ledger_ok; done.
    + apply cancelPayment_ledger_ok, marked_ledger_ok; done.
  - unfold run. rewrite recordJobCompletion_eq.
    destruct (paymentsStore w !! jobId) eqn:Hlook.
    + apply marked_ledger_ok; done.
    + cbn [snd]. rewrite saved_store. cbn [paymentsStore with_store].
      apply map_Forall_insert_2; [|done]. exact Hst.
Qed.

Lemma stripe_webhook_ledger_ok request w :
  ledger_ok (paymentsStore w) →
  ledger_ok (paymentsStore (run (stripe_webhook request) w)).
Proof.
  intros Hok.
  destruct request as [[session|session|session| |]|]; try done.
  - destruct (truthy (metadata_jobId session) && truthy (payment_intent session))
      eqn:Hboth.
    + apply andb_true_iff in Hboth as [Hj Hp].
      destruct (metadata_jobId session) as [jobId|] eqn:Ej; [|discriminate].
      destruct (payment_intent session) as [pi|] eqn:Ep; [|discriminate].
      cbn in Hj, Hp. apply bool_decide_eq_true_1 in Hj, Hp.
      unfold run at 1.
      rewrite (checkout_completed_eq session jobId pi) by done. cbn [snd].
      assert (Hattached : ∀ record,
        ledger_ok (paymentsStore
          (saved (with_store
                    (<[jobId := attached record (Some pi) (session_id session)]>
                       (paymentsStore w)) w)))).
      { intros record. rewrite saved_store. cbn [paymentsStore with_store].
        apply map_Forall_insert_2; [|done]. split; done. }
      destruct (paymentsStore w !! jobId) as [record|] eqn:Hlook.
      * destruct (status record); try done.
        -- apply capturePayment_ledger_ok, Hattached.
        -- apply cancelPayment_ledger_ok, Hattached.
      * unfold run. rewrite recordPayment_eq, Hlook.
        unfold nonempty. rewrite (bool_decide_eq_true_2 _ Hj). cbn [snd].
        rewrite saved_store. cbn [paymentsStore with_store].
        apply map_Forall_insert_2; [|done]. split; done.
    + unfold run. rewrite checkout_completed_ignored by done. done.
  - unfold run at 1. rewrite async_payment_failed_eq. cbn [snd].
    destruct (metadata_jobId session); [|done].
    apply marked_ledger_ok; done.
Qed.

Lemma sweep_ledger_ok w :
  ledger_ok (paymentsStore w) →
  ledger_ok (paymentsStore (run cleanupStuckAuthorizations w)).
Proof.
  unfold run. rewrite cleanupStuckAuthorizations_eq. cbn [snd].
  generalize (clock w) as now. intros now.
  generalize (map_to_list (paymentsStore w)) as entries.
  intros entries. revert w.
  induction entries as [|[jobId snapshot] rest IH]; intros w Hok; [done|].
  cbn [foldl fst]. apply IH. unfold visited.
  destruct (paymentsStore w !! jobId); [|done].
  case_bool_decide; [|done].
  apply cancelPayment_ledger_ok. done.
Qed.

End Invariant.

(** ** The first delivery of the two notices *)

Section FirstDelivery.
Context `{Platform}.

(** The call that settles a job and the status it leaves, given the
    answer of Stripe. *)
Lemma settlement_issued (success : bool) jobId record pi w :
  paymentsStore w !! jobId = Some record →
  paymentIntentId record = Some pi → pi ≠ "" → jobId ≠ "" →
  status record = authorized ∨
  status record = (if success then render_succeeded else render_failed) →
  let call := if success then capture pi else cancel pi in
  let w' := run (if success then capturePayment jobId
                 else cancelPayment jobId) w in
  stripe_log w' = stripe_log w ++ [(jobId, call)] ∧
  status_of jobId w' =
    Some (if stripe_accepts (snd <$> stripe_log w) call
          then (if success then captured else canceled)
          else (if success then capture_failed else cancel_failed)).
Proof.
  intros Hlook Hpi Hpne Hjne Hst. cbn zeta. destruct success.
  - rewrite (capture_issued _ _ _ _ Hlook Hpi Hpne Hst). rewrite marked_log.
    split; [reflexivity|].
    rewrite (status_of_marked _ _ record) by done.
    destruct (stripe_accepts _ _); reflexivity.
  - rewrite (cancel_issued _ _ _ _ Hlook Hpi Hpne Hst). rewrite marked_log.
    split; [reflexivity|].
    rewrite (status_of_marked _ _ record) by done.
    destruct (stripe_accepts _ _); reflexivity.
Qed.

Lemma outcome_then_authorization (success : bool) jobId ref sess w :
  paymentsStore w !! jobId = None → jobId ≠ "" → ref ≠ "" →
  let call := if success then capture ref else cancel ref in
  let w' := run (deliver_all [notifyOutcome jobId success;
                              notifyAuthorization jobId ref sess]) w in
  stripe_log w' = stripe_log w ++ [(jobId, call)] ∧
  status_of jobId w' =
    Some (if stripe_accepts (snd <$> stripe_log w) call
          then (if success then captured else canceled)
          else (if success then capture_failed else cancel_failed)).
Proof.
  intros Hfresh Hj Hr. cbn zeta.
  rewrite !run_deliver_all_cons, run_deliver_all_nil, run_notifyAuthorization.
  change (deliver (notifyOutcome jobId success))
    with (handleJobCompletion jobId success).
  set (session := {| session_id := Some sess; metadata_jobId := Some jobId;
                     payment_intent := Some ref |}).
  set (st := if success then render_succeeded else render_failed).
  set (placeholder := {| paymentIntentId := None; sessionId := None;
                         status := st; createdAt := clock w;
                         updatedAt := None |}).
  assert (Hplaced : run (handleJobCompletion jobId success) w =
            saved (with_store (<[jobId := placeholder]> (paymentsStore w)) w)).
  { unfold run. rewrite handleJobCompletion_eq, Hfresh. cbn.
    unfold run. rewrite recordJobCompletion_eq, Hfresh. reflexivity. }
  rewrite Hplaced.
  set (w1 := saved (with_store (<[jobId := placeholder]> (paymentsStore w)) w)).
  assert (Hlook1 : paymentsStore w1 !! jobId = Some placeholder).
  { unfold w1. rewrite saved_store. apply lookup_insert_eq. }
  set (w2 := saved (with_store
                      (<[jobId := attached placeholder (Some ref)
                                    (session_id session)]>
                         (paymentsStore w1)) w1)).
  assert (Hweb :
    run (stripe_webhook (Some (checkout_session_completed session))) w1 =
      run (if success then capturePayment jobId else cancelPayment jobId) w2).
  { unfold run at 1.
    rewrite (checkout_completed_eq session jobId ref) by done.
    rewrite Hlook1. cbn [snd]. unfold placeholder, st.
    destruct success; reflexivity. }
  rewrite Hweb.
  assert (Hlook2 : paymentsStore w2 !! jobId =
                   Some (attached placeholder (Some ref) (session_id session))).
  { unfold w2. rewrite saved_store. apply lookup_insert_eq. }
  assert (Hlog2 : stripe_log w2 = stripe_log w).
  { unfold w2. rewrite saved_log. cbn [stripe_log with_store].
    unfold w1. rewrite saved_log. reflexivity. }
  pose proof (settlement_issued success jobId _ ref w2 Hlook2 eq_refl Hr Hj
                (or_intror eq_refl)) as Hsettled.
  cbn zeta in Hsettled. rewrite Hlog2 in Hsettled.
  exact Hsettled.
Qed.

Lemma authorization_then_outcome (success : bool) jobId ref sess w :
  paymentsStore w !! jobId = None → jobId ≠ "" → ref ≠ "" →
  let call := if success then capture ref else cancel ref in
  let w' := run (deliver_all [notifyAuthorization jobId ref sess;
                              notifyOutcome jobId success]) w in
  stripe_log w' = stripe_log w ++ [(jobId, call)] ∧
  status_of jobId w' =
    Some (if stripe_accepts (snd <$> stripe_log w) call
          then (if success then captured else canceled)
          else (if success then capture_failed else cancel_failed)).
Proof.
  intros Hfresh Hj Hr. cbn zeta.
  rewrite !run_deliver_all_cons, run_deliver_all_nil, run_notifyAuthorization.
  change (deliver (notifyOutcome jobId success))
    with (handleJobCompletion jobId success).
  set (session := {| session_id := Some sess; metadata_jobId := Some jobId;
                     payment_intent := Some ref |}).
  set (record := {| paymentIntentId := Some ref;
                    sessionId := session_id session;
                    status := authorized; createdAt := clock w;
                    updatedAt := None |}).
  set (w1 := saved (with_store (<[jobId := record]> (paymentsStore w)) w)).
  assert (Hweb :
    run (stripe_webhook (Some (checkout_session_completed session))) w = w1).
  { unfold run at 1.
    rewrite (checkout_completed_eq session jobId ref) by done.
    rewrite Hfresh. cbn [snd]. unfold run.
    rewrite recordPayment_eq, Hfresh. unfold nonempty.
    rewrite (bool_decide_eq_true_2 _ Hj). reflexivity. }
  rewrite Hweb.
  assert (Hlook1 : paymentsStore w1 !! jobId = Some record).
  { unfold w1. rewrite saved_store. apply lookup_insert_eq. }
  set (st := if success then render_succeeded else render_failed).
  set (w2 := run (markJobStatus jobId st) w1).
  assert (Hdone :
    run (handleJobCompletion jobId success) w1 =
      run (if success then capturePayment jobId else cancelPayment jobId) w2).
  { unfold run at 1. rewrite handleJobCompletion_eq, Hlook1. cbn zeta.
    cbn [mbind option_bind paymentIntentId record truthy].
    rewrite (bool_decide_eq_true_2 _ Hr). reflexivity. }
  rewrite Hdone.
  assert (Hlook2 : paymentsStore w2 !! jobId
                   = Some (touched record st (clock w1)))
    by (apply lookup_marked; done).
  assert (Hlog2 : stripe_log w2 = stripe_log w).
  { unfold w2. rewrite marked_log. unfold w1. rewrite saved_log. reflexivity. }
  pose proof (settlement_issued success jobId _ ref w2 Hlook2 eq_refl Hr Hj
                (or_intror eq_refl)) as Hsettled.
  cbn zeta in Hsettled. rewrite Hlog2 in Hsettled. exact Hsettled.
Qed.

End FirstDelivery.

(** ** A repeated outcome notice *)

(** [handleJobCompletion] overwrites the status with the render status
    before it calls [capturePayment] / [cancelPayment], so that their
    test for an already settled record never fires: whatever the status
    of a record with a reference, an outcome notice sends a call to
    Stripe. *)
Lemma outcome_always_calls_stripe `{Platform} jobId record pi success w :
  paymentsStore w !! jobId = Some record →
  paymentIntentId record = Some pi → pi ≠ "" → jobId ≠ "" →
  stripe_log (run (handleJobCompletion jobId success) w) =
    stripe_log w ++ [(jobId, if success then capture pi else cancel pi)].
Proof.
  intros Hlook Hpi Hpne Hjne. unfold run at 1.
  rewrite handleJobCompletion_eq, Hlook. cbn zeta.
  cbn [mbind option_bind]. rewrite Hpi. cbn [truthy].
  rewrite (bool_decide_eq_true_2 _ Hpne). cbn [snd].
  set (st := if success then render_succeeded else render_failed).
  pose proof (lookup_marked jobId st record w Hjne Hlook) as Hmarked.
  destruct success.
  - rewrite (capture_issued _ _ pi _ Hmarked) by (try right; done).
    rewrite marked_log. cbn [stripe_log logged]. rewrite marked_log.
    reflexivity.
  - rewrite (cancel_issued _ _ pi _ Hmarked) by (try right; done).
    rewrite marked_log. cbn [stripe_log logged]. rewrite marked_log.
    reflexivity.
Qed.

(** * The JSON codec *)

Lemma rev_append_app {A} (l1 l2 out : list A) :
  rev_append (l1 ++ l2) out = rev_append l2 (rev_append l1 out).
Proof. revert out. induction l1 as [|a l1 IH]; intros out; cbn; auto. Qed.

Lemma lexes_weaken piece toks : lexes piece toks → lexes_before_delimiter piece toks.
Proof. intros Hpiece out c rest _. apply Hpiece. Qed.

Lemma lexes_nil : lexes [] [].
Proof. intros out rest. reflexivity. Qed.

Lemma lexes_app piece1 toks1 piece2 toks2 :
  lexes piece1 toks1 → lexes piece2 toks2 →
  lexes (piece1 ++ piece2) (toks1 ++ toks2).
Proof.
  intros H1 H2 out rest.
  rewrite <- app_assoc, H1, H2, rev_append_app. reflexivity.
Qed.

Lemma lexes_app_delimited piece1 toks1 piece2 toks2 :
  lexes piece1 toks1 → lexes_before_delimiter piece2 toks2 →
  lexes_before_delimiter (piece1 ++ piece2) (toks1 ++ toks2).
Proof.
  intros H1 H2 out c rest Hc.
  rewrite <- app_assoc, H1, H2, rev_append_app by done. reflexivity.
Qed.

(** One character of a string, as [JSON.stringify] writes it, is read
    back as that character. *)
Lemma lex_escape_char c read out rest :
  lex_from (in_string false read) out (escape_char c ++ rest)
  = lex_from (in_string false (c :: read)) out rest.
Proof.
  destruct c as [b0 b1 b2 b3 b4 b5 b6 b7].
  destruct b0, b1, b2, b3, b4, b5, b6, b7; reflexivity.
Qed.

Lemma lex_string_body chars read out rest :
  lex_from (in_string false read) out
    (flat_map escape_char chars ++ double_quote :: rest)
  = lex_from ready
      (t_string (String.string_of_list_ascii (rev read ++ chars)) :: out) rest.
Proof.
  revert read. induction chars as [|c chars IH]; intros read.
  - cbn [flat_map app]. rewrite app_nil_r. reflexivity.
  - cbn [flat_map]. rewrite <- app_assoc, lex_escape_char, IH.
    cbn [rev]. rewrite <- app_assoc. reflexivity.
Qed.

Lemma lexes_quote s : lexes (quote s) [t_string s].
Proof.
  intros out rest. unfold quote.
  change (lex_from ready out
            ((double_quote :: flat_map escape_char (text s) ++ [double_quote])
             ++ rest))
    with (lex_from (in_string false []) out
            ((flat_map escape_char (text s) ++ [double_quote]) ++ rest)).
  rewrite <- app_assoc. cbn [app]. rewrite lex_string_body.
  cbn [rev app rev_append]. unfold text.
  rewrite String.string_of_list_ascii_of_string. reflexivity.
Qed.

(** The digits of a positive number start with a digit that is not 0. *)
Lemma to_uint_head p :
  Pos.to_uint p ≠ Decimal.Nil ∧ ∀ d, Pos.to_uint p ≠ Decimal.D0 d.
Proof.
  split; [apply DecimalPos.Unsigned.to_uint_nonnil|].
  intros d Hzero.
  pose proof (DecimalPos.Unsigned.to_of (Pos.to_uint p)) as Hnorm.
  rewrite DecimalPos.Unsigned.of_to in Hnorm. cbn [N.to_uint] in Hnorm.
  unfold Decimal.unorm in Hnorm.
  destruct (Decimal.nzhead (Pos.to_uint p)) eqn:Hhead;
    try (rewrite Hzero in Hnorm; discriminate).
  - pose proof (DecimalPos.Unsigned.of_to p) as Hp.
    rewrite Hnorm in Hp. discriminate.
  - by apply DecimalFacts.nzhead_nonzero in Hhead.
Qed.

(** Digits after the first are gathered one by one. *)
Lemma lex_digits d negative digits out c rest :
  delimiter c →
  lex_from (in_number n_int negative digits) out (digit_chars d ++ c :: rest)
  = lex_from (in_number n_int negative (Decimal.revapp d digits)) out
      (c :: rest).
Proof.
  intros Hc. revert digits.
  induction d as [|d IH|d IH|d IH|d IH|d IH|d IH|d IH|d IH|d IH|d IH];
    intros digits; [reflexivity|..];
    cbn [digit_chars app Decimal.revapp]; rewrite <- IH; reflexivity.
Qed.

Lemma lex_number_end negative digits out c rest :
  delimiter c →
  lex_from (in_number n_int negative digits) out (c :: rest)
  = lex_from ready (integer_token negative digits :: out) (c :: rest).
Proof. intros [-> | ->]; reflexivity. Qed.

Lemma integer_token_digits p negative :
  integer_token negative (Decimal.rev (Pos.to_uint p))
  = t_integer (if negative then Zneg p else Zpos p).
Proof.
  unfold integer_token. rewrite DecimalFacts.rev_rev.
  change (N.of_uint (Pos.to_uint p)) with (Pos.of_uint (Pos.to_uint p)).
  rewrite DecimalPos.Unsigned.of_to. by destruct negative.
Qed.

Lemma lex_positive p out c rest :
  delimiter c →
  lex_from ready out (digit_chars (Pos.to_uint p) ++ c :: rest)
  = lex_from ready (t_integer (Zpos p) :: out) (c :: rest).
Proof.
  intros Hc. destruct (to_uint_head p) as [Hnil Hzero].
  rewrite <- (integer_token_digits p false). unfold Decimal.rev.
  destruct (Pos.to_uint p) as [|d|d|d|d|d|d|d|d|d|d];
    [done|by destruct (Hzero d)|..];
    cbn [digit_chars app Decimal.revapp];
    rewrite <- lex_number_end, <- lex_digits by done; reflexivity.
Qed.

Lemma lex_negative p out c rest :
  delimiter c →
  lex_from ready out ("-"%char :: digit_chars (Pos.to_uint p) ++ c :: rest)
  = lex_from ready (t_integer (Zneg p) :: out) (c :: rest).
Proof.
  intros Hc. destruct (to_uint_head p) as [Hnil Hzero].
  rewrite <- (integer_token_digits p true). unfold Decimal.rev.
  destruct (Pos.to_uint p) as [|d|d|d|d|d|d|d|d|d|d];
    [done|by destruct (Hzero d)|..];
    cbn [digit_chars app Decimal.revapp];
    rewrite <- lex_number_end, <- lex_digits by done; reflexivity.
Qed.

Lemma lexes_number n : lexes_before_delimiter (number_text n) [t_integer n].
Proof.
  intros out c rest Hc. destruct n as [|p|p]; cbn [number_text rev_append].
  - destruct Hc as [-> | ->]; reflexivity.
  - by apply lex_positive.
  - cbn [app]. by apply lex_negative.
Qed.

Lemma lex_separator out rest :
  lex_from ready out (separator ++ rest) = lex_from ready (t_comma :: out) rest.
Proof. reflexivity. Qed.

Lemma lexes_joined parts toks :
  Forall2 lexes_before_delimiter parts toks →
  lexes_before_delimiter (joined parts) (joined_tokens toks).
Proof.
  induction 1 as [|part tok parts toks Hpart Hparts IH].
  - apply lexes_weaken, lexes_nil.
  - destruct Hparts as [|part' tok' parts toks Hpart' Hparts]; [exact Hpart|].
    intros out c rest Hc.
    change (joined (part :: part' :: parts))
      with (part ++ separator ++ joined (part' :: parts)).
    change (joined_tokens (tok :: tok' :: toks))
      with (tok ++ t_comma :: joined_tokens (tok' :: toks)).
    rewrite <- !app_assoc.
    change (separator ++ joined (part' :: parts) ++ c :: rest)
      with (","%char :: line_feed :: joined (part' :: parts) ++ c :: rest).
    rewrite Hpart by (by left).
    change (","%char :: line_feed :: joined (part' :: parts) ++ c :: rest)
      with (separator ++ joined (part' :: parts) ++ c :: rest).
    rewrite lex_separator, IH by done.
    rewrite rev_append_app. reflexivity.
Qed.

Lemma lexes_member name value tok :
  lexes_before_delimiter value [tok] →
  lexes_before_delimiter (member_text name value) (member_tokens name tok).
Proof.
  intros Hvalue. unfold member_text, member_tokens.
  apply (lexes_app_delimited _ [] _ _); [by intros out rest|].
  apply (lexes_app_delimited _ [t_string name] _ _); [apply lexes_quote|].
  apply (lexes_app_delimited _ [t_colon] _ _); [by intros out rest|].
  exact Hvalue.
Qed.

Lemma lexes_null : lexes (text "null") [t_null].
Proof. intros out rest. reflexivity. Qed.

Lemma lexes_reference o :
  lexes_before_delimiter (reference_text o) [reference_token o].
Proof.
  destruct o as [s|]; apply lexes_weaken; [apply lexes_quote | apply lexes_null].
Qed.

Lemma lexes_members undefined_session record :
  Forall2 lexes_before_delimiter
    (members_text undefined_session record)
    (members_tokens undefined_session record).
Proof.
  unfold members_text, members_tokens.
  repeat apply Forall2_app.
  - constructor; [|constructor]. apply lexes_member, lexes_reference.
  - destruct (sessionId record) as [s|]; [|destruct undefined_session].
    + constructor; [|constructor].
      apply lexes_member, lexes_weaken, lexes_quote.
    + constructor.
    + constructor; [|constructor].
      apply lexes_member, lexes_weaken, lexes_null.
  - constructor; [|constructor; [|constructor]].
    + apply lexes_member, lexes_weaken, lexes_quote.
    + apply lexes_member, lexes_number.
  - destruct (updatedAt record) as [t|]; constructor; [|constructor].
    apply lexes_member, lexes_number.
Qed.

Lemma lexes_record undefined_session record :
  lexes (record_text undefined_session record)
        (record_tokens undefined_session record).
Proof.
  intros out rest. unfold record_text, record_tokens.
  rewrite <- !app_assoc.
  change (text "{" ++ [line_feed] ++
          joined (members_text undefined_session record) ++
          [line_feed] ++ text "  }" ++ rest)
    with ("{"%char :: line_feed ::
          joined (members_text undefined_session record) ++
          line_feed :: text "  }" ++ rest).
  change (lex_from ready out
            ("{"%char :: line_feed ::
             joined (members_text undefined_session record) ++
             line_feed :: text "  }" ++ rest))
    with (lex_from ready (t_open_brace :: out)
            (joined (members_text undefined_session record) ++
             line_feed :: text "  }" ++ rest)).
  rewrite (lexes_joined _ _ (lexes_members undefined_session record))
    by (by right).
  cbn [rev_append]. rewrite rev_append_app. reflexivity.
Qed.

Lemma lexes_entry undefined_session entry :
  lexes (entry_text undefined_session entry)
        (entry_tokens undefined_session entry).
Proof.
  unfold entry_text, entry_tokens.
  apply (lexes_app _ [] _ _); [by intros out rest|].
  apply (lexes_app _ [t_string entry.1] _ _); [apply lexes_quote|].
  apply (lexes_app _ [t_colon] _ _); [by intros out rest|].
  apply lexes_record.
Qed.

Lemma lex_ledger_text undefined_session entries :
  lex (ledger_text undefined_session entries)
  = Some (ledger_tokens undefined_session entries).
Proof.
  unfold lex, ledger_text, ledger_tokens.
  destruct entries as [|entry entries]; [reflexivity|].
  set (parts := entry_text undefined_session <$> entry :: entries).
  set (toks := entry_tokens undefined_session <$> entry :: entries).
  assert (Forall2 lexes_before_delimiter parts toks) as Hparts.
  { subst parts toks. apply Forall2_fmap, Forall_Forall2_diag, Forall_forall.
    intros e _. apply lexes_weaken, lexes_entry. }
  change (text "{" ++ [line_feed] ++ joined parts ++ [line_feed] ++ text "}")
    with ("{"%char :: line_feed :: joined parts ++ line_feed :: text "}").
  change (lex_from ready []
            ("{"%char :: line_feed :: joined parts ++ line_feed :: text "}"))
    with (lex_from ready [t_open_brace]
            (joined parts ++ line_feed :: text "}")).
  rewrite (lexes_joined _ _ Hparts) by (by right).
  change (lex_from ready (rev_append (joined_tokens toks) [t_open_brace])
            (line_feed :: text "}"))
    with (Some (rev_append
                  (t_close_brace ::
                   rev_append (joined_tokens toks) [t_open_brace]) [])).
  f_equal. cbn [rev_append].
  rewrite !rev_append_rev, rev_app_distr, rev_involutive. reflexivity.
Qed.

(** What each member that [JSON.stringify] writes adds to the fields. *)
Lemma with_member_reference o fields :
  with_member "paymentIntentId" (reference_token o) fields
  = Some {| read_paymentIntentId := Some o;
            read_sessionId := read_sessionId fields;
            read_status := read_status fields;
            read_createdAt := read_createdAt fields;
            read_updatedAt := read_updatedAt fields |}.
Proof. destruct o; reflexivity. Qed.

Lemma with_member_session value fields :
  with_member "sessionId" (reference_token value) fields
  = Some {| read_paymentIntentId := read_paymentIntentId fields;
            read_sessionId := value;
            read_status := read_status fields;
            read_createdAt := read_createdAt fields;
            read_updatedAt := read_updatedAt fields |}.
Proof. destruct value; reflexivity. Qed.

Lemma with_member_status st fields :
  with_member "status" (t_string (status_name st)) fields
  = Some {| read_paymentIntentId := read_paymentIntentId fields;
            read_sessionId := read_sessionId fields;
            read_status := Some st;
            read_createdAt := read_createdAt fields;
            read_updatedAt := read_updatedAt fields |}.
Proof. destruct st; reflexivity. Qed.

Lemma with_member_createdAt n fields :
  with_member "createdAt" (t_integer n) fields
  = Some {| read_paymentIntentId := read_paymentIntentId fields;
            read_sessionId := read_sessionId fields;
            read_status := read_status fields;
            read_createdAt := Some n;
            read_updatedAt := read_updatedAt fields |}.
Proof. reflexivity. Qed.

Lemma with_member_updatedAt n fields :
  with_member "updatedAt" (t_integer n) fields
  = Some {| read_paymentIntentId := read_paymentIntentId fields;
            read_sessionId := read_sessionId fields;
            read_status := read_status fields;
            read_createdAt := read_createdAt fields;
            read_updatedAt := Some n |}.
Proof. reflexivity. Qed.

Lemma read_first_member ledger jobId name value fields rest :
  with_member name value no_fields = Some fields →
  read_from (at_first_member ledger jobId) (member_tokens name value ++ rest)
  = read_from (after_member ledger jobId fields) rest.
Proof.
  intros Hmember. cbn [member_tokens app read_from read_step].
  rewrite Hmember. reflexivity.
Qed.

Lemma read_next_member ledger jobId name value fields fields' rest :
  with_member name value fields = Some fields' →
  read_from (after_member ledger jobId fields)
    (t_comma :: member_tokens name value ++ rest)
  = read_from (after_member ledger jobId fields') rest.
Proof.
  intros Hmember. cbn [member_tokens app read_from read_step].
  rewrite Hmember. reflexivity.
Qed.

(** The tokens of a written record are read back as the record. *)
Lemma read_record_tokens undefined_session record ledger jobId rest :
  read_from (at_record ledger jobId)
    (record_tokens undefined_session record ++ rest)
  = read_from (after_record (<[jobId := record]> ledger)) rest.
Proof.
  destruct record as [pi sess st created updated].
  unfold record_tokens, members_tokens.
  cbn [paymentIntentId sessionId status createdAt updatedAt].
  assert (Hsession : ∀ s, t_string s = reference_token (Some s)) by done.
  assert (Hnull : t_null = reference_token None) by done.
  destruct sess as [sess|]; [rewrite (Hsession sess)|
                             destruct undefined_session; [|rewrite Hnull at 1]];
    destruct updated as [updated|];
    cbn [app joined_tokens];
    repeat first [rewrite <- app_assoc | progress cbn [app]];
    cbn [read_from read_step];
    rewrite (read_first_member _ _ _ _ _ _ (with_member_reference _ _));
    rewrite ?(read_next_member _ _ _ _ _ _ _ (with_member_session _ _));
    rewrite (read_next_member _ _ _ _ _ _ _ (with_member_status _ _));
    rewrite ?(read_next_member _ _ _ _ _ _ _ (with_member_createdAt _ _));
    rewrite ?(read_next_member _ _ _ _ _ _ _ (with_member_updatedAt _ _));
    reflexivity.
Qed.

Lemma read_entries undefined_session entry entries ledger rest :
  let written :=
    joined_tokens (entry_tokens undefined_session <$> entry :: entries) ++
    t_close_brace :: rest in
  let ledger' :=
    foldl (λ ledger entry, <[entry.1 := entry.2]> ledger) ledger
      (entry :: entries) in
  read_from (at_first_key ledger) written = read_from (at_end ledger') rest ∧
  read_from (at_key ledger) written = read_from (at_end ledger') rest.
Proof.
  cbn zeta. revert entry ledger.
  induction entries as [|entry' entries IH]; intros [jobId record] ledger.
  - cbn [fmap list_fmap joined_tokens foldl fst snd].
    unfold entry_tokens. cbn [fst snd app read_from read_step].
    rewrite read_record_tokens. split; reflexivity.
  - destruct (IH entry' (<[jobId := record]> ledger)) as [_ Hrest].
    change (joined_tokens
              (entry_tokens undefined_session <$>
               (jobId, record) :: entry' :: entries))
      with (entry_tokens undefined_session (jobId, record) ++
            t_comma :: joined_tokens
                         (entry_tokens undefined_session <$> entry' :: entries)).
    unfold entry_tokens at 1 3. cbn [foldl fst snd] in *.
    rewrite <- !app_assoc. cbn [app read_from read_step].
    rewrite !read_record_tokens. cbn [app read_from read_step].
    rewrite Hrest. split; reflexivity.
Qed.

Lemma read_ledger_tokens undefined_session entries :
  read_ledger (ledger_tokens undefined_session entries)
  = Some (ledger_of entries).
Proof.
  unfold read_ledger, ledger_tokens, ledger_of.
  destruct entries as [|entry entries]; [reflexivity|].
  cbn [read_from read_step].
  destruct (read_entries undefined_session entry entries ∅ []) as [-> _].
  reflexivity.
Qed.

(** [JSON.parse] reads a written ledger back, in whatever order its
    entries were written and whichever absent [sessionId] was left out. *)
Lemma JSON_parse_written undefined_session entries :
  JSON_parse_text
    (String.string_of_list_ascii (ledger_text undefined_session entries))
  = parsed_ledger (ledger_of entries).
Proof.
  unfold JSON_parse_text, text.
  rewrite String.list_ascii_of_string_of_list_ascii.
  rewrite lex_ledger_text, read_ledger_tokens. reflexivity.
Qed.

Lemma ledger_of_entries (entries : list (string * PaymentRecord))
    (ledger : gmap string PaymentRecord) :
  NoDup entries.*1 →
  foldl (λ ledger entry, <[entry.1 := entry.2]> ledger) ledger entries
  = list_to_map entries ∪ ledger.
Proof.
  revert ledger. induction entries as [|[jobId record] entries IH];
    intros ledger Hkeys.
  - rewrite list_to_map_nil, (left_id_L ∅ (∪)). reflexivity.
  - apply NoDup_cons in Hkeys as [Hfresh Hkeys].
    rewrite list_to_map_cons. cbn [foldl fst snd]. rewrite IH by done.
    rewrite <- insert_union_l. apply symmetry, insert_union_r.
    by apply not_elem_of_list_to_map_1.
Qed.

Lemma ledger_of_permutation entries s :
  entries ≡ₚ map_to_list s → ledger_of entries = s.
Proof.
  intros Hperm. unfold ledger_of.
  assert (NoDup entries.*1) as Hkeys
    by (rewrite Hperm; apply NoDup_fst_map_to_list).
  rewrite ledger_of_entries by done. rewrite (right_id_L ∅ (∪)).
  rewrite (list_to_map_proper _ _ Hkeys Hperm). apply list_to_map_to_list.
Qed.

(** * The claims of the specification *)

(** ** C1, C2: a repeated outcome notice *)

(** C1, at the failing input.  After the authorization notice for
    job-1, two outcome notices send two calls to Stripe for job-1: the
    capture twice when both report success, a capture and then a cancel
    when the second reports failure. *)
Theorem duplicate_outcome_calls_stripe_twice :
  calls_for "job-1"
    (stripe_log
       (run (@deliver_all stripe_accepts_all
               [notifyAuthorization "job-1" "pi_1" "sess_1";
                notifyOutcome "job-1" true;
                notifyOutcome "job-1" true]) fresh_world))
  = [capture "pi_1"; capture "pi_1"] ∧
  calls_for "job-1"
    (stripe_log
       (run (@deliver_all stripe_accepts_all
               [notifyAuthorization "job-1" "pi_1" "sess_1";
                notifyOutcome "job-1" true;
                notifyOutcome "job-1" false]) fresh_world))
  = [capture "pi_1"; cancel "pi_1"].
Proof. split; vm_compute; reflexivity. Qed.

(** C2, at the failing input.  job-1 is [captured] after its
    authorization and outcome notices.  The outcome notice delivered
    once more sends a second capture to Stripe; Stripe refuses it and
    the record ends [capture_failed].  And on a [captured] record an
    outcome notice reporting failure sends a cancel and leaves the
    record [canceled]. *)
Theorem replayed_outcome_changes_settled_record :
  let w1 := run (@deliver_all stripe_accepts_once
                   [notifyAuthorization "job-1" "pi_1" "sess_1";
                    notifyOutcome "job-1" true]) fresh_world in
  let w2 := run (@handleJobCompletion stripe_accepts_once "job-1" true) w1 in
  let w3 := run (@handleJobCompletion stripe_accepts_all "job-1" false)
                (world_with captured) in
  status_of "job-1" w1 = Some captured ∧
  stripe_log w1 = [("job-1", capture "pi_1")] ∧
  status_of "job-1" w2 = Some capture_failed ∧
  stripe_log w2 = [("job-1", capture "pi_1"); ("job-1", capture "pi_1")] ∧
  status_of "job-1" w3 = Some canceled ∧
  stripe_log w3 = [("job-1", cancel "pi_1")].
Proof. cbv zeta. repeat split; vm_compute; reflexivity. Qed.

(** ** C3: the two orders of arrival *)

(** C3, at the failing input.  The jobId is [constructor], the name of
    a method every object inherits; the ledger is empty and Stripe
    accepts every call.  With the authorization notice first, nothing
    is recorded, the outcome notice then finds no reference, and the
    job ends [render_succeeded] with no call to Stripe.  With the
    outcome notice first, the authorization notice finds the status
    [render_succeeded], attaches the reference and captures: the job
    ends [captured].  In both orders the ledger stays empty. *)
Theorem inherited_jobId_breaks_commutation :
  let session := {| session_id := Some "sess_1";
                    metadata_jobId := Some "constructor";
                    payment_intent := Some "pi_1" |} in
  let authorization_first :=
    (method ← @Inherited.checkout_completed stripe_accepts_all
                "constructor" session Inherited.untouched;
     @Inherited.handleJobCompletion stripe_accepts_all
       "constructor" true method) fresh_world in
  let outcome_first :=
    (method ← @Inherited.handleJobCompletion stripe_accepts_all
                "constructor" true Inherited.untouched;
     @Inherited.checkout_completed stripe_accepts_all
       "constructor" session method) fresh_world in
  "constructor" ∈ Object_prototype ∧
  authorization_first.1
  = Normal {| Inherited.paymentIntentId := None;
              Inherited.sessionId := None;
              Inherited.status := Some render_succeeded;
              Inherited.updatedAt := Some (clock fresh_world) |} ∧
  stripe_log authorization_first.2 = [] ∧
  paymentsStore authorization_first.2 = ∅ ∧
  outcome_first.1
  = Normal {| Inherited.paymentIntentId := Some "pi_1";
              Inherited.sessionId := Some "sess_1";
              Inherited.status := Some captured;
              Inherited.updatedAt := Some (clock fresh_world) |} ∧
  stripe_log outcome_first.2 = [("constructor", capture "pi_1")] ∧
  paymentsStore outcome_first.2 = ∅.
Proof.
  cbv zeta. split; [apply (bool_decide_unpack _); vm_compute; exact I|].
  repeat split; vm_compute; reflexivity.
Qed.

(** ** C4: a stuck authorization is cancelled by the sweep *)

(** C4.  In a ledger as the engine builds it, a record that is
    [authorized] and older than the timeout when the sweep starts gets
    exactly one cancel for its PaymentIntent during that sweep, and ends
    [canceled] when Stripe accepts that call ([cancel_failed] when it
    refuses). *)
Theorem sweep_cancels_stuck_authorization `{Platform} jobId record w :
  ledger_ok (paymentsStore w) →
  paymentsStore w !! jobId = Some record →
  status record = authorized →
  (clock w - createdAt record > AUTHORIZATION_TIMEOUT_MS)%Z →
  let w' := run cleanupStuckAuthorizations w in
  cleanupStuckAuthorizations w = (Normal tt, w') ∧
  ∃ pi before after,
    paymentIntentId record = Some pi ∧
    stripe_log w' = before ++ (jobId, cancel pi) :: after ∧
    calls_for jobId (stripe_log w') =
      calls_for jobId (stripe_log w) ++ [cancel pi] ∧
    status_of jobId w' =
      Some (if stripe_accepts (snd <$> before) (cancel pi)
            then canceled else cancel_failed).
Proof.
  intros Hok Hlook Hst Hage. cbn zeta. unfold run.
  rewrite cleanupStuckAuthorizations_eq. cbn [snd]. split; [reflexivity|].
  pose proof (Hok _ _ Hlook) as Hrec. unfold record_ok in Hrec.
  destruct (paymentIntentId record) as [pi|] eqn:Hpi; [|done].
  destruct Hrec as [Hpne Hjne].
  exists pi.
  assert (Hin : (jobId, record) ∈ map_to_list (paymentsStore w))
    by (apply elem_of_map_to_list; done).
  apply list_elem_of_split in Hin as (l1 & l2 & Hsplit).
  pose proof (NoDup_fst_map_to_list (paymentsStore w)) as Hnodup.
  rewrite Hsplit in Hnodup |- *. rewrite fmap_app in Hnodup. cbn in Hnodup.
  apply NoDup_app in Hnodup as (_ & Hl1 & Hl2).
  apply NoDup_cons in Hl2 as [Hl2 _].
  assert (Hnot1 : jobId ∉ l1.*1).
  { intros Hin1. apply (Hl1 _ Hin1). left. }
  rewrite foldl_app. cbn [foldl fst].
  set (w1 := foldl (λ w0 entry, visited (clock w) entry.1 w0) w l1).
  destruct (visits_leave_alone (clock w) jobId l1 w (or_introl Hnot1))
    as [Hstore1 Hcalls1]. fold w1 in Hstore1, Hcalls1.
  rewrite Hlook in Hstore1.
  assert (Hvisit : visited (clock w) jobId w1 =
            run (markJobStatus jobId
                   (if stripe_accepts (snd <$> stripe_log w1) (cancel pi)
                    then canceled else cancel_failed))
                (logged jobId (cancel pi) w1)).
  { unfold visited. rewrite Hstore1.
    rewrite bool_decide_eq_true_2 by done.
    apply (cancel_issued _ record); auto. }
  set (w2 := visited (clock w) jobId w1) in *.
  destruct (visits_leave_alone (clock w) jobId l2 w2 (or_introl Hl2))
    as [Hstore2 Hcalls2].
  destruct (visits_extend_log (clock w) l2 w2) as [after Hafter].
  exists (stripe_log w1), after. split; [reflexivity|].
  assert (Hlog2 : stripe_log w2 = stripe_log w1 ++ [(jobId, cancel pi)]).
  { rewrite Hvisit, marked_log. reflexivity. }
  split; [|split].
  - rewrite Hafter, Hlog2, <- app_assoc. reflexivity.
  - rewrite Hcalls2, Hlog2, calls_for_app, calls_for_same, Hcalls1.
    reflexivity.
  - unfold status_of. rewrite Hstore2. rewrite Hvisit.
    apply (status_of_marked _ _ record); done.
Qed.

(** C4 at the stuck authorization of job-1, three hours old. *)
Lemma sweep_cancels_stuck_authorization_witness :
  ledger_ok (paymentsStore (world_with authorized)) ∧
  (clock (world_with authorized) - createdAt (record_in authorized)
   > AUTHORIZATION_TIMEOUT_MS)%Z ∧
  ∃ pi before after,
    paymentIntentId (record_in authorized) = Some pi ∧
    stripe_log (run (@cleanupStuckAuthorizations stripe_accepts_all)
                    (world_with authorized))
    = before ++ ("job-1", cancel pi) :: after ∧
    calls_for "job-1"
      (stripe_log (run (@cleanupStuckAuthorizations stripe_accepts_all)
                       (world_with authorized)))
    = calls_for "job-1" (stripe_log (world_with authorized)) ++ [cancel pi] ∧
    status_of "job-1"
      (run (@cleanupStuckAuthorizations stripe_accepts_all)
           (world_with authorized))
    = Some (if @stripe_accepts stripe_accepts_all (snd <$> before) (cancel pi)
            then canceled else cancel_failed).
Proof.
  assert (Hok : ledger_ok (paymentsStore (world_with authorized))).
  { apply map_Forall_singleton. split; discriminate. }
  assert (Hage : (clock (world_with authorized)
                  - createdAt (record_in authorized)
                  > AUTHORIZATION_TIMEOUT_MS)%Z) by reflexivity.
  split; [exact Hok|]. split; [exact Hage|].
  apply (@sweep_cancels_stuck_authorization stripe_accepts_all
           "job-1" (record_in authorized) (world_with authorized)
           Hok eq_refl eq_refl Hage).
Defined.

(** ** C5: a failed cancel is not retried *)

(** C5, as the code has it.  The sweep only processes records whose
    status is [authorized]: a record in [cancel_failed], whatever its
    age, is left exactly as it is by a sweep, no call is issued to
    Stripe for it, and [cancelPayment] itself refuses it (returns false
    without calling Stripe). *)
Theorem sweep_skips_cancel_failed `{Platform} jobId record w :
  paymentsStore w !! jobId = Some record →
  status record = cancel_failed →
  let w' := run cleanupStuckAuthorizations w in
  paymentsStore w' !! jobId = Some record ∧
  calls_for jobId (stripe_log w') = calls_for jobId (stripe_log w) ∧
  cancelPayment jobId w = (Normal false, w).
Proof.
  intros Hlook Hst. cbn zeta. unfold run.
  rewrite cleanupStuckAuthorizations_eq. cbn [snd].
  destruct (visits_leave_alone (clock w) jobId
              (map_to_list (paymentsStore w)) w) as [Hstore Hcalls].
  { right. exists record. rewrite Hst. done. }
  rewrite Hstore, Hcalls, Hlook. split; [done|]. split; [done|].
  rewrite cancelPayment_eq, Hlook, Hst.
  destruct (paymentIntentId record); [|done].
  destruct (negb _); [done|]. eval_decide. done.
Qed.

(** C5, against the claim.  job-2 is [cancel_failed], created at 1000
    and three hours old; a sweep cancels the stuck authorization of job-1 next to it and
    leaves job-2 as it was, with no call to Stripe for it. *)
Lemma cancel_failed_is_not_retried :
  let w := {| paymentsStore :=
                {[ "job-1" := record_in authorized;
                   "job-2" := {| paymentIntentId := Some "pi_2";
                                 sessionId := Some "sess_2";
                                 status := cancel_failed;
                                 createdAt := 1000;
                                 updatedAt := Some 2000%Z |} ]};
              payments_json := None;
              fs_readable := true;
              fs_writable := true;
              stripe_log := [];
              clock := (1000 + 3 * 60 * 60 * 1000)%Z |} in
  let w' := run (@cleanupStuckAuthorizations stripe_accepts_all) w in
  status_of "job-2" w = Some cancel_failed ∧
  (clock w - 1000 > AUTHORIZATION_TIMEOUT_MS)%Z ∧
  stripe_log w' = [("job-1", cancel "pi_1")] ∧
  calls_for "job-2" (stripe_log w') = [] ∧
  status_of "job-2" w' = Some cancel_failed ∧
  status_of "job-1" w' = Some canceled.
Proof. cbv zeta. repeat split; vm_compute; reflexivity. Qed.

(** C5 at a record in [cancel_failed]. *)
Lemma sweep_skips_cancel_failed_witness :
  paymentsStore (run (@cleanupStuckAuthorizations stripe_accepts_all)
                     (world_with cancel_failed)) !! "job-1"
  = Some (record_in cancel_failed) ∧
  calls_for "job-1"
    (stripe_log (run (@cleanupStuckAuthorizations stripe_accepts_all)
                     (world_with cancel_failed)))
  = calls_for "job-1" (stripe_log (world_with cancel_failed)) ∧
  @cancelPayment stripe_accepts_all "job-1" (world_with cancel_failed)
  = (Normal false, world_with cancel_failed).
Proof.
  apply (@sweep_skips_cancel_failed stripe_accepts_all
           "job-1" (record_in cancel_failed) (world_with cancel_failed)
           eq_refl eq_refl).
Defined.

(** ** C6: what loadPayments makes of a corrupt file *)

(** C6, at the failing input.  payments.json holds JSON that is no
    ledger: the number 5, an empty array, an object whose member is
    [null].  [JSON.parse] accepts each, nothing throws, the [catch] of
    [loadPayments] is not reached and the value becomes
    [paymentsStore]: the store does not start as an empty ledger.  A
    text that [JSON.parse] rejects, and the text [null], do leave the
    ledger empty. *)
Theorem loadPayments_installs_what_it_parses :
  @loadPayments stripe_accepts_all (startup "5")
  = (Foreign "5", startup "5") ∧
  @loadPayments stripe_accepts_all (startup "[]")
  = (Foreign "[]", startup "[]") ∧
  @loadPayments stripe_accepts_all
    (startup ("{" +:+ quoted "job-1" +:+ ": null}"))
  = (Foreign ("{" +:+ quoted "job-1" +:+ ": null}"),
     startup ("{" +:+ quoted "job-1" +:+ ": null}")) ∧
  @loadPayments stripe_accepts_all (startup "{ job-1: ")
  = (Normal tt, startup "{ job-1: ") ∧
  @loadPayments stripe_accepts_all (startup "null")
  = (Normal tt, startup "null").
Proof. repeat split; vm_compute; reflexivity. Qed.

(** ** C7: no reference, no call *)



(** ** C8: what leaves a terminal state alone, and what does not *)

(** C8, against the claim.  Webhook event handling takes a record out of
    a terminal state: the event of an asynchronous payment failure sets
    a [captured] record, and a [canceled] one, to [payment_failed]. *)
Lemma async_payment_failure_leaves_terminal_state :
  status_of "job-1" (world_with captured) = Some captured ∧
  status_of "job-1"
    (run (@stripe_webhook stripe_accepts_all
            (Some (checkout_session_async_payment_failed
                     {| session_id := Some "sess_1";
                        metadata_jobId := Some "job-1";
                        payment_intent := Some "pi_1" |})))
         (world_with captured)) = Some payment_failed ∧
  status_of "job-1" (world_with canceled) = Some canceled ∧
  status_of "job-1"
    (run (@stripe_webhook stripe_accepts_all
            (Some (checkout_session_async_payment_failed
                     {| session_id := Some "sess_1";
                        metadata_jobId := Some "job-1";
                        payment_intent := Some "pi_1" |})))
         (world_with canceled)) = Some payment_failed.
Proof. repeat split; vm_compute; reflexivity. Qed.

(** C8, as the code has it.  A record in [captured], [canceled] or
    [payment_failed] is left as it is, with no call to Stripe, by the
    authorization notice, by [capturePayment], by [cancelPayment] and by
    the sweep.  The event of an asynchronous payment failure has no such
    guard: under a non-empty jobId it sets the status of the record to
    [payment_failed] whatever the status was, stamps [updatedAt],
    answers 200, sends nothing to Stripe and touches no other record. *)
Theorem terminal_states_guarded_except_payment_failure `{Platform} jobId record w :
  paymentsStore w !! jobId = Some record →
  (terminal (status record) →
   (∀ session, metadata_jobId session = Some jobId →
      run (stripe_webhook (Some (checkout_session_completed session))) w = w) ∧
   run (capturePayment jobId) w = w ∧
   run (cancelPayment jobId) w = w ∧
   paymentsStore (run cleanupStuckAuthorizations w) !! jobId = Some record ∧
   calls_for jobId (stripe_log (run cleanupStuckAuthorizations w)) =
     calls_for jobId (stripe_log w)) ∧
  (jobId ≠ "" →
   ∀ session, metadata_jobId session = Some jobId →
     let failed :=
       stripe_webhook (Some (checkout_session_async_payment_failed session)) in
     failed w = (Normal 200, run failed w) ∧
     paymentsStore (run failed w) !! jobId
     = Some (touched record payment_failed (clock w)) ∧
     stripe_log (run failed w) = stripe_log w ∧
     ∀ other, other ≠ jobId →
       paymentsStore (run failed w) !! other = paymentsStore w !! other).
Proof.
  intros Hlook. split.
  - intros Hterm.
    assert (Hna : status record ≠ authorized)
      by (destruct Hterm as [-> | [-> | ->]]; done).
    assert (Hnrs : status record ≠ render_succeeded)
      by (destruct Hterm as [-> | [-> | ->]]; done).
    assert (Hnrf : status record ≠ render_failed)
      by (destruct Hterm as [-> | [-> | ->]]; done).
    split; [|split; [|split; [|split]]].
    + intros session Hj. unfold run.
      rewrite (checkout_completed_settled session jobId record) by done.
      reflexivity.
    + apply (capture_skipped _ record); done.
    + apply (cancel_skipped _ record); done.
    + unfold run. rewrite cleanupStuckAuthorizations_eq. cbn [snd].
      destruct (visits_leave_alone (clock w) jobId
                  (map_to_list (paymentsStore w)) w) as [-> _]; [|done].
      right. eauto.
    + unfold run. rewrite cleanupStuckAuthorizations_eq. cbn [snd].
      destruct (visits_leave_alone (clock w) jobId
                  (map_to_list (paymentsStore w)) w) as [_ ->]; [|done].
      right. eauto.
  - intros Hjne session Hj. cbn zeta. unfold run.
    rewrite async_payment_failed_eq, Hj. cbn [snd].
    split; [reflexivity|].
    rewrite marked_store, marked_log, Hlook.
    unfold nonempty. rewrite bool_decide_eq_true_2 by done.
    split; [apply lookup_insert_eq|]. split; [reflexivity|].
    intros other Hother. by apply lookup_insert_ne.
Qed.

(** C8 at a [captured] record. *)
Lemma terminal_states_guarded_except_payment_failure_witness :
  paymentsStore (world_with captured) !! "job-1" = Some (record_in captured) ∧
  run (@capturePayment stripe_accepts_all "job-1") (world_with captured)
  = world_with captured ∧
  run (@cancelPayment stripe_accepts_all "job-1") (world_with captured)
  = world_with captured ∧
  paymentsStore
    (run (@stripe_webhook stripe_accepts_all
            (Some (checkout_session_async_payment_failed
                     {| session_id := Some "sess_1";
                        metadata_jobId := Some "job-1";
                        payment_intent := Some "pi_1" |})))
         (world_with captured)) !! "job-1"
  = Some (touched (record_in captured) payment_failed
            (clock (world_with captured))).
Proof.
  split; [reflexivity|].
  destruct (@terminal_states_guarded_except_payment_failure stripe_accepts_all
              "job-1" (record_in captured) (world_with captured) eq_refl)
    as [Hguarded Hfailed].
  destruct (Hguarded (or_introl eq_refl)) as (_ & Hcapture & Hcancel & _).
  split; [exact Hcapture|]. split; [exact Hcancel|].
  apply (Hfailed ltac:(discriminate)
           {| session_id := Some "sess_1";
              metadata_jobId := Some "job-1";
              payment_intent := Some "pi_1" |} eq_refl).
Defined.

(** ** C9: a restart reproduces the ledger *)

(** C9.  On Node, when payments.json can be written and read back, a
    restart after [savePayments] (the ledger in memory reset to the
    empty object, then [loadPayments]) yields the very same ledger,
    whatever it holds: the same jobIds, each with the same record.
    This holds in whatever order [JSON.stringify] takes the entries,
    and whether an absent [sessionId] is written as [null] or left
    out. *)
Theorem save_then_restart_restores_ledger listing undefined_session accepts w :
  fs_writable w = true →
  fs_readable w = true →
  listing (paymentsStore w) ≡ₚ map_to_list (paymentsStore w) →
  let js := node listing undefined_session accepts in
  @restart js (run (@savePayments js) w)
  = (Normal tt, run (@restart js) (run (@savePayments js) w)) ∧
  paymentsStore (run (@restart js) (run (@savePayments js) w))
  = paymentsStore w.
Proof.
  intros Hwrite Hread Hlisting. cbn zeta.
  set (js := node listing undefined_session accepts).
  fold (@saved js w). rewrite (@saved_eq js), Hwrite.
  unfold run. rewrite (@restart_eq js), (@loadPayments_eq js).
  cbn [payments_json fs_readable with_store with_file paymentsStore
       JSON_stringify JSON_parse js node].
  rewrite Hread, JSON_parse_written, (ledger_of_permutation _ _ Hlisting).
  split; reflexivity.
Qed.

(** C9 at a ledger of two jobs, one of them a placeholder whose absent
    [sessionId] is left out of the text. *)
Lemma save_then_restart_restores_ledger_witness :
  paymentsStore
    (run (@restart (node map_to_list (λ _, true) (λ _ _, true)))
         (run (@savePayments (node map_to_list (λ _, true) (λ _ _, true)))
              two_jobs))
  = paymentsStore two_jobs.
Proof.
  apply (save_then_restart_restores_ledger map_to_list (λ _, true)
           (λ _ _, true) two_jobs); reflexivity.
Defined.

(** ** C10: the result of capturePayment *)

(** C10.  In a ledger as the engine builds it, for a job whose record
    has a paymentIntentId, [capturePayment] completes with a boolean
    that is true exactly when the record is [captured] on return, and:
    - for a record already [captured] it is true and the world is
      untouched (no call to Stripe);
    - for a record in any other status than [authorized] and
      [render_succeeded] (an invalid starting state) it is false and
      the world is untouched;
    - for a record [authorized] or [render_succeeded] exactly one call,
      the capture of its reference, is sent to Stripe; when Stripe
      accepts it the boolean is true and the record [captured], when
      Stripe refuses it the boolean is false and the record
      [capture_failed]. *)
Theorem capturePayment_true_iff_captured `{Platform} jobId record pi w :
  ledger_ok (paymentsStore w) →
  paymentsStore w !! jobId = Some record →
  paymentIntentId record = Some pi →
  ∃ b, capturePayment jobId w = (Normal b, run (capturePayment jobId) w) ∧
       (b = true ↔
        status_of jobId (run (capturePayment jobId) w) = Some captured) ∧
       (status record = captured →
        b = true ∧ run (capturePayment jobId) w = w) ∧
       (status record ≠ captured → status record ≠ authorized →
        status record ≠ render_succeeded →
        b = false ∧ run (capturePayment jobId) w = w) ∧
       (status record = authorized ∨ status record = render_succeeded →
        stripe_log (run (capturePayment jobId) w)
        = stripe_log w ++ [(jobId, capture pi)] ∧
        (stripe_accepts (snd <$> stripe_log w) (capture pi) = true →
         b = true ∧
         status_of jobId (run (capturePayment jobId) w) = Some captured) ∧
        (stripe_accepts (snd <$> stripe_log w) (capture pi) = false →
         b = false ∧
         status_of jobId (run (capturePayment jobId) w)
         = Some capture_failed)).
Proof.
  intros Hok Hlook Hpi.
  pose proof (Hok _ _ Hlook) as Hrec. unfold record_ok in Hrec.
  rewrite Hpi in Hrec. destruct Hrec as [Hpne Hjne].
  unfold run. rewrite capturePayment_eq, Hlook, Hpi.
  unfold nonempty. rewrite (bool_decide_eq_true_2 _ Hpne). cbn [negb].
  case_bool_decide as Hcap.
  { cbn [snd]. exists true. unfold status_of. rewrite Hlook. cbn.
    rewrite Hcap. split; [done|]. split; [done|]. split; [done|].
    split; [done|]. intros [Hst|Hst]; discriminate. }
  case_bool_decide as Hbad.
  { cbn [snd]. exists false. unfold status_of. rewrite Hlook. cbn.
    destruct Hbad as [Hna Hnr].
    split; [done|]. split; [split; [done | by intros [= Hst]]|].
    split; [done|]. split; [done|].
    intros [Hst|Hst]; done. }
  assert (Hlogged : paymentsStore (logged jobId (capture pi) w) !! jobId
                    = Some record) by exact Hlook.
  assert (Hstart : status record = authorized ∨ status record = render_succeeded).
  { destruct (decide (status record = authorized)) as [|Hna]; [by left|].
    destruct (decide (status record = render_succeeded)) as [|Hnr];
      [by right|].
    destruct Hbad. done. }
  destruct (stripe_accepts _ _) eqn:Haccepts.
  - cbn [snd]. exists true.
    rewrite (status_of_marked _ _ _ _ Hjne Hlogged), marked_log.
    split; [done|]. split; [done|]. split; [done|].
    split; [intros _ Hna Hnr; by destruct Hstart|].
    intros _. done.
  - cbn [snd]. exists false.
    rewrite (status_of_marked _ _ _ _ Hjne Hlogged), marked_log.
    split; [done|]. split; [split; [done | by intros [=]]|].
    split; [done|].
    split; [intros _ Hna Hnr; by destruct Hstart|].
    intros _. done.
Qed.

(** C10 at an authorized record, which Stripe lets capture: one capture
    is sent and the result is true. *)
Lemma capturePayment_true_iff_captured_witness :
  ledger_ok (paymentsStore (world_with authorized)) ∧
  ∃ b, @capturePayment stripe_accepts_all "job-1" (world_with authorized)
       = (Normal b,
          run (@capturePayment stripe_accepts_all "job-1")
              (world_with authorized)) ∧
       b = true ∧
       stripe_log (run (@capturePayment stripe_accepts_all "job-1")
                       (world_with authorized))
       = [("job-1", capture "pi_1")] ∧
       status_of "job-1"
         (run (@capturePayment stripe_accepts_all "job-1")
              (world_with authorized)) = Some captured.
Proof.
  assert (ledger_ok (paymentsStore (world_with authorized))) as Hok
    by (apply map_Forall_singleton; split; discriminate).
  split; [exact Hok|].
  destruct (@capturePayment_true_iff_captured stripe_accepts_all
              "job-1" (record_in authorized) "pi_1" (world_with authorized)
              Hok eq_refl eq_refl)
    as (b & Hrun & _ & _ & _ & Hsent).
  destruct (Hsent (or_introl eq_refl)) as (Hlog & Haccepted & _).
  destruct (Haccepted eq_refl) as [Hb Hstatus].
  exists b. repeat split; assumption.
Defined.

(** * Further properties of the engine *)

(** X1.  Every entry point of the engine keeps the ledger well formed: a
    reference, once stored, is a non-empty string under a non-empty
    jobId, and every [authorized] record has one. *)
Theorem engine_keeps_ledger_ok `{Platform} w :
  ledger_ok (paymentsStore w) →
  (∀ request, ledger_ok (paymentsStore (run (stripe_webhook request) w))) ∧
  (∀ jobId success,
     ledger_ok (paymentsStore (run (handleJobCompletion jobId success) w))) ∧
  ledger_ok (paymentsStore (run cleanupStuckAuthorizations w)).
Proof.
  intros Hok. split; [|split].
  - intros request. apply stripe_webhook_ledger_ok. done.
  - intros jobId success. apply handleJobCompletion_ledger_ok. done.
  - apply sweep_ledger_ok. done.
Qed.

Lemma engine_keeps_ledger_ok_witness :
  ledger_ok
    (paymentsStore
       (run (@deliver_all stripe_accepts_all
               [notifyOutcome "job-1" true;
                notifyAuthorization "job-1" "pi_1" "sess_1"]) fresh_world)).
Proof.
  rewrite run_deliver_all_cons, run_deliver_all_cons, run_deliver_all_nil.
  rewrite run_notifyAuthorization.
  apply (@engine_keeps_ledger_ok stripe_accepts_all).
  apply (@engine_keeps_ledger_ok stripe_accepts_all fresh_world ledger_ok_empty).
Defined.

(** X2.  For a job whose jobId names nothing the ledger inherits, the
    first delivery of its two notices, in either order, sends exactly
    one call to Stripe, the capture for a success and the cancel for a
    failure, and the record ends in the status that the answer of
    Stripe to that call decides: the same in both orders. *)
Theorem first_delivery_settles_once `{Platform} (success : bool) jobId ref sess w ns :
  own_name jobId →
  paymentsStore w !! jobId = None → jobId ≠ "" → ref ≠ "" →
  ns = [notifyOutcome jobId success; notifyAuthorization jobId ref sess] ∨
  ns = [notifyAuthorization jobId ref sess; notifyOutcome jobId success] →
  let call := if success then capture ref else cancel ref in
  let w' := run (deliver_all ns) w in
  stripe_log w' = stripe_log w ++ [(jobId, call)] ∧
  status_of jobId w' =
    Some (if stripe_accepts (snd <$> stripe_log w) call
          then (if success then captured else canceled)
          else (if success then capture_failed else cancel_failed)).
Proof.
  intros _ Hfresh Hj Hr [-> | ->].
  - apply outcome_then_authorization; done.
  - apply authorization_then_outcome; done.
Qed.

(** The scenario of the specification: the failure of job-2 arrives
    before its authorization. *)
Lemma first_delivery_settles_once_witness :
  own_name "job-2" ∧
  stripe_log
    (run (@deliver_all stripe_accepts_all
            [notifyOutcome "job-2" false;
             notifyAuthorization "job-2" "pi_2" "sess_2"]) fresh_world)
  = [("job-2", cancel "pi_2")] ∧
  status_of "job-2"
    (run (@deliver_all stripe_accepts_all
            [notifyOutcome "job-2" false;
             notifyAuthorization "job-2" "pi_2" "sess_2"]) fresh_world)
  = Some canceled.
Proof.
  assert (own_name "job-2") as Hown
    by (apply (bool_decide_unpack _); vm_compute; exact I).
  split; [exact Hown|].
  apply (@first_delivery_settles_once stripe_accepts_all false
           "job-2" "pi_2" "sess_2" fresh_world _ Hown eq_refl);
    [discriminate | discriminate | left; reflexivity].
Defined.


(** X4.  An authorization notice delivered again, for a job whose record
    is not a placeholder ([authorized] already, or settled), is a no-op:
    the world is unchanged and nothing is sent to Stripe. *)
Theorem duplicate_authorization_is_noop `{Platform} jobId record ref sess w :
  paymentsStore w !! jobId = Some record →
  status record ≠ render_succeeded → status record ≠ render_failed →
  deliver (notifyAuthorization jobId ref sess) w = (Normal tt, w).
Proof.
  intros Hlook Hrs Hrf. cbn [deliver]. rewrite bind_eq.
  rewrite (checkout_completed_settled _ jobId record) by done.
  reflexivity.
Qed.

Lemma duplicate_authorization_is_noop_witness :
  @deliver stripe_accepts_all (notifyAuthorization "job-1" "pi_9" "sess_9")
    (world_with authorized)
  = (Normal tt, world_with authorized).
Proof.
  apply (@duplicate_authorization_is_noop stripe_accepts_all
           "job-1" (record_in authorized) "pi_9" "sess_9"
           (world_with authorized) eq_refl);
    discriminate.
Defined.

(** * More of the server *)

(** ** The manual job completion endpoint *)

Section Completion.
Context `{Platform}.

Lemma capturePayment_cases jobId w :
  run (capturePayment jobId) w = w ∨
  ∃ pi st, run (capturePayment jobId) w =
             run (markJobStatus jobId st) (logged jobId (capture pi) w).
Proof.
  unfold run at 1 2. rewrite capturePayment_eq.
  repeat case_match; eauto.
Qed.

Lemma marked_is_Some jobId other st w :
  is_Some (paymentsStore w !! other) →
  is_Some (paymentsStore (run (markJobStatus jobId st) w) !! other).
Proof.
  intros Hsome. rewrite marked_store.
  destruct (nonempty jobId); [|done].
  destruct (paymentsStore w !! jobId) eqn:Hlook; [|done].
  destruct (decide (jobId = other)) as [->|Hne].
  - rewrite lookup_insert_eq. eauto.
  - rewrite lookup_insert_ne by done. done.
Qed.

Lemma handleJobCompletion_leaves_record jobId success w :
  is_Some (paymentsStore (run (handleJobCompletion jobId success) w) !! jobId).
Proof.
  unfold run at 1. rewrite handleJobCompletion_eq. cbn zeta.
  destruct (truthy _) eqn:Href; cbn [snd].
  - assert (Hsome : is_Some (paymentsStore w !! jobId)).
    { destruct (paymentsStore w !! jobId); [eauto|discriminate]. }
    set (st := if success then render_succeeded else render_failed).
    pose proof (marked_is_Some jobId jobId st w Hsome) as Hmarked.
    destruct success.
    + destruct (capturePayment_cases jobId (run (markJobStatus jobId st) w))
        as [-> | (pi & st' & ->)]; [done|].
      apply marked_is_Some. exact Hmarked.
    + destruct (cancelPayment_cases jobId (run (markJobStatus jobId st) w))
        as [-> | (pi & st' & ->)]; [done|].
      apply marked_is_Some. exact Hmarked.
  - unfold run. rewrite recordJobCompletion_eq.
    destruct (paymentsStore w !! jobId) eqn:Hlook.
    + apply marked_is_Some. rewrite Hlook. eauto.
    + cbn [snd]. rewrite saved_store. cbn [paymentsStore with_store].
      rewrite lookup_insert_eq. eauto.
Qed.

End Completion.

(** X5.  POST /jobs/:jobId/complete answers 400 and changes nothing when
    the jobId is empty or the status is neither "success" nor "failed".
    Otherwise it delivers the outcome and answers with the status of the
    record of the job, which always exists by then: the fallback
    "unknown" is never sent. *)
Theorem jobs_complete_reports_status `{Platform} jobId body_status w :
  (jobId = "" ∨
   (body_status ≠ Some "success" ∧ body_status ≠ Some "failed") →
   ∃ error, jobs_complete jobId body_status w = (Normal (bad_request error), w)) ∧
  (jobId ≠ "" →
   ∀ success : bool,
     body_status = Some (if success then "success" else "failed") →
     ∃ st,
       jobs_complete jobId body_status w =
         (Normal (completion_reported jobId (Some st)),
          run (handleJobCompletion jobId success) w) ∧
       status_of jobId (run (handleJobCompletion jobId success) w) = Some st).
Proof.
  split.
  - intros Hbad. unfold jobs_complete, nonempty.
    case_bool_decide as Hj; cbn [negb].
    + destruct Hbad as [->|Hstatus]; [done|].
      rewrite bool_decide_eq_true_2 by done. eauto.
    + eauto.
  - intros Hj success ->. unfold jobs_complete, nonempty.
    rewrite (bool_decide_eq_true_2 _ Hj). cbn [negb].
    rewrite bool_decide_eq_false_2
      by (intros [? ?]; destruct success; done).
    assert (Hflag : bool_decide
              (Some (if success then "success" else "failed")
               = Some "success") = success)
      by (destruct success; reflexivity).
    rewrite Hflag, bind_eq, handleJobCompletion_normal.
    rewrite bind_eq, getPayment_eq.
    destruct (handleJobCompletion_leaves_record jobId success w)
      as [record Hrecord].
    exists (status record). unfold status_of. rewrite Hrecord. done.
Qed.

(** ** Every change of the ledger is written to payments.json *)

Section Flush.
Context `{Platform}.

Lemma flushed_refl w : flushed w w.
Proof. left. done. Qed.

Lemma flushed_trans w1 w2 w3 : flushed w1 w2 → flushed w2 w3 → flushed w1 w3.
Proof.
  intros H12 [[Hs Hf]|Hsync]; [|right; done].
  destruct H12 as [[Hs' Hf']|Hsync].
  - left. split; congruence.
  - right. unfold in_sync in *. congruence.
Qed.

Lemma saved_writable w : fs_writable (saved w) = fs_writable w.
Proof. rewrite saved_eq. destruct (fs_writable w) eqn:Hw; done. Qed.

Lemma saved_in_sync w : fs_writable w = true → in_sync (saved w).
Proof. intros Hw. rewrite saved_eq, Hw. reflexivity. Qed.

Lemma marked_writable jobId st w :
  fs_writable (run (markJobStatus jobId st) w) = fs_writable w.
Proof.
  unfold run. rewrite markJobStatus_eq.
  destruct (nonempty jobId); [|done].
  destruct (paymentsStore w !! jobId); [|done].
  cbn [snd]. rewrite saved_writable. done.
Qed.

Lemma marked_flushed jobId st w :
  fs_writable w = true → flushed w (run (markJobStatus jobId st) w).
Proof.
  intros Hw. unfold run. rewrite markJobStatus_eq.
  destruct (nonempty jobId); [|apply flushed_refl].
  destruct (paymentsStore w !! jobId); [|apply flushed_refl].
  right. apply saved_in_sync. exact Hw.
Qed.

Lemma capturePayment_writable jobId w :
  fs_writable (run (capturePayment jobId) w) = fs_writable w.
Proof.
  destruct (capturePayment_cases jobId w) as [-> | (pi & st & ->)]; [done|].
  rewrite marked_writable. done.
Qed.

Lemma cancelPayment_writable jobId w :
  fs_writable (run (cancelPayment jobId) w) = fs_writable w.
Proof.
  destruct (cancelPayment_cases jobId w) as [-> | (pi & st & ->)]; [done|].
  rewrite marked_writable. done.
Qed.

Lemma capturePayment_flushed jobId w :
  fs_writable w = true → flushed w (run (capturePayment jobId) w).
Proof.
  intros Hw.
  destruct (capturePayment_cases jobId w) as [-> | (pi & st & ->)];
    [apply flushed_refl|].
  apply (flushed_trans _ (logged jobId (capture pi) w));
    [left; done | apply marked_flushed; done].
Qed.

Lemma cancelPayment_flushed jobId w :
  fs_writable w = true → flushed w (run (cancelPayment jobId) w).
Proof.
  intros Hw.
  destruct (cancelPayment_cases jobId w) as [-> | (pi & st & ->)];
    [apply flushed_refl|].
  apply (flushed_trans _ (logged jobId (cancel pi) w));
    [left; done | apply marked_flushed; done].
Qed.

Lemma handleJobCompletion_flushed jobId success w :
  fs_writable w = true →
  flushed w (run (handleJobCompletion jobId success) w).
Proof.
  intros Hw. unfold run at 1. rewrite handleJobCompletion_eq. cbn zeta.
  destruct (truthy _); cbn [snd].
  - set (st := if success then render_succeeded else render_failed).
    apply (flushed_trans _ (run (markJobStatus jobId st) w));
      [apply marked_flushed; done|].
    destruct success.
    + apply capturePayment_flushed. rewrite marked_writable. done.
    + apply cancelPayment_flushed. rewrite marked_writable. done.
  - unfold run. rewrite recordJobCompletion_eq.
    destruct (paymentsStore w !! jobId).
    + apply marked_flushed. done.
    + right. apply saved_in_sync. done.
Qed.

Lemma stripe_webhook_flushed request w :
  fs_writable w = true → flushed w (run (stripe_webhook request) w).
Proof.
  intros Hw.
  destruct request as [[session|session|session| |]|];
    try apply flushed_refl.
  - destruct (truthy (metadata_jobId session) && truthy (payment_intent session))
      eqn:Hboth.
    + apply andb_true_iff in Hboth as [Hj Hp].
      destruct (metadata_jobId session) as [jobId|] eqn:Ej; [|discriminate].
      destruct (payment_intent session) as [pi|] eqn:Ep; [|discriminate].
      cbn in Hj, Hp. apply bool_decide_eq_true_1 in Hj, Hp.
      unfold run at 1.
      rewrite (checkout_completed_eq session jobId pi) by done. cbn [snd].
      destruct (paymentsStore w !! jobId) as [record|] eqn:Hlook.
      * cbn zeta.
        set (w1 := saved (with_store _ w)).
        assert (Hsync : flushed w w1)
          by (right; apply saved_in_sync; exact Hw).
        assert (Hw1 : fs_writable w1 = true)
          by (unfold w1; rewrite saved_writable; exact Hw).
        destruct (status record); try apply flushed_refl.
        -- apply (flushed_trans _ w1); [done|].
           apply capturePayment_flushed. done.
        -- apply (flushed_trans _ w1); [done|].
           apply cancelPayment_flushed. done.
      * unfold run. rewrite recordPayment_eq, Hlook.
        unfold nonempty. rewrite (bool_decide_eq_true_2 _ Hj). cbn [snd].
        right. apply saved_in_sync. done.
    + unfold run. rewrite checkout_completed_ignored by done.
      apply flushed_refl.
  - unfold run at 1. rewrite async_payment_failed_eq. cbn [snd].
    destruct (metadata_jobId session); [|apply flushed_refl].
    apply marked_flushed. done.
Qed.

Lemma visited_writable now jobId w :
  fs_writable (visited now jobId w) = fs_writable w.
Proof.
  unfold visited. destruct (paymentsStore w !! jobId); [|done].
  case_bool_decide; [|done]. apply cancelPayment_writable.
Qed.

Lemma visited_flushed now jobId w :
  fs_writable w = true → flushed w (visited now jobId w).
Proof.
  intros Hw. unfold visited.
  destruct (paymentsStore w !! jobId); [|apply flushed_refl].
  case_bool_decide; [|apply flushed_refl].
  apply cancelPayment_flushed. done.
Qed.

Lemma visits_flushed now (entries : list (string * PaymentRecord)) w :
  fs_writable w = true →
  flushed w (foldl (λ w0 entry, visited now entry.1 w0) w entries).
Proof.
  revert w. induction entries as [|[jobId snapshot] rest IH]; intros w Hw.
  { apply flushed_refl. }
  cbn [foldl fst].
  apply (flushed_trans _ (visited now jobId w)).
  - apply visited_flushed. done.
  - apply IH. rewrite visited_writable. done.
Qed.

Lemma sweep_flushed w :
  fs_writable w = true → flushed w (run cleanupStuckAuthorizations w).
Proof.
  intros Hw. unfold run. rewrite cleanupStuckAuthorizations_eq. cbn [snd].
  apply visits_flushed. done.
Qed.

End Flush.

(** X6.  While payments.json can be written, every entry point of the
    engine leaves the ledger and the file as they were, or leaves the
    file holding the text of the ledger in memory: no change of the
    ledger stays unwritten when a handler returns. *)
Theorem engine_flushes_every_change `{Platform} w :
  fs_writable w = true →
  (∀ request, flushed w (run (stripe_webhook request) w)) ∧
  (∀ jobId success, flushed w (run (handleJobCompletion jobId success) w)) ∧
  flushed w (run cleanupStuckAuthorizations w).
Proof.
  intros Hw. split; [|split].
  - intros request. apply stripe_webhook_flushed. done.
  - intros jobId success. apply handleJobCompletion_flushed. done.
  - apply sweep_flushed. done.
Qed.

Lemma engine_flushes_every_change_witness :
  payments_json
    (run (@handleJobCompletion stripe_accepts_all "job-1" true) fresh_world)
  = Some (json_of_ledger
            (paymentsStore
               (run (@handleJobCompletion stripe_accepts_all "job-1" true)
                    fresh_world))).
Proof.
  destruct (@engine_flushes_every_change stripe_accepts_all fresh_world eq_refl)
    as (_ & Houtcome & _).
  destruct (Houtcome "job-1" true) as [[Hsame _]|Hsync].
  - exfalso. revert Hsame. vm_compute. discriminate.
  - exact Hsync.
Defined.

(** ** What a sweep does to the whole ledger *)

Section SweepWhole.
Context `{Platform}.

Lemma visited_not_stale now jobId record w :
  paymentsStore w !! jobId = Some record →
  ¬ stale now record →
  visited now jobId w = w.
Proof.
  intros Hlook Hfresh. unfold visited. rewrite Hlook.
  rewrite bool_decide_eq_false_2; done.
Qed.

(** Entries of other jobs, and every entry of a job that is not a
    stale authorization, leave the job as it is. *)
Lemma visits_leave_fresh now jobId (entries : list (string * PaymentRecord)) w :
  (jobId ∉ entries.*1 ∨
   ∃ record, paymentsStore w !! jobId = Some record ∧ ¬ stale now record) →
  let w' := foldl (λ w0 entry, visited now entry.1 w0) w entries in
  paymentsStore w' !! jobId = paymentsStore w !! jobId ∧
  calls_for jobId (stripe_log w') = calls_for jobId (stripe_log w).
Proof.
  cbn zeta. revert w.
  induction entries as [|[other snapshot] rest IH]; intros w Hcase; [done|].
  cbn [foldl fst].
  destruct (decide (other = jobId)) as [->|Hne].
  - destruct Hcase as [Hnot|(record & Hlook & Hfresh)].
    { exfalso. apply Hnot. cbn. left. }
    rewrite (visited_not_stale _ _ _ _ Hlook Hfresh).
    apply IH. right. eauto.
  - destruct (visited_other now other jobId w) as [Hstore Hcalls]; [done|].
    rewrite <- Hstore, <- Hcalls. apply IH.
    destruct Hcase as [Hnot|(record & Hlook & Hfresh)].
    + left. intros Hin. apply Hnot. cbn. right. done.
    + right. exists record. rewrite Hstore. done.
Qed.

(** The record of a job after the sweep is its record after its own
    visit, made in a world where it is still as the sweep found it. *)
Lemma sweep_visits_once jobId record w :
  paymentsStore w !! jobId = Some record →
  ∃ w1,
    paymentsStore w1 !! jobId = Some record ∧
    paymentsStore (run cleanupStuckAuthorizations w) !! jobId =
      paymentsStore (visited (clock w) jobId w1) !! jobId.
Proof.
  intros Hlook. unfold run. rewrite cleanupStuckAuthorizations_eq. cbn [snd].
  assert (Hin : (jobId, record) ∈ map_to_list (paymentsStore w))
    by (apply elem_of_map_to_list; done).
  apply list_elem_of_split in Hin as (l1 & l2 & Hsplit).
  pose proof (NoDup_fst_map_to_list (paymentsStore w)) as Hnodup.
  rewrite Hsplit in Hnodup |- *. rewrite fmap_app in Hnodup. cbn in Hnodup.
  apply NoDup_app in Hnodup as (_ & Hl1 & Hl2).
  apply NoDup_cons in Hl2 as [Hl2 _].
  assert (Hnot1 : jobId ∉ l1.*1).
  { intros Hin1. apply (Hl1 _ Hin1). left. }
  rewrite foldl_app. cbn [foldl fst].
  set (w1 := foldl (λ w0 entry, visited (clock w) entry.1 w0) w l1).
  exists w1. split.
  - destruct (visits_leave_fresh (clock w) jobId l1 w (or_introl Hnot1))
      as [Hsame _]. fold w1 in Hsame. rewrite Hsame. exact Hlook.
  - destruct (visits_leave_fresh (clock w) jobId l2
                (visited (clock w) jobId w1) (or_introl Hl2)) as [Hsame _].
    exact Hsame.
Qed.

Lemma sweep_creates_nothing jobId w :
  paymentsStore w !! jobId = None →
  paymentsStore (run cleanupStuckAuthorizations w) !! jobId = None.
Proof.
  intros Hnone. unfold run. rewrite cleanupStuckAuthorizations_eq. cbn [snd].
  destruct (visits_leave_fresh (clock w) jobId
              (map_to_list (paymentsStore w)) w) as [-> _]; [|done].
  left. intros Hin. apply list_elem_of_fmap in Hin as ([j r] & -> & Hin).
  apply elem_of_map_to_list in Hin. cbn in Hnone. congruence.
Qed.

End SweepWhole.

(** X7.  After a sweep over a ledger as the engine builds it, no record
    is both [authorized] and older than the timeout (ages taken at the
    start of the sweep): every hold past the timeout has been sent to
    Stripe for cancelling and is [canceled] or [cancel_failed]. *)
Theorem sweep_leaves_no_stale_authorization `{Platform} w jobId record :
  ledger_ok (paymentsStore w) →
  paymentsStore (run cleanupStuckAuthorizations w) !! jobId = Some record →
  ¬ stale (clock w) record.
Proof.
  intros Hok Hafter.
  destruct (paymentsStore w !! jobId) as [record0|] eqn:Hlook.
  - destruct (sweep_visits_once jobId record0 w Hlook) as (w1 & Hlook1 & Heq).
    rewrite Heq in Hafter. unfold visited in Hafter. rewrite Hlook1 in Hafter.
    case_bool_decide as Hstale.
    + pose proof (Hok _ _ Hlook) as Hrec. unfold record_ok in Hrec.
      destruct Hstale as [Hst Hage].
      destruct (paymentIntentId record0) as [pi|] eqn:Hpi; [|done].
      destruct Hrec as [Hpne Hjne].
      rewrite (cancel_issued _ _ pi _ Hlook1 Hpi Hpne (or_introl Hst))
        in Hafter.
      rewrite (lookup_marked _ _ record0) in Hafter by done.
      injection Hafter as <-. intros [Hauth _]. cbn in Hauth.
      destruct (stripe_accepts _ _); discriminate.
    + rewrite Hlook1 in Hafter. injection Hafter as <-. exact Hstale.
  - rewrite (sweep_creates_nothing _ _ Hlook) in Hafter. discriminate.
Qed.

Lemma sweep_leaves_no_stale_authorization_witness :
  bool_decide
    (stale (clock (world_with authorized))
       (touched (record_in authorized) canceled
          (clock (world_with authorized)))) = false.
Proof.
  apply bool_decide_eq_false_2.
  apply (@sweep_leaves_no_stale_authorization stripe_accepts_all
           (world_with authorized) "job-1").
  - apply map_Forall_singleton. split; discriminate.
  - vm_compute. reflexivity.
Defined.

Section SweepCalls.
Context `{Platform}.

Lemma cancelPayment_log jobId w :
  stripe_log (run (cancelPayment jobId) w) = stripe_log w ∨
  ∃ record pi,
    paymentsStore w !! jobId = Some record ∧
    paymentIntentId record = Some pi ∧
    stripe_log (run (cancelPayment jobId) w) =
      stripe_log w ++ [(jobId, cancel pi)].
Proof.
  unfold run. rewrite cancelPayment_eq.
  destruct (paymentsStore w !! jobId) as [record|]; [|left; done].
  destruct (paymentIntentId record) as [pi|] eqn:Hpi; [|left; done].
  repeat case_match; try (left; done);
    right; exists record, pi; cbn [snd]; rewrite marked_log; done.
Qed.

Lemma visits_log now w0 (entries : list (string * PaymentRecord)) w :
  NoDup entries.*1 →
  (∀ jobId, jobId ∈ entries.*1 →
     paymentsStore w !! jobId = paymentsStore w0 !! jobId) →
  ∃ more,
    stripe_log (foldl (λ w1 entry, visited now entry.1 w1) w entries) =
      stripe_log w ++ more ∧
    (∀ jobId, jobId ∈ more.*1 → jobId ∈ entries.*1) ∧
    NoDup more.*1 ∧
    Forall (λ call, ∃ record pi,
              paymentsStore w0 !! call.1 = Some record ∧
              stale now record ∧
              paymentIntentId record = Some pi ∧
              call.2 = cancel pi) more.
Proof.
  revert w. induction entries as [|[jobId snapshot] rest IH];
    intros w Hnodup Hsame.
  { exists []. rewrite app_nil_r.
    split; [done|]. split; [done|]. split; constructor. }
  cbn in Hnodup. apply NoDup_cons in Hnodup as [Hfresh Hnodup].
  cbn [foldl fst].
  destruct (IH (visited now jobId w) Hnodup) as (more & Hlog & Hin & Hnd & Hall).
  { intros other Hother.
    destruct (visited_other now jobId other w) as [-> _].
    - intros ->. done.
    - apply Hsame. cbn. right. done. }
  rewrite Hlog.
  assert (Hstep :
    stripe_log (visited now jobId w) = stripe_log w ∨
    ∃ record pi,
      paymentsStore w0 !! jobId = Some record ∧ stale now record ∧
      paymentIntentId record = Some pi ∧
      stripe_log (visited now jobId w) = stripe_log w ++ [(jobId, cancel pi)]).
  { unfold visited.
    destruct (paymentsStore w !! jobId) as [record|] eqn:Hlook; [|left; done].
    case_bool_decide as Hstale; [|left; done].
    destruct (cancelPayment_log jobId w) as [->|(record' & pi & Hl & Hpi & ->)];
      [left; done|].
    right. exists record, pi. rewrite Hlook in Hl. injection Hl as <-.
    rewrite <- (Hsame jobId) by (cbn; left). done. }
  destruct Hstep as [->|(record & pi & Hlook0 & Hstale & Hpi & ->)].
  - exists more. split; [done|]. split; [|done].
    intros other Hother. cbn. right. apply Hin. done.
  - exists ((jobId, cancel pi) :: more). rewrite <- app_assoc.
    split; [done|]. split; [|split].
    + intros other Hother. cbn in Hother |- *.
      apply elem_of_cons in Hother as [->|Hother]; [left|right; apply Hin; done].
    + cbn. apply NoDup_cons. split; [|done].
      intros Hdup. apply Hfresh, Hin, Hdup.
    + constructor; [|done]. exists record, pi. done.
Qed.

End SweepCalls.

(** X8.  A sweep only ever cancels: each call it sends to Stripe is the
    cancel of the PaymentIntent of a job whose record was [authorized]
    and older than the timeout when the sweep started, at most one call
    per job.  Every record that was not such a stale authorization is
    exactly as before, and no record is created. *)
Theorem sweep_only_cancels_stale `{Platform} w :
  let w' := run cleanupStuckAuthorizations w in
  (∃ more,
     stripe_log w' = stripe_log w ++ more ∧
     NoDup more.*1 ∧
     Forall (λ call, ∃ record pi,
               paymentsStore w !! call.1 = Some record ∧
               stale (clock w) record ∧
               paymentIntentId record = Some pi ∧
               call.2 = cancel pi) more) ∧
  (∀ jobId record,
     paymentsStore w !! jobId = Some record →
     ¬ stale (clock w) record →
     paymentsStore w' !! jobId = Some record) ∧
  (∀ jobId,
     paymentsStore w !! jobId = None → paymentsStore w' !! jobId = None).
Proof.
  cbn zeta. split; [|split].
  - unfold run. rewrite cleanupStuckAuthorizations_eq. cbn [snd].
    destruct (visits_log (clock w) w (map_to_list (paymentsStore w)) w)
      as (more & Hlog & _ & Hnd & Hall).
    + apply NoDup_fst_map_to_list.
    + done.
    + exists more. done.
  - intros jobId record Hlook Hfresh. unfold run.
    rewrite cleanupStuckAuthorizations_eq. cbn [snd].
    destruct (visits_leave_fresh (clock w) jobId
                (map_to_list (paymentsStore w)) w) as [-> _]; [|done].
    right. eauto.
  - intros jobId. apply sweep_creates_nothing.
Qed.

(** ** Records are kept, references are written once *)

Lemma kept_refl w : kept w w.
Proof. intros jobId record Hlook. exists record. done. Qed.

Lemma kept_trans w1 w2 w3 : kept w1 w2 → kept w2 w3 → kept w1 w3.
Proof.
  intros H12 H23 jobId record Hlook.
  destruct (H12 _ _ Hlook) as (record2 & Hlook2 & Hcreated2 & Href2).
  destruct (H23 _ _ Hlook2) as (record3 & Hlook3 & Hcreated3 & Href3).
  exists record3. split; [done|]. split; [congruence|].
  intros Hsome. destruct (Href2 Hsome) as [Hpi Hsess].
  destruct Href3 as [Hpi3 Hsess3]; [rewrite Hpi; done|].
  split; congruence.
Qed.

Lemma kept_same_store w w' :
  paymentsStore w' = paymentsStore w → kept w w'.
Proof.
  intros Hsame jobId record Hlook. exists record. rewrite Hsame. done.
Qed.

Lemma kept_insert_new jobId record w w' :
  paymentsStore w !! jobId = None →
  paymentsStore w' = <[jobId := record]> (paymentsStore w) →
  kept w w'.
Proof.
  intros Hnone Hstore other record0 Hlook. exists record0.
  rewrite Hstore, lookup_insert_ne by congruence. done.
Qed.

Lemma kept_insert_update jobId record record' w w' :
  paymentsStore w !! jobId = Some record →
  paymentsStore w' = <[jobId := record']> (paymentsStore w) →
  createdAt record' = createdAt record →
  (is_Some (paymentIntentId record) →
   paymentIntentId record' = paymentIntentId record ∧
   sessionId record' = sessionId record) →
  kept w w'.
Proof.
  intros Hlook Hstore Hcreated Href other record0 Hlook0.
  rewrite Hstore.
  destruct (decide (jobId = other)) as [->|Hne].
  - exists record'. rewrite lookup_insert_eq.
    rewrite Hlook in Hlook0. injection Hlook0 as <-. done.
  - exists record0. rewrite lookup_insert_ne by done. done.
Qed.

Lemma placeholder_ok_touched record st now :
  st ≠ render_succeeded → st ≠ render_failed →
  placeholder_ok (touched record st now).
Proof. intros Hs Hf [Hst|Hst]; cbn in Hst; congruence. Qed.

Section Kept.
Context `{Platform}.

Lemma marked_kept jobId st w : kept w (run (markJobStatus jobId st) w).
Proof.
  pose proof (marked_store jobId st w) as Hstore.
  destruct (nonempty jobId); [|apply kept_same_store; done].
  destruct (paymentsStore w !! jobId) as [record|] eqn:Hlook;
    [|apply kept_same_store; done].
  apply (kept_insert_update jobId record (touched record st (clock w)));
    done.
Qed.

Lemma capturePayment_kept jobId w : kept w (run (capturePayment jobId) w).
Proof.
  destruct (capturePayment_cases jobId w) as [-> | (pi & st & ->)];
    [apply kept_refl|].
  apply (kept_trans _ (logged jobId (capture pi) w));
    [apply kept_same_store; done | apply marked_kept].
Qed.

Lemma cancelPayment_kept jobId w : kept w (run (cancelPayment jobId) w).
Proof.
  destruct (cancelPayment_cases jobId w) as [-> | (pi & st & ->)];
    [apply kept_refl|].
  apply (kept_trans _ (logged jobId (cancel pi) w));
    [apply kept_same_store; done | apply marked_kept].
Qed.

Lemma handleJobCompletion_kept jobId success w :
  kept w (run (handleJobCompletion jobId success) w).
Proof.
  unfold run at 1. rewrite handleJobCompletion_eq. cbn zeta.
  destruct (truthy _); cbn [snd].
  - set (st := if success then render_succeeded else render_failed).
    apply (kept_trans _ (run (markJobStatus jobId st) w)); [apply marked_kept|].
    destruct success; [apply capturePayment_kept | apply cancelPayment_kept].
  - unfold run. rewrite recordJobCompletion_eq.
    destruct (paymentsStore w !! jobId) eqn:Hlook; [apply marked_kept|].
    cbn [snd]. eapply kept_insert_new; [exact Hlook|].
    rewrite saved_store. reflexivity.
Qed.

Lemma stripe_webhook_kept request w :
  ledger_settled (paymentsStore w) →
  kept w (run (stripe_webhook request) w).
Proof.
  intros Hsettled.
  destruct request as [[session|session|session| |]|]; try apply kept_refl.
  - destruct (truthy (metadata_jobId session) && truthy (payment_intent session))
      eqn:Hboth.
    + apply andb_true_iff in Hboth as [Hj Hp].
      destruct (metadata_jobId session) as [jobId|] eqn:Ej; [|discriminate].
      destruct (payment_intent session) as [pi|] eqn:Ep; [|discriminate].
      cbn in Hj, Hp. apply bool_decide_eq_true_1 in Hj, Hp.
      unfold run at 1.
      rewrite (checkout_completed_eq session jobId pi) by done. cbn [snd].
      destruct (paymentsStore w !! jobId) as [record|] eqn:Hlook.
      * cbn zeta. set (w1 := saved (with_store _ w)).
        assert (Hattach : status record = render_succeeded ∨
                          status record = render_failed → kept w w1).
        { intros Hpending.
          apply (kept_insert_update jobId record
                   (attached record (Some pi) (session_id session)));
            [done | unfold w1; rewrite saved_store; done | done |].
          rewrite (Hsettled _ _ Hlook Hpending). intros [? [=]]. }
        destruct (status record); try apply kept_refl.
        -- apply (kept_trans _ w1); [apply Hattach; left; done|].
           apply capturePayment_kept.
        -- apply (kept_trans _ w1); [apply Hattach; right; done|].
           apply cancelPayment_kept.
      * unfold run. rewrite recordPayment_eq, Hlook.
        unfold nonempty. rewrite (bool_decide_eq_true_2 _ Hj). cbn [snd].
        eapply kept_insert_new; [exact Hlook|].
        rewrite saved_store. reflexivity.
    + unfold run. rewrite checkout_completed_ignored by done. apply kept_refl.
  - unfold run at 1. rewrite async_payment_failed_eq. cbn [snd].
    destruct (metadata_jobId session); [|apply kept_refl].
    apply marked_kept.
Qed.

Lemma sweep_kept w : kept w (run cleanupStuckAuthorizations w).
Proof.
  unfold run. rewrite cleanupStuckAuthorizations_eq. cbn [snd].
  generalize (clock w) as now. intros now.
  generalize (map_to_list (paymentsStore w)) as entries. intros entries.
  assert (Hgen : ∀ w0,
    kept w0 (foldl (λ w1 entry, visited now entry.1 w1) w0 entries)).
  { induction entries as [|[jobId snapshot] rest IH]; intros w0;
      [apply kept_refl|].
    cbn [foldl fst]. apply (kept_trans _ (visited now jobId w0)); [|apply IH].
    unfold visited. destruct (paymentsStore w0 !! jobId); [|apply kept_refl].
    case_bool_decide; [apply cancelPayment_kept | apply kept_refl]. }
  apply Hgen.
Qed.

End Kept.

Section Settled.
Context `{Platform}.

Lemma marked_settled jobId st w :
  st ≠ render_succeeded → st ≠ render_failed →
  ledger_settled (paymentsStore w) →
  ledger_settled (paymentsStore (run (markJobStatus jobId st) w)).
Proof.
  intros Hs Hf Hsettled. rewrite marked_store.
  destruct (nonempty jobId); [|done].
  destruct (paymentsStore w !! jobId); [|done].
  apply map_Forall_insert_2; [|done].
  apply placeholder_ok_touched; done.
Qed.

Lemma capturePayment_settled jobId w :
  ledger_settled (paymentsStore w) →
  ledger_settled (paymentsStore (run (capturePayment jobId) w)).
Proof.
  intros Hsettled. unfold run. rewrite capturePayment_eq.
  repeat case_match; try done; cbn [snd]; by apply marked_settled.
Qed.

Lemma cancelPayment_settled jobId w :
  ledger_settled (paymentsStore w) →
  ledger_settled (paymentsStore (run (cancelPayment jobId) w)).
Proof.
  intros Hsettled. unfold run. rewrite cancelPayment_eq.
  repeat case_match; try done; cbn [snd]; by apply marked_settled.
Qed.

(** The ledger after the call that settles a job. *)
Lemma settlement_store (success : bool) jobId record pi w :
  paymentsStore w !! jobId = Some record →
  paymentIntentId record = Some pi → pi ≠ "" → jobId ≠ "" →
  status record = authorized ∨
  status record = (if success then render_succeeded else render_failed) →
  ∃ st, st ≠ render_succeeded ∧ st ≠ render_failed ∧
    paymentsStore (run (if success then capturePayment jobId
                        else cancelPayment jobId) w) =
      <[jobId := touched record st (clock w)]> (paymentsStore w).
Proof.
  intros Hlook Hpi Hpne Hjne Hst. destruct success.
  - rewrite (capture_issued _ _ _ _ Hlook Hpi Hpne Hst), marked_store.
    unfold nonempty. rewrite (bool_decide_eq_true_2 _ Hjne).
    cbn [paymentsStore logged clock]. rewrite Hlook.
    eexists. split; [|split; [|reflexivity]];
      destruct (stripe_accepts _ _); done.
  - rewrite (cancel_issued _ _ _ _ Hlook Hpi Hpne Hst), marked_store.
    unfold nonempty. rewrite (bool_decide_eq_true_2 _ Hjne).
    cbn [paymentsStore logged clock]. rewrite Hlook.
    eexists. split; [|split; [|reflexivity]];
      destruct (stripe_accepts _ _); done.
Qed.

Lemma handleJobCompletion_settled jobId success w :
  ledger_ok (paymentsStore w) →
  ledger_settled (paymentsStore w) →
  ledger_settled (paymentsStore (run (handleJobCompletion jobId success) w)).
Proof.
  intros Hok Hsettled. unfold run at 1.
  rewrite handleJobCompletion_eq. cbn zeta.
  set (rs := if success then render_succeeded else render_failed).
  destruct (paymentsStore w !! jobId) as [record|] eqn:Hlook.
  - pose proof (Hok _ _ Hlook) as Hrec. unfold record_ok in Hrec.
    cbn [mbind option_bind].
    destruct (paymentIntentId record) as [pi|] eqn:Hpi.
    + destruct Hrec as [Hpne Hjne]. cbn [truthy].
      rewrite (bool_decide_eq_true_2 _ Hpne). cbn [snd].
      pose proof (lookup_marked jobId rs record w Hjne Hlook) as Hmarked.
      destruct (settlement_store success jobId _ pi _ Hmarked Hpi Hpne Hjne
                  (or_intror eq_refl)) as (st & Hs & Hf & ->).
      rewrite marked_store. unfold nonempty.
      rewrite (bool_decide_eq_true_2 _ Hjne), Hlook, insert_insert_eq.
      apply map_Forall_insert_2; [|done].
      apply placeholder_ok_touched; done.
    + cbn [truthy snd]. unfold run. rewrite recordJobCompletion_eq, Hlook.
      fold (run (markJobStatus jobId rs) w). rewrite marked_store.
      destruct (nonempty jobId); [|done]. rewrite Hlook.
      apply map_Forall_insert_2; [|done]. intros _. exact Hpi.
  - cbn [mbind option_bind truthy snd]. unfold run.
    rewrite recordJobCompletion_eq, Hlook. cbn [snd].
    rewrite saved_store. cbn [paymentsStore with_store].
    apply map_Forall_insert_2; [|done]. intros _. reflexivity.
Qed.

Lemma stripe_webhook_settled request w :
  ledger_settled (paymentsStore w) →
  ledger_settled (paymentsStore (run (stripe_webhook request) w)).
Proof.
  intros Hsettled.
  destruct request as [[session|session|session| |]|]; try done.
  - destruct (truthy (metadata_jobId session) && truthy (payment_intent session))
      eqn:Hboth.
    + apply andb_true_iff in Hboth as [Hj Hp].
      destruct (metadata_jobId session) as [jobId|] eqn:Ej; [|discriminate].
      destruct (payment_intent session) as [pi|] eqn:Ep; [|discriminate].
      cbn in Hj, Hp. apply bool_decide_eq_true_1 in Hj, Hp.
      unfold run at 1.
      rewrite (checkout_completed_eq session jobId pi) by done. cbn [snd].
      destruct (paymentsStore w !! jobId) as [record|] eqn:Hlook.
      * cbn zeta. set (w1 := saved (with_store _ w)).
        assert (Hstore1 : paymentsStore w1 =
                  <[jobId := attached record (Some pi) (session_id session)]>
                    (paymentsStore w))
          by (unfold w1; rewrite saved_store; done).
        assert (Hlook1 : paymentsStore w1 !! jobId =
                  Some (attached record (Some pi) (session_id session)))
          by (rewrite Hstore1; apply lookup_insert_eq).
        assert (Hsettle : ∀ success : bool,
          status record = (if success then render_succeeded else render_failed) →
          ledger_settled
            (paymentsStore (run (if success then capturePayment jobId
                                 else cancelPayment jobId) w1))).
        { intros success Hst.
          destruct (settlement_store success jobId _ pi _ Hlook1 eq_refl Hp Hj
                      (or_intror Hst)) as (st & Hs & Hf & ->).
          rewrite Hstore1, insert_insert_eq.
          apply map_Forall_insert_2; [|done].
          apply placeholder_ok_touched; done. }
        destruct (status record) eqn:Hst; try done.
        -- apply (Hsettle true). done.
        -- apply (Hsettle false). done.
      * unfold run. rewrite recordPayment_eq, Hlook.
        unfold nonempty. rewrite (bool_decide_eq_true_2 _ Hj). cbn [snd].
        rewrite saved_store. cbn [paymentsStore with_store].
        apply map_Forall_insert_2; [|done]. intros [Hst|Hst]; discriminate.
    + unfold run. rewrite checkout_completed_ignored by done. done.
  - unfold run at 1. rewrite async_payment_failed_eq. cbn [snd].
    destruct (metadata_jobId session); [|done].
    apply marked_settled; done.
Qed.

Lemma sweep_settled w :
  ledger_settled (paymentsStore w) →
  ledger_settled (paymentsStore (run cleanupStuckAuthorizations w)).
Proof.
  unfold run. rewrite cleanupStuckAuthorizations_eq. cbn [snd].
  generalize (clock w) as now. intros now.
  generalize (map_to_list (paymentsStore w)) as entries.
  intros entries. revert w.
  induction entries as [|[jobId snapshot] rest IH]; intros w Hsettled; [done|].
  cbn [foldl fst]. apply IH. unfold visited.
  destruct (paymentsStore w !! jobId); [|done].
  case_bool_decide; [|done].
  apply cancelPayment_settled. done.
Qed.

End Settled.

(** X9.  The ledger is an audit trail.  In a ledger as the engine
    builds it (a record waiting for its authorization has no reference
    yet), no entry point removes a record or changes its creation time,
    and a payment reference, once attached to a job, is never replaced:
    the paymentIntentId and sessionId stay as first written.  The
    entry points keep the ledger in that shape. *)
Theorem engine_keeps_records `{Platform} w :
  ledger_ok (paymentsStore w) →
  ledger_settled (paymentsStore w) →
  (∀ request,
     kept w (run (stripe_webhook request) w) ∧
     ledger_settled (paymentsStore (run (stripe_webhook request) w))) ∧
  (∀ jobId success,
     kept w (run (handleJobCompletion jobId success) w) ∧
     ledger_settled
       (paymentsStore (run (handleJobCompletion jobId success) w))) ∧
  kept w (run cleanupStuckAuthorizations w) ∧
  ledger_settled (paymentsStore (run cleanupStuckAuthorizations w)).
Proof.
  intros Hok Hsettled. split; [|split; [|split]].
  - intros request. split.
    + apply stripe_webhook_kept. done.
    + apply stripe_webhook_settled. done.
  - intros jobId success. split.
    + apply handleJobCompletion_kept.
    + apply handleJobCompletion_settled; done.
  - apply sweep_kept.
  - apply sweep_settled. done.
Qed.

(** A second checkout for job-1, with another PaymentIntent, leaves the
    reference of job-1 as it was. *)
Lemma engine_keeps_records_witness :
  ∃ record',
    paymentsStore
      (run (@stripe_webhook stripe_accepts_all
              (Some (checkout_session_completed
                       {| session_id := Some "sess_9";
                          metadata_jobId := Some "job-1";
                          payment_intent := Some "pi_9" |})))
           (world_with captured)) !! "job-1" = Some record' ∧
    createdAt record' = createdAt (record_in captured) ∧
    (is_Some (paymentIntentId (record_in captured)) →
     paymentIntentId record' = paymentIntentId (record_in captured) ∧
     sessionId record' = sessionId (record_in captured)).
Proof.
  assert (Hok : ledger_ok (paymentsStore (world_with captured))).
  { apply map_Forall_singleton. split; discriminate. }
  assert (Hsettled : ledger_settled (paymentsStore (world_with captured))).
  { apply map_Forall_singleton. intros [Hst|Hst]; discriminate. }
  destruct (@engine_keeps_records stripe_accepts_all (world_with captured)
              Hok Hsettled) as (Hwebhook & _).
  destruct (Hwebhook
              (Some (checkout_session_completed
                       {| session_id := Some "sess_9";
                          metadata_jobId := Some "job-1";
                          payment_intent := Some "pi_9" |}))) as [Hkept _].
  apply (Hkept "job-1" (record_in captured)). reflexivity.
Defined.

(** ** Outcome notices that arrive before the authorization *)

Section EarlyOutcomes.
Context `{Platform}.



End EarlyOutcomes.



(** * Prompt text *)

Lemma skip_while_stop p x c y :
  p c = false → skip_while p (x ++ c :: y) = skip_while p x ++ c :: y.
Proof.
  intros Hc. induction x as [|a x IH]; cbn.
  - by rewrite Hc.
  - by destruct (p a).
Qed.

Lemma skip_while_Forall (P : ascii → Prop) p s :
  Forall P s → Forall P (skip_while p s).
Proof.
  induction 1 as [|a s Ha Hs IH]; cbn; [constructor|].
  destruct (p a); [done | by constructor].
Qed.

Lemma skip_while_nil p s :
  skip_while p s = [] → Forall (λ c, p c = true) s.
Proof.
  induction s as [|a s IH]; cbn; [constructor|].
  destruct (p a) eqn:Ha; [|done]. intros Hs. constructor; auto.
Qed.

Lemma take_while_Forall p s : Forall (λ c, p c = true) (take_while p s).
Proof.
  induction s as [|a s IH]; cbn; [constructor|].
  destruct (p a) eqn:Ha; by constructor.
Qed.

Lemma trim_Forall (P : ascii → Prop) s : Forall P s → Forall P (trim s).
Proof.
  intros Hs. unfold trim.
  apply Forall_reverse, skip_while_Forall, Forall_reverse.
  by apply skip_while_Forall.
Qed.

(** Trimming stops at text that begins and ends with something other
    than white space. *)
Lemma trim_solid x t :
  from_option is_space true (head t) = false →
  from_option is_space true (last t) = false →
  trim (x ++ t) = skip_while is_space x ++ t.
Proof.
  intros Hhead Hlast. destruct t as [|c t]; [done|]. cbn in Hhead.
  unfold trim. rewrite skip_while_stop by done.
  destruct (last (c :: t)) as [d|] eqn:Hd; [|done]. cbn in Hlast.
  apply last_Some in Hd as [t' Ht']. rewrite Ht'.
  rewrite app_assoc, reverse_snoc. cbn [skip_while]. rewrite Hlast.
  by rewrite reverse_cons, reverse_involutive.
Qed.

Lemma is_stop_not_space c : is_stop c = true → is_space c = false.
Proof.
  unfold is_stop. intros Hc%bool_decide_eq_true.
  cbn in Hc.
  repeat (apply elem_of_cons in Hc as [->|Hc]; [reflexivity|]).
  by apply elem_of_nil in Hc.
Qed.

Lemma starts_with_snoc w x c :
  c ∉ w → starts_with w (x ++ [c]) = true → starts_with w x = true.
Proof.
  revert x. induction w as [|p w IH]; intros x Hc; [done|].
  apply not_elem_of_cons in Hc as [Hpc Hw].
  destruct x as [|a x]; cbn.
  - case_bool_decide; [congruence | done].
  - intros [Hp Hrest]%andb_true_iff. rewrite Hp. cbn. by apply IH.
Qed.

(** A word is not found by appending a character it does not have. *)
Lemma includes_snoc w x c :
  w ≠ [] → c ∉ w → includes w (x ++ [c]) = true → includes w x = true.
Proof.
  intros Hw Hc. induction x as [|a x IH]; cbn.
  - destruct w as [|p w]; [done|]. apply not_elem_of_cons in Hc as [Hpc _].
    cbn. case_bool_decide; [congruence | done].
  - intros [Hhere|Hlater]%orb_true_iff.
    + change (starts_with w ((a :: x) ++ [c]) = true) in Hhere.
      apply starts_with_snoc in Hhere; [|done].
      by rewrite Hhere.
    + rewrite (IH Hlater). apply orb_true_r.
Qed.

Lemma includes_app_r w x y :
  includes w y = true → includes w (x ++ y) = true.
Proof.
  intros Hy. induction x as [|a x IH]; [done|].
  cbn [app includes]. rewrite IH. apply orb_true_r.
Qed.

Lemma skip_while_head p s c rest : skip_while p s = c :: rest → p c = false.
Proof.
  induction s as [|a s IH]; cbn; [done|].
  destruct (p a) eqn:Ha; [done|]. by intros [= -> _].
Qed.

Lemma run_then_stop from :
  ∃ run, Forall (λ c, is_stop c = false) run ∧
    let sentence :=
      take_while (λ c, negb (is_stop c)) from ++
      match skip_while (λ c, negb (is_stop c)) from with
      | stop :: _ => [stop]
      | [] => []
      end in
    sentence = run ∨ ∃ stop, is_stop stop = true ∧ sentence = run ++ [stop].
Proof.
  exists (take_while (λ c, negb (is_stop c)) from). split.
  - eapply Forall_impl; [apply take_while_Forall|].
    intros a Ha. by apply negb_true_iff in Ha.
  - destruct (skip_while _ from) as [|stop rest] eqn:Hrest; cbn.
    + left. apply app_nil_r.
    + right. exists stop. split; [|done].
      apply skip_while_head in Hrest. by apply negb_false_iff in Hrest.
Qed.

Lemma first_sentence_Some s sentence :
  first_sentence s = Some sentence →
  ∃ run, Forall (λ c, is_stop c = false) run ∧
    (sentence = run ∨ ∃ stop, is_stop stop = true ∧ sentence = run ++ [stop]).
Proof.
  unfold first_sentence. destruct (skip_while is_stop s) as [|c from]; [done|].
  intros [= <-]. apply (run_then_stop (c :: from)).
Qed.

Lemma first_sentence_None s :
  first_sentence s = None → Forall (λ c, is_stop c = true) s.
Proof.
  unfold first_sentence. intros Hs. apply skip_while_nil.
  by destruct (skip_while is_stop s).
Qed.

Lemma ends_with_stop_Forall s :
  Forall (λ c, is_stop c = false) s → ends_with_stop s = false.
Proof.
  intros Hs. unfold ends_with_stop.
  destruct (last s) as [d|] eqn:Hd; [|done]. cbn.
  apply last_Some in Hd as [s' ->].
  rewrite Forall_app, Forall_singleton in Hs. by destruct Hs.
Qed.

(** The last step of [cleanSuggestionLine] on what the steps before
    leave. *)
Lemma closing_stop cleaned :
  Forall (λ c, is_stop c = false) cleaned ∨
  Forall (λ c, is_stop c = true) cleaned ∨
  (∃ run stop, cleaned = run ++ [stop] ∧ is_stop stop = true ∧
     Forall (λ c, is_stop c = false) run) →
  one_sentence (if ends_with_stop cleaned then cleaned else cleaned ++ text ".").
Proof.
  intros [Hnone|[Hall|(run & stop & -> & Hstop & Hrun)]].
  - rewrite ends_with_stop_Forall by done.
    exists cleaned, "."%char. auto.
  - destruct (ends_with_stop cleaned) eqn:Hend.
    + unfold ends_with_stop in Hend.
      destruct (last cleaned) as [d|] eqn:Hd; [|done].
      apply last_Some in Hd as [body ->].
      apply Forall_app in Hall as [Hbody _].
      exists body, d. auto.
    + exists cleaned, "."%char. auto.
  - unfold ends_with_stop. rewrite last_snoc. cbn. rewrite Hstop.
    exists run, stop. auto.
Qed.

Lemma speechWords_dotless :
  Forall (λ w, w ≠ [] ∧ "."%char ∉ w) speechWords.
Proof. apply (bool_decide_unpack _). vm_compute. exact I. Qed.

Lemma speech_free_nil : speech_free [].
Proof. apply (bool_decide_unpack _). vm_compute. exact I. Qed.

Lemma speech_free_closing cleaned :
  existsb (λ w, includes w (toLowerCase cleaned)) speechWords = false →
  speech_free cleaned ∧ speech_free (cleaned ++ text ".").
Proof.
  intros Hnone.
  assert (speech_free cleaned) as Hfree.
  { apply Forall_forall. intros w Hw.
    destruct (includes w (toLowerCase cleaned)) eqn:Hin; [|done].
    assert (existsb (λ w, includes w (toLowerCase cleaned)) speechWords = true)
      as Hsome; [|congruence].
    apply existsb_exists. exists w. split; [|done]. by apply list_elem_of_In. }
  split; [done|].
  pose proof speechWords_dotless as Hdot.
  unfold speech_free in *. rewrite Forall_forall in Hfree, Hdot |- *.
  intros w Hw. destruct (Hdot w Hw) as [Hne Hno]. specialize (Hfree w Hw).
  destruct (includes w (toLowerCase (cleaned ++ text "."))) eqn:Hin; [|done].
  unfold toLowerCase in Hin. rewrite fmap_app in Hin.
  apply includes_snoc in Hin; [|done..]. unfold toLowerCase in Hfree. congruence.
Qed.

(** What [cleanSuggestionLine] returns, whatever the line. *)
Lemma cleanSuggestionLine_shape line :
  (cleanSuggestionLine line = [] ∨ one_sentence (cleanSuggestionLine line)) ∧
  speech_free (cleanSuggestionLine line).
Proof.
  pose proof speech_free_nil as Hnil.
  unfold cleanSuggestionLine.
  case_bool_decide; [auto|].
  destruct (is_here_preface _); [auto|].
  destruct (is_suggestion_label _); [auto|].
  case_bool_decide; [auto|].
  set (replaced := avoid_subject _).
  set (cleaned := match first_sentence replaced with
                  | Some sentence => trim sentence
                  | None => replaced
                  end).
  destruct (existsb _ speechWords) eqn:Hspeech; [auto|].
  apply speech_free_closing in Hspeech as [Hfree Hfree'].
  split; [|by destruct (ends_with_stop cleaned)].
  right. apply closing_stop. subst cleaned.
  destruct (first_sentence replaced) as [sentence|] eqn:Hfirst.
  - apply first_sentence_Some in Hfirst as (run & Hrun & [->|(stop & Hstop & ->)]).
    + left. by apply trim_Forall.
    + right. right. exists (skip_while is_space run), stop.
      split; [|split; [done | by apply skip_while_Forall]].
      apply trim_solid; cbn; by apply is_stop_not_space.
  - right. left. by apply first_sentence_None.
Qed.

Lemma fallbackSuggestions_shape :
  Forall (λ s, one_sentence s ∧ speech_free s) fallbackSuggestions.
Proof.
  repeat constructor;
    try (apply (bool_decide_unpack _); vm_compute; exact I).
  all: match goal with
       | |- one_sentence ?s =>
           exists (take (length s - 1) s), "."%char;
           split; [vm_compute; reflexivity|];
           split; [reflexivity|]; left;
           apply (bool_decide_unpack _); vm_compute; exact I
       end.
Qed.

Lemma cleaned_lines_shape lines :
  Forall (λ s, one_sentence s ∧ speech_free s)
    (filter (λ line, line ≠ []) (cleanSuggestionLine <$> lines)).
Proof.
  apply Forall_forall. intros s [Hne Hin]%list_elem_of_filter.
  apply list_elem_of_fmap in Hin as (line & -> & _).
  destruct (cleanSuggestionLine_shape line) as [[Hnil|Hone] Hfree]; done.
Qed.

(** Space runs before solid text are collapsed on their own. *)
Lemma collapse_go_solid in_run x c y :
  is_space c = false →
  collapse_go in_run (x ++ c :: y) = collapse_go in_run x ++ c :: collapse_go false y.
Proof.
  intros Hc. revert in_run. induction x as [|a x IH]; intros in_run; cbn.
  - by rewrite Hc.
  - destruct (is_space a); [destruct in_run|]; by rewrite IH.
Qed.

Lemma hasStrongVerb_upgrade x :
  hasStrongVerb
    (x ++ text ". They blink clearly twice and make a tiny, natural head tilt before returning to a still pose.")
  = true.
Proof.
  unfold hasStrongVerb. cbn [existsb]. unfold toLowerCase. rewrite fmap_app.
  rewrite includes_app_r; [done|]. vm_compute. reflexivity.
Qed.

(** X11. Whatever ASCII line Gemini wrote, [cleanSuggestionLine] returns
    either the empty string or one sentence: text that ends with [.],
    [?] or [!] and has before that end no such character (or nothing
    but such characters); and the lower-cased result contains none of
    the speech words. *)
Theorem cleanSuggestionLine_one_sentence line :
  plain line →
  (cleanSuggestionLine line = [] ∨ one_sentence (cleanSuggestionLine line)) ∧
  speech_free (cleanSuggestionLine line).
Proof. intros _. apply cleanSuggestionLine_shape. Qed.

Lemma cleanSuggestionLine_one_sentence_witness :
  plain (text "1. The subject blinks slowly. Then nods") ∧
  cleanSuggestionLine (text "1. The subject blinks slowly. Then nods")
    = text "the person blinks slowly." ∧
  one_sentence (text "the person blinks slowly.") ∧
  speech_free (text "the person blinks slowly.").
Proof.
  assert (plain (text "1. The subject blinks slowly. Then nods")) as Hplain
    by (apply (bool_decide_unpack _); vm_compute; exact I).
  assert (cleanSuggestionLine (text "1. The subject blinks slowly. Then nods")
          = text "the person blinks slowly.") as Hclean
    by (vm_compute; reflexivity).
  destruct (cleanSuggestionLine_one_sentence _ Hplain) as [[Hnil|Hone] Hfree];
    rewrite Hclean in *; [discriminate|].
  repeat split; assumption.
Defined.

(** X12. POST /suggest-prompts always answers with one, two or three
    suggestions; each is one sentence that ends with [.], [?] or [!]
    and contains no speech word, whether it comes from Gemini or from
    the fallback list; and the answer carries the error member only
    when the request to Gemini threw. *)
Theorem suggest_prompts_answer imageBase64 api_key reply :
  plain_reply reply →
  let answer := suggest_prompts imageBase64 api_key reply in
  1 ≤ length answer.1 ≤ 3 ∧
  Forall (λ s, one_sentence s ∧ speech_free s) answer.1 ∧
  (answer.2 = true → reply = gemini_throws).
Proof.
  intros _. pose proof fallbackSuggestions_shape as Hfallback.
  assert (1 ≤ length fallbackSuggestions ≤ 3) as Hthree by (cbn; lia).
  unfold suggest_prompts.
  case_bool_decide; [done|].
  destruct (negb (truthy api_key)); [done|].
  destruct reply as [| |first_text]; [done..|].
  cbn zeta. set (cleaned := filter _ _).
  case_bool_decide as Hnone; [done|]. cbn [fst snd].
  split; [|split; [|done]].
  - rewrite length_take.
    assert (length cleaned ≠ 0) by (by destruct cleaned). lia.
  - apply Forall_take, cleaned_lines_shape.
Qed.

Lemma suggest_prompts_answer_witness :
  plain_reply (gemini_answers (Some (text "1. She blinks. 2. He nods"))) ∧
  1 ≤ length (suggest_prompts (text "aGVsbG8=") (Some "key")
                (gemini_answers (Some (text "1. She blinks. 2. He nods")))).1 ≤ 3.
Proof.
  assert (plain_reply (gemini_answers (Some (text "1. She blinks. 2. He nods"))))
    as Hplain by (apply (bool_decide_unpack _); vm_compute; exact I).
  split; [exact Hplain|].
  apply (suggest_prompts_answer (text "aGVsbG8=") (Some "key") _ Hplain).
Defined.

(** X13. [ensureVisibleMotion] always returns a prompt that names a
    visible motion, and changes nothing when applied again. *)
Theorem ensureVisibleMotion_has_motion prompt :
  plain prompt →
  hasStrongVerb (ensureVisibleMotion prompt) = true ∧
  ensureVisibleMotion (ensureVisibleMotion prompt) = ensureVisibleMotion prompt.
Proof.
  intros _.
  assert (hasStrongVerb (ensureVisibleMotion prompt) = true) as Hverb.
  { unfold ensureVisibleMotion.
    destruct (hasStrongVerb prompt) eqn:Hprompt; [done|].
    apply hasStrongVerb_upgrade. }
  split; [done|].
  unfold ensureVisibleMotion at 1. by rewrite Hverb.
Qed.

Lemma ensureVisibleMotion_has_motion_witness :
  plain (text " waves... ") ∧
  hasStrongVerb (text " waves... ") = false ∧
  hasStrongVerb (ensureVisibleMotion (text " waves... ")) = true.
Proof.
  assert (plain (text " waves... ")) as Hplain
    by (apply (bool_decide_unpack _); vm_compute; exact I).
  split; [exact Hplain|]. split; [vm_compute; reflexivity|].
  apply (ensureVisibleMotion_has_motion _ Hplain).
Defined.

(** X14. Whatever the user's prompt, the prompt sent to Kling ends with
    a full stop, the forced motion and the hard rules, word for word:
    nothing in the user's text, and neither the removal of speech words
    nor the collapsing of white space, alters them. *)
Theorem enforceVisibleMotionNoSpeech_appends_rules prompt :
  plain prompt →
  ∃ body,
    enforceVisibleMotionNoSpeech prompt
    = body ++ text ". " ++ forcedMotion ++ text " " ++ hardRules.
Proof.
  intros _. unfold enforceVisibleMotionNoSpeech.
  set (cleaned := trim (collapse_spaces (remove_speech (trim prompt)))).
  set (base := if bool_decide (cleaned = [])
               then text "Subtle natural movement only." else cleaned).
  set (rest := text " " ++ forcedMotion ++ text " " ++ hardRules).
  assert (∃ z, base ++ (if bool_decide (last base = Some "."%char)
                        then [] else text ".") ++ rest
               = z ++ "."%char :: rest) as [z ->].
  { case_bool_decide as Hlast.
    - apply last_Some in Hlast as [z ->]. exists z. by rewrite <- app_assoc.
    - by exists base. }
  unfold collapse_spaces. rewrite collapse_go_solid by reflexivity.
  assert ("."%char :: collapse_go false rest
          = text ". " ++ forcedMotion ++ text " " ++ hardRules) as ->
    by (vm_compute; reflexivity).
  exists (skip_while is_space (collapse_go false z)).
  apply trim_solid; vm_compute; reflexivity.
Qed.

Lemma enforceVisibleMotionNoSpeech_appends_rules_witness :
  plain (text "  She is talking   and smiling ") ∧
  ∃ body,
    enforceVisibleMotionNoSpeech (text "  She is talking   and smiling ")
    = body ++ text ". " ++ forcedMotion ++ text " " ++ hardRules.
Proof.
  assert (plain (text "  She is talking   and smiling ")) as Hplain
    by (apply (bool_decide_unpack _); vm_compute; exact I).
  split; [exact Hplain|].
  apply (enforceVisibleMotionNoSpeech_appends_rules _ Hplain).
Defined.

(** * The outputs folder *)

Lemma cleanup_file_lookup now files file other :
  cleanup_file now files file !! other =
  if decide (other = file)
  then entry ← files !! file;
       if decide (expired now entry) then None else Some entry
  else files !! other.
Proof.
  unfold cleanup_file, fs_statSync, fs_unlinkSync.
  destruct (files !! file) as [entry|] eqn:Hentry; cbn;
    [|by destruct (decide (other = file)) as [->|]].
  destruct (decide (expired now entry)) as [Hold|Hyoung]; unfold expired in *.
  - destruct (stats entry) as [st|]; [|done].
    destruct Hold as (Hfile & Hage & Hunlink). cbn.
    rewrite Hfile, Hunlink, bool_decide_eq_true_2 by done. cbn.
    destruct (decide (other = file)) as [->|Hother].
    + apply lookup_delete_eq.
    + by apply lookup_delete_ne.
  - assert (files !! other
            = if decide (other = file) then Some entry else files !! other)
      as Hsame by (by destruct (decide (other = file)) as [->|]).
    destruct (stats entry) as [st|]; cbn; [|done].
    destruct (isFile st); cbn; [|done].
    case_bool_decide; [|done].
    destruct (unlink_ok entry); cbn; [|done].
    by destruct Hyoung.
Qed.

Lemma cleanup_files_lookup now names files other :
  NoDup names →
  foldl (cleanup_file now) files names !! other =
  if decide (other ∈ names)
  then entry ← files !! other;
       if decide (expired now entry) then None else Some entry
  else files !! other.
Proof.
  revert files. induction names as [|file names IH]; intros files Hnames.
  - cbn. rewrite decide_False; [done | apply not_elem_of_nil].
  - apply NoDup_cons in Hnames as [Hfile Hnames].
    cbn [foldl]. rewrite IH by done.
    rewrite cleanup_file_lookup.
    destruct (decide (other = file)) as [->|Hother].
    + rewrite decide_False by done.
      rewrite decide_True; [done | apply list_elem_of_here].
    + destruct (decide (other ∈ names)) as [Hin|Hout].
      * rewrite decide_True; [done | by apply list_elem_of_further].
      * rewrite decide_False; [done|].
        by intros [?|?]%elem_of_cons.
Qed.

(** X15. When the outputs folder exists and can be listed,
    [cleanupOldOutputs] at [now] leaves in it exactly the entries that
    are not expired, each as it was: it deletes the regular files last
    modified more than a week before that [fs] lets it stat and unlink,
    and nothing else - no directory, no younger file. *)
Theorem cleanupOldOutputs_removes_expired now folder files :
  listing folder = Some files →
  readdir_ok folder = true →
  listing (cleanupOldOutputs now folder)
  = Some (filter (λ named, ¬ expired now named.2) files).
Proof.
  intros Hfiles Hreaddir.
  unfold cleanupOldOutputs, fs_readdirSync. rewrite Hfiles, Hreaddir. cbn.
  f_equal. apply map_eq. intros file.
  rewrite cleanup_files_lookup by apply NoDup_fst_map_to_list.
  rewrite map_lookup_filter.
  destruct (files !! file) as [entry|] eqn:Hentry; cbn.
  - rewrite decide_True.
    + destruct (decide (expired now entry)) as [Hold|Hyoung].
      * by rewrite option_guard_False by (intros Hkeep; by apply Hkeep).
      * by rewrite option_guard_True.
    + apply list_elem_of_fmap. exists (file, entry).
      split; [done | by apply elem_of_map_to_list].
  - by destruct (decide (file ∈ _)).
Qed.

Lemma cleanupOldOutputs_removes_expired_witness :
  listing example_folder = Some example_files ∧
  readdir_ok example_folder = true ∧
  listing (cleanupOldOutputs example_now example_folder)
  = Some (filter (λ named, ¬ expired example_now named.2) example_files) ∧
  filter (λ named, ¬ expired example_now named.2) example_files
  = delete "old.mp4" example_files.
Proof.
  split; [reflexivity|]. split; [reflexivity|]. split.
  - apply (cleanupOldOutputs_removes_expired example_now example_folder
             example_files); reflexivity.
  - vm_compute. reflexivity.
Defined.
